(** * GuitarHelio: transcription and tempo cores, shallow embedding

    The development follows the C++ sources:
    - [Tempo]      : third_party/tempocnn_core/src/TempoCnn.cpp
    - [NeuralNote] : third_party/neuralnote_core/src/BasicPitchCNN.cpp,
                     BasicPitch.cpp, NNFeatures.cpp, NeuralNoteTranscriber.cpp,
                     TranscriptionIO.cpp, Utils.h, cli/main.cpp and the JNI
                     converter
    - [TempoCli]   : third_party/tempocnn_core/cli/main.cpp and TempoIO.cpp
    The definitions come first; [TempoFacts], [NeuralNoteFacts], [TempoMore],
    [NeuralNoteMore] and [TempoCliFacts] hold the theorems.

    Numeric conventions.  In [Tempo] a C++ [double]/[float] is an exact
    rational ([Q]); [std::round] is rounding half away from zero.  [int] and
    [size_t] values are integers ([Z]) or naturals; where the source relies on
    unsigned wrap-around ([size_t] subtraction in the streaming driver) the
    wrap is written out.  In [NeuralNote] the sample type is abstract: the
    driver only moves values around. *)

From Stdlib Require Import ZArith QArith Qround Qabs Qminmax Lia Lqa String Ascii List Sorted.
From stdpp Require Import base tactics list strings gmap pretty.
Import ListNotations.

(** ** Tempo estimation (TempoCnn.cpp) *)
Module Tempo.

Local Open Scope Z_scope.

Definition kNfft : Z := 1024.
Definition kStftHopLength : Z := 512.
Definition kMelBands : Z := 40.
Definition kTempoClasses : Z := 256.
Definition kWindowFrames : Z := 256.
Definition kGlobalHopFrames : Z := 128.
Definition kLocalHopFrames : Z := 32.
Definition kLocalSmoothingWindow : Z := 5.

Definition kTempoMinBpm : Q := 20.
Definition kTempoMaxBpm : Q := 300.
Definition kLocalTempoMinTimeDelta : Q := 7 # 10.
Definition kLocalTempoMinBpmDelta : Q := 3 # 4.
Definition kFeatureFrameSeconds : Q := 512 # 11025.

(** [a < b] on doubles. *)
Definition Qltb (a b : Q) : bool := negb (Qle_bool b a).

(** [std::max(a, b)] is [(a < b) ? b : a]; [std::min(a, b)] is
    [(b < a) ? b : a]. *)
Definition std_max (a b : Q) : Q := if Qltb a b then b else a.
Definition std_min (a b : Q) : Q := if Qltb b a then b else a.

Definition clampDouble (value minValue maxValue : Q) : Q :=
  std_max minValue (std_min maxValue value).

(** [std::round]: nearest integer, halfway cases away from zero. *)
Definition std_round (q : Q) : Z :=
  if Qle_bool 0 q then Qfloor (q + (1 # 2)) else - Qfloor (- q + (1 # 2)).

Definition roundToDecimals (value : Q) (decimals : Z) : Q :=
  let safeDecimals := Z.max 0 (Z.min 9 decimals) in
  let scale := inject_Z (10 ^ safeDecimals) in
  inject_Z (std_round (value * scale)) / scale.

(** [values[i]] for an index known to be in range. *)
Definition at_ (values : list Q) (i : Z) : Q := nth (Z.to_nat i) values 0%Q.

Definition size (values : list Q) : Z := Z.of_nat (length values).

Definition isEmpty {A} (l : list A) : bool := match l with [] => true | _ => false end.

(** *** argmax, interpolateArgmax, classIndexToBpm *)

Definition argmax (values : list Q) : Z :=
  match values with
  | [] => 0
  | front :: _ =>
      fst (fold_left
             (fun '(bestIndex, bestValue) index =>
                if Qltb bestValue (at_ values index)
                then (index, at_ values index)
                else (bestIndex, bestValue))
             (seqZ 1 (size values - 1)) (0, front))
  end.

Definition interpolateArgmax (values : list Q) (index : Z) : Q :=
  if (index <=? 0) || (index >=? size values - 1) then inject_Z index
  else
    let left := at_ values (index - 1) in
    let center := at_ values index in
    let right := at_ values (index + 1) in
    let denominator := (left - 2 * center + right)%Q in
    if Qltb (Qabs denominator) (1 # 1000000000000) then inject_Z index
    else
      let delta := ((1 # 2) * (left - right) / denominator)%Q in
      let safeDelta := clampDouble delta (- (1)) 1 in
      (inject_Z index + safeDelta)%Q.

Definition classIndexToBpm (index : Q) : Q :=
  clampDouble (index + 30) kTempoMinBpm kTempoMaxBpm.

(** *** movingAverageSame *)

Definition safeWindowOf (windowSize : Z) : Z :=
  let safeWindow := Z.max 1 windowSize in
  if Z.rem safeWindow 2 =? 0 then safeWindow + 1 else safeWindow.

(** The inner loop over [offset] in [-halfWindow .. halfWindow]. *)
Definition windowSum (values : list Q) (index halfWindow : Z) : Q :=
  fold_left
    (fun sum offset =>
       let sampleIndex := index + offset in
       if (sampleIndex <? 0) || (sampleIndex >=? size values) then sum
       else (sum + at_ values sampleIndex)%Q)
    (seqZ (- halfWindow) (2 * halfWindow + 1)) 0%Q.

Definition movingAverageSame (values : list Q) (windowSize : Z) : list Q :=
  if isEmpty values then []
  else
      let safeWindow := safeWindowOf windowSize in
      let halfWindow := Z.quot safeWindow 2 in
      map (fun index => (windowSum values index halfWindow / inject_Z safeWindow)%Q)
          (seqZ 0 (size values)).

(** *** compressTempoPoints *)

Record TempoPoint := { timeSeconds : Q; bpm : Q }.

Definition rawTempoPoints (bpmSeries : list Q) (hopSeconds : Q) : list TempoPoint :=
  map (fun index =>
         let b := clampDouble (at_ bpmSeries index) kTempoMinBpm kTempoMaxBpm in
         {| timeSeconds := roundToDecimals (inject_Z index * hopSeconds) 6;
            bpm := roundToDecimals b 6 |})
      (seqZ 0 (size bpmSeries)).

(** One iteration of the compression loop; [last] is [compressed.back()]. *)
Definition compressStep (compressed : list TempoPoint) (last current : TempoPoint)
  : list TempoPoint :=
  let timeDelta := (timeSeconds current - timeSeconds last)%Q in
  let bpmDelta := Qabs (bpm current - bpm last) in
  if Qltb timeDelta kLocalTempoMinTimeDelta && Qltb bpmDelta kLocalTempoMinBpmDelta
  then compressed
  else compressed ++ [current].

Definition compressTempoPoints (bpmSeries : list Q) (hopSeconds : Q) : list TempoPoint :=
  match rawTempoPoints bpmSeries hopSeconds with
  | [] => []
  | front :: rest =>
      fold_left
        (fun compressed current =>
           compressStep compressed (List.last compressed front) current)
        rest [front]
  end.

(** *** Feature tensors and [std::copy] *)

Record FeatureTensor := { data : list Q; totalFrames : Z }.
Record SlidingWindowTensor := { wdata : list Q; numWindows : Z }.

(** [std::copy(src.begin() + first, src.begin() + first + n, dst.begin() + pos)]:
    the [n] elements of [dst] from [pos] on are overwritten. *)
Definition copy_range (src : list Q) (first n : nat) (dst : list Q) (pos : nat) : list Q :=
  take pos dst ++ take n (drop first src) ++ drop (pos + n) dst.

(** *** computeMelSpectrogram

    [melEnergy frame mel] stands for lines 219-235 of TempoCnn.cpp on one
    analysis frame: Hann windowing, the radix-2 FFT, the magnitudes of bins
    0..512 and the product with row [mel] of the Slaney filter bank, cast to
    [float].  It is transcendental floating-point arithmetic and is kept as a
    parameter; the framing around it is modelled in full. *)
Definition computeMelSpectrogram (melEnergy : list Q -> Z -> Q) (monoSamples : list Q)
  : FeatureTensor :=
  if isEmpty monoSamples then {| data := []; totalFrames := 0 |}
  else
      let padSamples := Z.quot kNfft 2 in
      let padded :=
        copy_range monoSamples 0 (length monoSamples)
          (replicate (length monoSamples + Z.to_nat (padSamples * 2)) 0%Q)
          (Z.to_nat padSamples) in
      if size padded <? kNfft then {| data := []; totalFrames := 0 |}
      else
        let frameCount := 1 + (size padded - kNfft) / kStftHopLength in
        let filled :=
          fold_left
            (fun acc frameIndex =>
               let offset := Z.to_nat (frameIndex * kStftHopLength) in
               let frame := take (Z.to_nat kNfft) (drop offset padded) in
               fold_left
                 (fun acc mel =>
                    <[Z.to_nat (mel * frameCount + frameIndex) := melEnergy frame mel]> acc)
                 (seqZ 0 kMelBands) acc)
            (seqZ 0 frameCount)
            (replicate (Z.to_nat (kMelBands * frameCount)) 0%Q) in
        {| data := filled; totalFrames := frameCount |}.

(** *** toSlidingWindows *)

(** The per-band copy loop shared by both padding branches: band [mel] of
    [workingData] ([workingFrames] wide) goes to offset [mel * dstFrames +
    shift] of a zero tensor [dstFrames] wide. *)
Definition padBands (workingData : list Q) (workingFrames dstFrames shift : Z) : list Q :=
  fold_left
    (fun padded mel =>
       copy_range workingData (Z.to_nat (mel * workingFrames)) (Z.to_nat workingFrames)
         padded (Z.to_nat (mel * dstFrames + shift)))
    (seqZ 0 kMelBands)
    (replicate (Z.to_nat (kMelBands * dstFrames)) 0%Q).

Definition toSlidingWindows (features : FeatureTensor) (windowFrames hopFrames : Z)
    (zeroPad : bool) : SlidingWindowTensor :=
  if (totalFrames features <=? 0) || isEmpty (data features)
  then {| wdata := []; numWindows := 0 |}
  else
    let workingFrames := totalFrames features in
    let workingData := data features in
    let '(workingData, workingFrames) :=
      if zeroPad then
        let totalZeros := windowFrames in
        let zerosBefore := Z.quot totalZeros 2 in
        let paddedFrames := workingFrames + totalZeros in
        (padBands workingData workingFrames paddedFrames zerosBefore, paddedFrames)
      else (workingData, workingFrames) in
    let '(workingData, workingFrames) :=
      if workingFrames <? windowFrames then
        (padBands workingData workingFrames windowFrames 0, windowFrames)
      else (workingData, workingFrames) in
    let safeHop := Z.max 1 hopFrames in
    let numWindows := Z.quot (workingFrames - windowFrames) safeHop + 1 in
    let out :=
      fold_left
        (fun out windowIndex =>
           let offset := windowIndex * safeHop in
           fold_left
             (fun out mel =>
                copy_range workingData (Z.to_nat (mel * workingFrames + offset))
                  (Z.to_nat windowFrames) out
                  (Z.to_nat ((windowIndex * kMelBands + mel) * windowFrames)))
             (seqZ 0 kMelBands) out)
        (seqZ 0 numWindows)
        (replicate (Z.to_nat (numWindows * kMelBands * windowFrames)) 0%Q) in
    {| wdata := out; numWindows := numWindows |}.

(** *** normalizeByMax, averagePredictions, predictionRowsToBpmSeries *)

(** [*std::max_element(first, last)]. *)
Definition max_element (front : Q) (rest : list Q) : Q :=
  fold_left (fun largest x => if Qltb largest x then x else largest) rest front.

Definition normalizeByMax (tensor : list Q) : list Q :=
  match tensor with
  | [] => []
  | front :: rest =>
      let maxValue := max_element front rest in
      if Qle_bool maxValue 0 then tensor
      else map (fun value => (value / maxValue)%Q) tensor
  end.

Definition averagePredictions (predictions : list Q) (numWindows : Z) : list Q :=
  if numWindows <=? 0 then replicate (Z.to_nat kTempoClasses) 0%Q
  else
    map (fun col =>
           (fold_left
              (fun acc row => (acc + at_ predictions (row * kTempoClasses + col))%Q)
              (seqZ 0 numWindows) 0%Q
            / inject_Z numWindows)%Q)
        (seqZ 0 kTempoClasses).

Definition predictionRowsToBpmSeries (predictions : list Q) (numWindows : Z) : list Q :=
  map (fun row =>
         let rowOffset := row * kTempoClasses in
         let bestIndex :=
           fst (fold_left
                  (fun '(bestIndex, bestValue) col =>
                     let value := at_ predictions (rowOffset + col) in
                     if Qltb bestValue value then (col, value) else (bestIndex, bestValue))
                  (seqZ 1 (kTempoClasses - 1)) (0, at_ predictions rowOffset)) in
         classIndexToBpm (inject_Z bestIndex))
      (seqZ 0 (Z.max 0 numWindows)).

(** *** TempoCnn::runModel and TempoCnn::estimate *)

Inductive exn := runtime_error (what : string).

Record Tensor := { shape : list Z; values : list Q }.

(** The ONNX session is an external collaborator: [session input inputShape]
    either throws or returns the outputs' first entry when it is a tensor. *)
Definition Session := list Q -> list Z -> exn + option Tensor.

Definition runModel (session : Session) (inputData : list Q) (numWindows : Z)
  : exn + list Q :=
  if numWindows <=? 0 then inl (runtime_error "TempoCNN input tensor is empty.")
  else
    match session inputData [numWindows; kMelBands; kWindowFrames; 1] with
    | inl e => inl e
    | inr None => inl (runtime_error "TempoCNN ONNX runtime returned no tensor output.")
    | inr (Some t) =>
        if bool_decide (shape t = [numWindows; kTempoClasses])
        then inr (map (at_ (values t)) (seqZ 0 (numWindows * kTempoClasses)))
        else inl (runtime_error "TempoCNN ONNX output shape mismatch.")
    end.

Record TempoEstimateOptions := { interpolate : bool; localTempo : bool }.
Record TempoEstimateResult := { tempoBpm : Q; tempoMap : list TempoPoint }.

Definition estimate (melEnergy : list Q -> Z -> Q) (session : Session)
    (monoSamples : list Q) (options : TempoEstimateOptions) : exn + TempoEstimateResult :=
  if isEmpty monoSamples then inl (runtime_error "Input audio is empty.")
  else
    let mel := computeMelSpectrogram melEnergy monoSamples in
    if (totalFrames mel <=? 0) || isEmpty (data mel)
    then inl (runtime_error "Failed to compute mel features.")
    else
      let globalWindows := toSlidingWindows mel kWindowFrames kGlobalHopFrames false in
      if (numWindows globalWindows <=? 0) || isEmpty (wdata globalWindows)
      then inl (runtime_error "Failed to build global tempo windows.")
      else
        let globalInput := normalizeByMax (wdata globalWindows) in
        match runModel session globalInput (numWindows globalWindows) with
        | inl e => inl e
        | inr globalPrediction =>
            let averaged := averagePredictions globalPrediction (numWindows globalWindows) in
            let coarseIndex := argmax averaged in
            let finalIndex :=
              if interpolate options then interpolateArgmax averaged coarseIndex
              else inject_Z coarseIndex in
            let bpm0 := classIndexToBpm finalIndex in
            if localTempo options then
              let localWindows := toSlidingWindows mel kWindowFrames kLocalHopFrames true in
              if (0 <? numWindows localWindows) && negb (isEmpty (wdata localWindows)) then
                let localInput := normalizeByMax (wdata localWindows) in
                match runModel session localInput (numWindows localWindows) with
                | inl e => inl e
                | inr localPrediction =>
                    let localTempi :=
                      predictionRowsToBpmSeries localPrediction (numWindows localWindows) in
                    let localTempi := movingAverageSame localTempi kLocalSmoothingWindow in
                    let localTempi :=
                      map (fun bpm => clampDouble bpm kTempoMinBpm kTempoMaxBpm) localTempi in
                    let hopSeconds := (inject_Z kLocalHopFrames * kFeatureFrameSeconds)%Q in
                    inr {| tempoBpm := bpm0;
                           tempoMap := compressTempoPoints localTempi hopSeconds |}
                end
              else inr {| tempoBpm := bpm0; tempoMap := [] |}
            else inr {| tempoBpm := bpm0; tempoMap := [] |}
        end.

End Tempo.

(** ** Note transcription (neuralnote_core) *)
Module NeuralNote.

Local Open Scope Z_scope.

(** Modelled from the spec: BasicPitchConstants.h is not among the sources;
    the data model gives 8 harmonics, 264 contour bins and 88 note bins. *)
Definition NUM_HARMONICS : nat := 8.
Definition NUM_FREQ_IN : nat := 264.
Definition NUM_FREQ_OUT : nat := 88.

(** *** Utils.h: the diagnostic channel *)

Definition tolower (c : ascii) : ascii :=
  let n := nat_of_ascii c in
  if ((65 <=? n) && (n <=? 90))%nat then ascii_of_nat (n + 32) else c.

Definition lowercase (s : string) : string :=
  string_of_list_ascii (map tolower (list_ascii_of_string s)).

Definition isTruthy (normalized : string) : bool :=
  String.eqb normalized "1" || String.eqb normalized "true"
  || String.eqb normalized "yes" || String.eqb normalized "on".

(** [value] is the result of [std::getenv]; [None] is the null pointer. *)
Definition envFlagEnabled (value : option string) : bool :=
  match value with
  | None => false
  | Some v => isTruthy (lowercase v)
  end.

Definition escapeJsonString (value : string) : string :=
  string_of_list_ascii
    (flat_map
       (fun c =>
          let n := nat_of_ascii c in
          if (n =? 92)%nat then ["\"; "\"]%char
          else if (n =? 34)%nat then ["\"; ascii_of_nat 34]%char
          else if (n =? 10)%nat then ["\"; "n"]%char
          else if (n =? 13)%nat then ["\"; "r"]%char
          else if (n =? 9)%nat then ["\"; "t"]%char
          else if (n <? 32)%nat then []
          else [c])
       (list_ascii_of_string value)).

(** A line written to [std::cout]: a diagnostic object or a progress object. *)
Inductive OutLine :=
| DiagLine (component event : string) (elapsedMs : Z)
           (detail : option string) (progress : option Q)
| ProgressLine (stage : string) (progress : Q).

Definition isDiag (l : OutLine) : bool :=
  match l with DiagLine _ _ _ _ _ => true | ProgressLine _ _ => false end.

(** Notes.h is not among the sources: [Event] has the fields that
    [toCoreEvents] reads and [ConvertParams] those that [setParameters]
    writes. *)
Module Notes.
Record Event := { startTime : Q; endTime : Q; pitch : Z; amplitude : Q }.

Inductive PitchBendModes := NoPitchBend | SinglePitchBend | MultiPitchBend.

Record ConvertParams := {
  frameThreshold : Q;
  onsetThreshold : Q;
  minNoteLength : Z;
  pitchBend : PitchBendModes;
  melodiaTrick : bool;
  inferOnsets : bool;
  minFrequency : Q;
  maxFrequency : Q;
  energyThreshold : Z
}.
End Notes.

(** TranscriptionIO.h: the serialized note events. *)
Record CoreNoteEvent := {
  startTimeSeconds : Q;
  durationSeconds : Q;
  pitchMidi : Z;
  amplitude : Q
}.

(** TranscriptionIO.cpp *)
Definition toCoreEvents (events : list Notes.Event) : list CoreNoteEvent :=
  fold_left
    (fun out event =>
       out ++ [{| startTimeSeconds := Notes.startTime event;
                  durationSeconds :=
                    Tempo.std_max 0 (Notes.endTime event - Notes.startTime event);
                  pitchMidi := Notes.pitch event;
                  amplitude := Notes.amplitude event |}])
    events [].

(** The two JSON documents the writers produce, before number formatting. *)
Inductive JsonDoc :=
| EventsDoc (events : list CoreNoteEvent)
| CombinedDoc (events : list CoreNoteEvent) (tempo : Tempo.TempoEstimateResult).

(** What a process run leaves behind.  [now] counts the reads of the
    steady clock, [kStartedAt] is the function-local static of
    [processStartMs]. *)
Record World := {
  stdout : list OutLine;
  stderr : list string;
  written : list (string * JsonDoc);
  now : nat;
  kStartedAt : option Z
}.

(** [runtime_error] is the only exception the sources throw;
    [out_of_range_access] marks an access outside a vector or buffer, which
    is undefined behaviour in C++ and is kept as a failure of its own. *)
Inductive exn :=
| runtime_error (what : string)
| out_of_range_access.

Definition M (A : Type) : Type := World -> (exn + A) * World.

#[export] Instance M_ret : MRet M := fun A a w => (inr a, w).
#[export] Instance M_bind : MBind M := fun A B k m w =>
  match m w with
  | (inr a, w') => k a w'
  | (inl e, w') => (inl e, w')
  end.

Definition throw {A} (e : exn) : M A := fun w => (inl e, w).
Definition lift {A} (r : exn + A) : M A := fun w => (r, w).

Definition print (l : OutLine) : M unit := fun w =>
  (inr tt, {| stdout := stdout w ++ [l]; stderr := stderr w; written := written w;
              now := now w; kStartedAt := kStartedAt w |}).

Definition cerr (msg : string) : M unit := fun w =>
  (inr tt, {| stdout := stdout w; stderr := stderr w ++ [msg]; written := written w;
              now := now w; kStartedAt := kStartedAt w |}).

Definition writeFile (path : string) (doc : JsonDoc) : M unit := fun w =>
  (inr tt, {| stdout := stdout w; stderr := stderr w;
              written := written w ++ [(path, doc)];
              now := now w; kStartedAt := kStartedAt w |}).

(** [try { body } catch (const std::exception& e) { handler(e.what()) }]. *)
Definition try_catch {A} (body : M A) (handler : string -> M A) : M A := fun w =>
  match body w with
  | (inl (runtime_error what), w') => handler what w'
  | r => r
  end.

(** [for (i in idxs) st = body(i, st)]. *)
Fixpoint forLoop {St} (idxs : list Z) (body : Z -> St -> M St) (st : St) : M St :=
  match idxs with
  | [] => mret st
  | i :: rest => st' ← body i st; forLoop rest body st'
  end.

Section Diag.
(** [clock n] is what the [n]-th read of [steady_clock] returns, in ms;
    [diagEnv] is the value of GH_NEURALNOTE_CPP_DIAG. *)
Variable clock : nat -> Z.
Variable diagEnv : option string.

Definition enabled : bool := envFlagEnabled diagEnv.

Definition monotonicMs : M Z := fun w =>
  (inr (clock (now w)),
   {| stdout := stdout w; stderr := stderr w; written := written w;
      now := S (now w); kStartedAt := kStartedAt w |}).

Definition processStartMs : M Z := fun w =>
  match kStartedAt w with
  | Some t => (inr t, w)
  | None =>
      (inr (clock (now w)),
       {| stdout := stdout w; stderr := stderr w; written := written w;
          now := S (now w); kStartedAt := Some (clock (now w)) |})
  end.

(** [progress] is [None] for the default argument -1.0. *)
Definition emit (component event detail : string) (progress : option Q) : M unit :=
  if negb enabled then mret tt
  else
    t ← monotonicMs;
    t0 ← processStartMs;
    print (DiagLine (escapeJsonString component) (escapeJsonString event) (t - t0)
             (if String.eqb detail EmptyString then None else Some (escapeJsonString detail))
             (match progress with
              | Some p => if Qle_bool 0 p then Some p else None
              | None => None
              end)).
End Diag.

(** *** BasicPitchCNN.cpp: the four sub-networks and their delay lines *)

Section Pipeline.
(** [F] is [float] and [zero] is [0.0f]. *)
Context {F : Type} (zero : F).

(** A [const float*]: the element found at each offset. *)
Definition Ptr := nat -> F.

(** [a.data()] and [a.data() + off]. *)
Definition data_ptr (a : list F) : Ptr := fun i => nth i a zero.
Definition ptr_add (p : Ptr) (off : nat) : Ptr := fun i => p (off + i)%nat.

(** The range [[p, p + n)]. *)
Definition range (p : Ptr) (n : nat) : list F := map p (seq 0 n).

(** [std::copy(src.begin(), src.end(), dst.begin() + pos)]. *)
Definition copy_at (dst : list F) (pos : nat) (src : list F) : list F :=
  take pos dst ++ src ++ drop (pos + length src) dst.

(** One JSON-described sub-network (an RTNeural model): [forward] runs one
    frame and updates the model's internal state, [getOutputs] points at the
    outputs of the last [forward]. *)
Record Net (NetState : Type) := {
  forward : NetState -> Ptr -> NetState;
  getOutputs : NetState -> Ptr;
  resetNet : NetState -> NetState
}.
Arguments forward {NetState}.
Arguments getOutputs {NetState}.
Arguments resetNet {NetState}.

Context {NetState : Type}.
Variables contourNet noteNet onsetInputNet onsetOutputNet : Net NetState.

(** The depths of the three delay lines and the total lookahead are
    constants of BasicPitchCNN.h, which is not among the sources. *)
Variables mNumContourStored mNumNoteStored mNumConcat2Stored : Z.

Record BasicPitchCNN := {
  mContoursCircularBuffer : list (list F);
  mNotesCircularBuffer : list (list F);
  mConcat2CircularBuffer : list (list F);
  mContourIdx : Z;
  mNoteIdx : Z;
  mConcat2Idx : Z;
  mInputArray : list F;
  mConcatArray : list F;
  mCNNContour : NetState;
  mCNNNote : NetState;
  mCNNOnsetInput : NetState;
  mCNNOnsetOutput : NetState
}.

Definition reset (cnn : BasicPitchCNN) : BasicPitchCNN :=
  {| mContoursCircularBuffer :=
       replicate (Z.to_nat mNumContourStored) (replicate NUM_FREQ_IN zero);
     mNotesCircularBuffer :=
       replicate (Z.to_nat mNumNoteStored) (replicate NUM_FREQ_OUT zero);
     mConcat2CircularBuffer :=
       replicate (Z.to_nat mNumConcat2Stored) (replicate (32 * NUM_FREQ_OUT) zero);
     mCNNContour := resetNet contourNet (mCNNContour cnn);
     mCNNNote := resetNet noteNet (mCNNNote cnn);
     mCNNOnsetInput := resetNet onsetInputNet (mCNNOnsetInput cnn);
     mCNNOnsetOutput := resetNet onsetOutputNet (mCNNOnsetOutput cnn);
     mNoteIdx := 0;
     mContourIdx := 0;
     mConcat2Idx := 0;
     mInputArray := replicate (NUM_HARMONICS * NUM_FREQ_IN) zero;
     mConcatArray := mConcatArray cnn |}.

Definition _wrapIndex (inIndex inSize : Z) : Z :=
  let wrappedIndex := Z.rem inIndex inSize in
  if wrappedIndex <? 0 then wrappedIndex + inSize else wrappedIndex.

(** [buffer[(size_t) _wrapIndex(head + 1, depth)]]: the slot one position
    ahead of the head. *)
Definition slotAhead (buffer : list (list F)) (head depth : Z) : list F :=
  buffer !!! Z.to_nat (_wrapIndex (head + 1) depth).

(** [head = (head == depth - 1) ? 0 : head + 1]. *)
Definition advance (head depth : Z) : Z :=
  if head =? depth - 1 then 0 else head + 1.

(** [_concat], given the note outputs and the concat2 delay line. *)
Definition _concat (noteOutputs : Ptr) (concat2Buffer : list (list F))
    (concat2Idx : Z) (concatArray : list F) : list F :=
  let delayed := slotAhead concat2Buffer concat2Idx mNumConcat2Stored in
  fold_left
    (fun arr i =>
       copy_at (<[(i * 33)%nat := noteOutputs i]> arr) (i * 33 + 1)%nat
               (take 32 (drop (i * 32)%nat delayed)))
    (seq 0 NUM_FREQ_OUT) concatArray.

Definition _runModels (cnn : BasicPitchCNN) : BasicPitchCNN :=
  let input := data_ptr (mInputArray cnn) in
  let onsetInput := forward onsetInputNet (mCNNOnsetInput cnn) input in
  let concat2 :=
    <[Z.to_nat (mConcat2Idx cnn) :=
        range (getOutputs onsetInputNet onsetInput) (32 * NUM_FREQ_OUT)]>
      (mConcat2CircularBuffer cnn) in
  let contour := forward contourNet (mCNNContour cnn) input in
  let contours :=
    <[Z.to_nat (mContourIdx cnn) := range (getOutputs contourNet contour) NUM_FREQ_IN]>
      (mContoursCircularBuffer cnn) in
  let note := forward noteNet (mCNNNote cnn) (getOutputs contourNet contour) in
  let notes :=
    <[Z.to_nat (mNoteIdx cnn) := range (getOutputs noteNet note) NUM_FREQ_OUT]>
      (mNotesCircularBuffer cnn) in
  let concatArray :=
    _concat (getOutputs noteNet note) concat2 (mConcat2Idx cnn) (mConcatArray cnn) in
  let onsetOutput :=
    forward onsetOutputNet (mCNNOnsetOutput cnn) (data_ptr concatArray) in
  {| mContoursCircularBuffer := contours;
     mNotesCircularBuffer := notes;
     mConcat2CircularBuffer := concat2;
     mContourIdx := mContourIdx cnn;
     mNoteIdx := mNoteIdx cnn;
     mConcat2Idx := mConcat2Idx cnn;
     mInputArray := mInputArray cnn;
     mConcatArray := concatArray;
     mCNNContour := contour;
     mCNNNote := note;
     mCNNOnsetInput := onsetInput;
     mCNNOnsetOutput := onsetOutput |}.

(** The three output rows of one frame. *)
Record Rows := { outContours : list F; outNotes : list F; outOnsets : list F }.

(** [std::copy(inData, inData + NUM_HARMONICS * NUM_FREQ_IN, mInputArray.begin())]. *)
Definition loadInput (cnn : BasicPitchCNN) (inData : Ptr) : BasicPitchCNN :=
  {| mContoursCircularBuffer := mContoursCircularBuffer cnn;
     mNotesCircularBuffer := mNotesCircularBuffer cnn;
     mConcat2CircularBuffer := mConcat2CircularBuffer cnn;
     mContourIdx := mContourIdx cnn;
     mNoteIdx := mNoteIdx cnn;
     mConcat2Idx := mConcat2Idx cnn;
     mInputArray := range inData (NUM_HARMONICS * NUM_FREQ_IN);
     mConcatArray := mConcatArray cnn;
     mCNNContour := mCNNContour cnn;
     mCNNNote := mCNNNote cnn;
     mCNNOnsetInput := mCNNOnsetInput cnn;
     mCNNOnsetOutput := mCNNOnsetOutput cnn |}.

(** The three head updates that end [frameInference]. *)
Definition advanceHeads (cnn : BasicPitchCNN) : BasicPitchCNN :=
  {| mContoursCircularBuffer := mContoursCircularBuffer cnn;
     mNotesCircularBuffer := mNotesCircularBuffer cnn;
     mConcat2CircularBuffer := mConcat2CircularBuffer cnn;
     mContourIdx := advance (mContourIdx cnn) mNumContourStored;
     mNoteIdx := advance (mNoteIdx cnn) mNumNoteStored;
     mConcat2Idx := advance (mConcat2Idx cnn) mNumConcat2Stored;
     mInputArray := mInputArray cnn;
     mConcatArray := mConcatArray cnn;
     mCNNContour := mCNNContour cnn;
     mCNNNote := mCNNNote cnn;
     mCNNOnsetInput := mCNNOnsetInput cnn;
     mCNNOnsetOutput := mCNNOnsetOutput cnn |}.

Definition frameInference (cnn : BasicPitchCNN) (inData : Ptr) (out : Rows)
  : exn + BasicPitchCNN * Rows :=
  if negb (bool_decide (length (outContours out) = NUM_FREQ_IN)
           && bool_decide (length (outNotes out) = NUM_FREQ_OUT)
           && bool_decide (length (outOnsets out) = NUM_FREQ_OUT))
  then inl (runtime_error "Invalid output buffer size in frameInference")
  else
    let cnn1 := _runModels (loadInput cnn inData) in
    let onsets :=
      copy_at (outOnsets out) 0
        (range (getOutputs onsetOutputNet (mCNNOnsetOutput cnn1)) NUM_FREQ_OUT) in
    let notes :=
      copy_at (outNotes out) 0
        (slotAhead (mNotesCircularBuffer cnn1) (mNoteIdx cnn1) mNumNoteStored) in
    let contours :=
      copy_at (outContours out) 0
        (slotAhead (mContoursCircularBuffer cnn1) (mContourIdx cnn1) mNumContourStored) in
    inr (advanceHeads cnn1,
         {| outContours := contours; outNotes := notes; outOnsets := onsets |}).

(** *** NNFeatures.cpp *)

Record Tensor := { shape : list Z; tdata : list F }.

(** The ONNX features session is an external collaborator: it throws or
    returns its output tensor. *)
Variable featuresSession : list F -> exn + Tensor.

Variable clock : nat -> Z.
Variable diagEnv : option string.
Local Abbreviation emit := (emit clock diagEnv).
Local Abbreviation monotonicMs := (monotonicMs clock).

(** Returns the data pointer and [outNumFrames]. *)
Definition computeFeatures (inAudio : list F) : M (list F * Z) :=
  emit "features" "compute_start"
       ("samples=" +:+ pretty (Z.of_nat (length inAudio))) (Some (48 # 100));;
  emit "features" "session_run_start" EmptyString (Some (5 # 10));;
  output ← lift (featuresSession inAudio);
  emit "features" "session_run_done" EmptyString (Some (62 # 100));;
  match shape output with
  | [d0; d1; d2; d3] =>
      if (d0 =? 1) && (d2 =? Z.of_nat NUM_FREQ_IN) && (d3 =? Z.of_nat NUM_HARMONICS)
      then
        emit "features" "shape_validated" ("frames=" +:+ pretty d1) (Some (64 # 100));;
        mret (tdata output, d1)
      else throw (runtime_error "Unexpected ONNX features output shape")
  | _ => throw (runtime_error "Unexpected ONNX features output shape")
  end.

(** *** BasicPitch.cpp *)

(** [convert] stands for [Notes::convert] (Notes.cpp is not among the
    sources). *)
Variable convert :
  list (list F) -> list (list F) -> list (list F) -> Notes.ConvertParams -> bool
  -> list Notes.Event.

(** Constants of BasicPitchConstants.h and BasicPitchCNN.h. *)
Variables FFT_HOP BASIC_PITCH_SAMPLE_RATE : Q.
Variable mTotalLookahead : Z.

Record BasicPitch := {
  mContoursPG : list (list F);
  mNotesPG : list (list F);
  mOnsetsPG : list (list F);
  mNoteEvents : list Notes.Event;
  mParams : Notes.ConvertParams;
  mNumFrames : Z;
  mBasicPitchCNN : BasicPitchCNN
}.

Definition computeHeartbeatEvery (totalFrames : Z) : Z :=
  if totalFrames <=? 120 then 8
  else if totalFrames <=? 600 then 20
  else Z.max 30 (totalFrames / 24).

Definition emitFrameHeartbeat (event : string) (frameIdx totalFrames : Z)
    (progressStart progressSpan : Q) : M unit :=
  if negb (enabled diagEnv) then mret tt
  else
    let ratio :=
      if totalFrames =? 0 then 1%Q else (inject_Z frameIdx / inject_Z totalFrames)%Q in
    let progress :=
      Tempo.std_min (88 # 100)
        (progressStart + progressSpan * Tempo.std_max 0 (Tempo.std_min 1 ratio))%Q in
    emit "basic_pitch" event
         ("frame=" +:+ pretty frameIdx +:+ "/" +:+ pretty totalFrames) (Some progress).

Definition resetBasicPitch (bp : BasicPitch) : BasicPitch :=
  {| mContoursPG := []; mNotesPG := []; mOnsetsPG := []; mNoteEvents := [];
     mParams := mParams bp; mNumFrames := 0;
     mBasicPitchCNN := reset (mBasicPitchCNN bp) |}.

Definition setParameters (bp : BasicPitch)
    (inNoteSensitivity inSplitSensitivity inMinNoteDurationMs : Q)
    (inMelodiaTrick : bool) (inMinPitchHz inMaxPitchHz : Q) (inEnergyTolerance : Z)
  : BasicPitch :=
  {| mContoursPG := mContoursPG bp; mNotesPG := mNotesPG bp; mOnsetsPG := mOnsetsPG bp;
     mNoteEvents := mNoteEvents bp;
     mParams :=
       {| Notes.frameThreshold := 1 - inNoteSensitivity;
          Notes.onsetThreshold := 1 - inSplitSensitivity;
          Notes.minNoteLength :=
            Tempo.std_round
              (inMinNoteDurationMs / 1000 / (FFT_HOP / BASIC_PITCH_SAMPLE_RATE));
          Notes.pitchBend := Notes.MultiPitchBend;
          Notes.melodiaTrick := inMelodiaTrick;
          Notes.inferOnsets := true;
          Notes.minFrequency := if Tempo.Qltb 0 inMinPitchHz then inMinPitchHz else - (1);
          Notes.maxFrequency := if Tempo.Qltb 0 inMaxPitchHz then inMaxPitchHz else - (1);
          Notes.energyThreshold := Z.max 1 inEnergyTolerance |};
     mNumFrames := mNumFrames bp;
     mBasicPitchCNN := mBasicPitchCNN bp |}.

(** [v.resize(n, fill)]. *)
Definition resize {A} (n : nat) (fill : A) (v : list A) : list A :=
  take n v ++ replicate (n - length v) fill.

(** [a - b] on [size_t]. *)
Definition size_sub (a b : Z) : Z := (a - b) mod 2 ^ 64.

(** [stackedCqt + frameIdx * NUM_HARMONICS * NUM_FREQ_IN]; the buffer holds
    [numFrames] frames. *)
Definition framePtr (stackedCqt : list F) (numFrames frameIdx : Z) : exn + Ptr :=
  if (0 <=? frameIdx) && (frameIdx <? numFrames)
  then inr (ptr_add (data_ptr stackedCqt)
              (Z.to_nat frameIdx * NUM_HARMONICS * NUM_FREQ_IN))
  else inl out_of_range_access.

(** [mBasicPitchCNN.frameInference(inData, mContoursPG[row], mNotesPG[row],
    mOnsetsPG[row])]. *)
Definition inferRow (bp : BasicPitch) (inData : Ptr) (row : Z) : exn + BasicPitch :=
  if negb (0 <=? row) then inl out_of_range_access
  else
    match mContoursPG bp !! Z.to_nat row, mNotesPG bp !! Z.to_nat row,
          mOnsetsPG bp !! Z.to_nat row with
    | Some c, Some n, Some o =>
        match frameInference (mBasicPitchCNN bp) inData
                {| outContours := c; outNotes := n; outOnsets := o |} with
        | inl e => inl e
        | inr (cnn, out) =>
            inr {| mContoursPG := <[Z.to_nat row := outContours out]> (mContoursPG bp);
                   mNotesPG := <[Z.to_nat row := outNotes out]> (mNotesPG bp);
                   mOnsetsPG := <[Z.to_nat row := outOnsets out]> (mOnsetsPG bp);
                   mNoteEvents := mNoteEvents bp;
                   mParams := mParams bp;
                   mNumFrames := mNumFrames bp;
                   mBasicPitchCNN := cnn |}
        end
    | _, _, _ => inl out_of_range_access
    end.

Definition zeroStackedCqt : list F := replicate (NUM_HARMONICS * NUM_FREQ_IN) zero.

Definition whenb (b : bool) (m : M unit) : M unit := if b then m else mret tt.

Definition transcribeToMIDI (bp : BasicPitch) (inAudio : list F) : M BasicPitch :=
  emit "basic_pitch" "transcribe_start"
       ("samples=" +:+ pretty (Z.of_nat (length inAudio))) (Some (46 # 100));;
  transcribeStartMs ← monotonicMs;
  emit "basic_pitch" "features_start" EmptyString (Some (48 # 100));;
  '(stackedCqt, numFrames) ← computeFeatures inAudio;
  now1 ← monotonicMs;
  emit "basic_pitch" "features_done"
       ("frames=" +:+ pretty numFrames +:+ " featuresMs="
        +:+ pretty (now1 - transcribeStartMs)) (Some (64 # 100));;
  emit "basic_pitch" "buffers_resize_start" EmptyString (Some (66 # 100));;
  let bp :=
    {| mOnsetsPG :=
         resize (Z.to_nat numFrames) (replicate NUM_FREQ_OUT zero) (mOnsetsPG bp);
       mNotesPG :=
         resize (Z.to_nat numFrames) (replicate NUM_FREQ_OUT zero) (mNotesPG bp);
       mContoursPG :=
         resize (Z.to_nat numFrames) (replicate NUM_FREQ_IN zero) (mContoursPG bp);
       mNoteEvents := mNoteEvents bp;
       mParams := mParams bp;
       mNumFrames := numFrames;
       mBasicPitchCNN := reset (mBasicPitchCNN bp) |} in
  emit "basic_pitch" "buffers_resize_done" EmptyString (Some (68 # 100));;
  emit "basic_pitch" "cnn_reset_done" EmptyString (Some (69 # 100));;
  let numLhFrames := mTotalLookahead in
  let heartbeatEvery := computeHeartbeatEvery numFrames in
  emit "basic_pitch" "inference_setup"
       ("lookaheadFrames=" +:+ pretty numLhFrames +:+ " heartbeatEvery="
        +:+ pretty heartbeatEvery) (Some (7 # 10));;
  emit "basic_pitch" "warmup_zero_start" EmptyString (Some (705 # 1000));;
  bp ← forLoop (seqZ 0 numLhFrames)
       (fun i bp =>
          let beat := (i =? 0) || (i + 1 =? numLhFrames) in
          whenb beat (emitFrameHeartbeat "warmup_zero_pre" (i + 1) numLhFrames
                        (705 # 1000) (1 # 100));;
          bp ← lift (inferRow bp (data_ptr zeroStackedCqt) 0);
          whenb beat (emitFrameHeartbeat "warmup_zero_post" (i + 1) numLhFrames
                        (705 # 1000) (1 # 100));;
          mret bp) bp;
  emit "basic_pitch" "warmup_zero_done" EmptyString (Some (715 # 1000));;
  emit "basic_pitch" "warmup_cqt_start" EmptyString (Some (72 # 100));;
  bp ← forLoop (seqZ 0 numLhFrames)
       (fun frameIdx bp =>
          let beat := (frameIdx =? 0) || (frameIdx + 1 =? numLhFrames) in
          whenb beat (emitFrameHeartbeat "warmup_cqt_pre" (frameIdx + 1) numLhFrames
                        (72 # 100) (1 # 100));;
          inData ← lift (framePtr stackedCqt numFrames frameIdx);
          bp ← lift (inferRow bp inData 0);
          whenb beat (emitFrameHeartbeat "warmup_cqt_post" (frameIdx + 1) numLhFrames
                        (72 # 100) (1 # 100));;
          mret bp) bp;
  emit "basic_pitch" "warmup_cqt_done" EmptyString (Some (73 # 100));;
  emit "basic_pitch" "stream_inference_start" EmptyString (Some (735 # 1000));;
  bp ← forLoop (seqZ numLhFrames (numFrames - numLhFrames))
       (fun frameIdx bp =>
          let processed := frameIdx - numLhFrames + 1 in
          let total := if numLhFrames <? numFrames then numFrames - numLhFrames else 0 in
          let emitHeartbeat :=
            (processed =? 1) || (processed =? total)
            || ((0 <? heartbeatEvery) && (processed mod heartbeatEvery =? 0)) in
          whenb emitHeartbeat
            (emitFrameHeartbeat "stream_inference_pre" processed total
               (735 # 1000) (11 # 100));;
          inData ← lift (framePtr stackedCqt numFrames frameIdx);
          bp ← lift (inferRow bp inData (size_sub frameIdx numLhFrames));
          whenb emitHeartbeat
            (emitFrameHeartbeat "stream_inference_post" processed total
               (735 # 1000) (11 # 100));;
          mret bp) bp;
  emit "basic_pitch" "stream_inference_done" EmptyString (Some (845 # 1000));;
  emit "basic_pitch" "tail_flush_start" EmptyString (Some (85 # 100));;
  bp ← forLoop (seqZ numFrames numLhFrames)
       (fun frameIdx bp =>
          let processed := frameIdx - numFrames + 1 in
          let beat := (processed =? 1) || (processed =? numLhFrames) in
          whenb beat (emitFrameHeartbeat "tail_flush_pre" processed numLhFrames
                        (85 # 100) (1 # 100));;
          bp ← lift (inferRow bp (data_ptr zeroStackedCqt)
                       (size_sub frameIdx numLhFrames));
          whenb beat (emitFrameHeartbeat "tail_flush_post" processed numLhFrames
                        (85 # 100) (1 # 100));;
          mret bp) bp;
  emit "basic_pitch" "tail_flush_done" EmptyString (Some (86 # 100));;
  emit "basic_pitch" "notes_convert_start" EmptyString (Some (87 # 100));;
  let events := convert (mNotesPG bp) (mOnsetsPG bp) (mContoursPG bp) (mParams bp) true in
  let bp :=
    {| mContoursPG := mContoursPG bp; mNotesPG := mNotesPG bp; mOnsetsPG := mOnsetsPG bp;
       mNoteEvents := events; mParams := mParams bp; mNumFrames := mNumFrames bp;
       mBasicPitchCNN := mBasicPitchCNN bp |} in
  now2 ← monotonicMs;
  emit "basic_pitch" "notes_convert_done"
       ("events=" +:+ pretty (Z.of_nat (length events)) +:+ " totalMs="
        +:+ pretty (now2 - transcribeStartMs)) (Some (9 # 10));;
  mret bp.
(** *** NeuralNoteTranscriber.cpp *)

Record NeuralNoteBalancedPreset := {
  noteSensitivity : Q;
  splitSensitivity : Q;
  minNoteDurationMs : Q;
  presetMelodiaTrick : bool;
  minPitchHz : Q;
  maxPitchHz : Q;
  energyTolerance : Z
}.

Definition defaultPreset : NeuralNoteBalancedPreset :=
  {| noteSensitivity := 645 # 1000;
     splitSensitivity := 69 # 100;
     minNoteDurationMs := 24;
     presetMelodiaTrick := false;
     minPitchHz := 1;
     maxPitchHz := 3000;
     energyTolerance := 11 |}.

(** The constructors load the model files: they throw or give the object. *)
Variable loadBasicPitch : string -> exn + BasicPitch.

Definition newTranscriber (modelDir : string) : M BasicPitch :=
  bp ← lift (loadBasicPitch modelDir);
  emit "transcriber" "constructed" modelDir None;;
  mret bp.

Definition transcribe (mBasicPitch : BasicPitch) (audio22050Mono : list F)
    (preset : NeuralNoteBalancedPreset) : M (BasicPitch * list Notes.Event) :=
  if Tempo.isEmpty audio22050Mono then throw (runtime_error "Input audio is empty")
  else
    let localBuffer := audio22050Mono in
    emit "transcriber" "reset_start"
         ("samples=" +:+ pretty (Z.of_nat (length localBuffer))) None;;
    let bp := resetBasicPitch mBasicPitch in
    emit "transcriber" "set_params_start" EmptyString None;;
    let bp :=
      setParameters bp (noteSensitivity preset) (splitSensitivity preset)
        (minNoteDurationMs preset) (presetMelodiaTrick preset) (minPitchHz preset)
        (maxPitchHz preset) (energyTolerance preset) in
    emit "transcriber" "set_params_done" EmptyString None;;
    emit "transcriber" "basic_pitch_transcribe_start" EmptyString None;;
    bp ← transcribeToMIDI bp localBuffer;
    emit "transcriber" "basic_pitch_transcribe_done" EmptyString (Some (9 # 10));;
    let events := mNoteEvents bp in
    emit "transcriber" "events_ready"
         ("events=" +:+ pretty (Z.of_nat (length events))) (Some (95 # 100));;
    mret (bp, events).

(** *** TranscriptionIO.cpp: files *)

(** The file system at the start of the run; [decodeFloat32Le bytes i] is the
    [i]-th little-endian float of [bytes].  [readGood], [canOpenOutput] and
    [writeGood] are the stream states the sources test. *)
Variable files : string -> option (list Byte.byte).
Variable decodeFloat32Le : list Byte.byte -> nat -> F.
Variable readGood : string -> bool.
Variable canOpenOutput : string -> bool.
Variable writeGood : string -> bool.

(** [inl] carries [outError] of a [false] return. *)
Definition readFloat32LeFile (path : string) : string + list F :=
  match files path with
  | None => inl ("Could not open PCM file: " +:+ path)
  | Some bytes =>
      let size := Z.of_nat (length bytes) in
      if (size <=? 0) || negb (Z.rem size 4 =? 0) then inl "PCM file has invalid size"
      else
        let outSamples := range (decodeFloat32Le bytes) (Z.to_nat (Z.quot size 4)) in
        if negb (readGood path) then inl "Failed reading PCM file"
        else inr outSamples
  end.

Definition writeJson (path : string) (doc : JsonDoc) : M (option string) :=
  if negb (canOpenOutput path) then mret (Some ("Could not open output JSON path: " +:+ path))
  else
    writeFile path doc;;
    if negb (writeGood path) then mret (Some "Failed writing JSON output")
    else mret None.

Definition writeCoreEventsJson (path : string) (events : list CoreNoteEvent)
  : M (option string) := writeJson path (EventsDoc events).

(** *** cli/main.cpp *)

Fixpoint parseArgs (tokens : list string) (args : gmap string string)
  : gmap string string :=
  match tokens with
  | [] => args
  | token :: rest =>
      match rest with
      | value :: rest' =>
          if String.prefix "--" token then parseArgs rest' (<[token := value]> args)
          else parseArgs rest args
      | [] => args
      end
  end.

Definition printProgress (stage : string) (progress : Q) : M unit :=
  print (ProgressLine stage progress).

(** [std::stod] and [std::stoi]: [None] when they throw (or, for [stod], when
    the value is not finite). *)
Variable stod : string -> option Q.
Variable stoi : string -> option Z.

Definition parseDoubleArg (args : gmap string string) (key : string) (outValue : Q)
  : string + Q :=
  match args !! key with
  | None => inr outValue
  | Some text =>
      match stod text with
      | Some parsed => inr parsed
      | None => inl ("Invalid numeric value for " +:+ key)
      end
  end.

Definition parseIntArg (args : gmap string string) (key : string) (outValue : Z)
  : string + Z :=
  match args !! key with
  | None => inr outValue
  | Some text =>
      match stoi text with
      | Some parsed => inr parsed
      | None => inl ("Invalid integer value for " +:+ key)
      end
  end.

Definition parseBoolArg (args : gmap string string) (key : string) (outValue : bool)
  : string + bool :=
  match args !! key with
  | None => inr outValue
  | Some text =>
      let normalized := lowercase text in
      if isTruthy normalized then inr true
      else if String.eqb normalized "0" || String.eqb normalized "false"
              || String.eqb normalized "no" || String.eqb normalized "off"
      then inr false
      else inl ("Invalid boolean value for " +:+ key +:+ " (expected 0/1/true/false)")
  end.

(** Lines 130-219: the overrides of the balanced preset and their range
    checks; [inl] carries the message printed before [return 1]. *)
Definition parsePreset (args : gmap string string) : string + NeuralNoteBalancedPreset :=
  let p := defaultPreset in
  match parseDoubleArg args "--note-sensitivity" (noteSensitivity p) with
  | inl e => inl e
  | inr ns =>
  match parseDoubleArg args "--split-sensitivity" (splitSensitivity p) with
  | inl e => inl e
  | inr ss =>
  match parseDoubleArg args "--min-note-ms" (minNoteDurationMs p) with
  | inl e => inl e
  | inr ms =>
  match parseBoolArg args "--melodia-trick" (presetMelodiaTrick p) with
  | inl e => inl e
  | inr mt =>
  match parseDoubleArg args "--min-pitch-hz" (minPitchHz p) with
  | inl e => inl e
  | inr lo =>
  match parseDoubleArg args "--max-pitch-hz" (maxPitchHz p) with
  | inl e => inl e
  | inr hi =>
  match parseIntArg args "--energy-tolerance" (energyTolerance p) with
  | inl e => inl e
  | inr tol =>
      if Tempo.Qltb ns 0 || Tempo.Qltb 1 ns then inl "--note-sensitivity must be in [0,1]"
      else if Tempo.Qltb ss 0 || Tempo.Qltb 1 ss
      then inl "--split-sensitivity must be in [0,1]"
      else if Qle_bool ms 0 then inl "--min-note-ms must be > 0"
      else if Tempo.Qltb lo 0 then inl "--min-pitch-hz must be >= 0"
      else if Tempo.Qltb hi 0 then inl "--max-pitch-hz must be >= 0"
      else if Tempo.Qltb 0 hi && Tempo.Qltb 0 lo && Tempo.Qltb hi lo
      then inl "--max-pitch-hz must be >= --min-pitch-hz"
      else if tol <? 1 then inl "--energy-tolerance must be >= 1"
      else inr {| noteSensitivity := ns; splitSensitivity := ss;
                  minNoteDurationMs := ms; presetMelodiaTrick := mt;
                  minPitchHz := lo; maxPitchHz := hi; energyTolerance := tol |}
  end end end end end end end.

(** The text of the preset in the [preset_values] diagnostic. *)
Variable showQ : Q -> string.

Definition presetDetail (p : NeuralNoteBalancedPreset) : string :=
  "noteSensitivity=" +:+ showQ (noteSensitivity p)
  +:+ " splitSensitivity=" +:+ showQ (splitSensitivity p)
  +:+ " minNoteMs=" +:+ showQ (minNoteDurationMs p)
  +:+ " melodiaTrick=" +:+ (if presetMelodiaTrick p then "1" else "0")
  +:+ " minPitchHz=" +:+ showQ (minPitchHz p)
  +:+ " maxPitchHz=" +:+ showQ (maxPitchHz p)
  +:+ " energyTolerance=" +:+ pretty (energyTolerance p).

Definition usage : string :=
  "Usage: nn_transcriber_cli --input-f32le <audio.f32> --output-json <events.json> --model-dir <modeldir> [--preset balanced]".

(** [argv] holds [argv[1]] onwards; the result is the exit code. *)
Definition main (argv : list string) : M Z :=
  emit "cli" "start" EmptyString None;;
  let args := parseArgs argv ∅ in
  emit "cli" "args_parsed" ("argc=" +:+ pretty (Z.of_nat (S (length argv)))) None;;
  match args !! "--input-f32le", args !! "--output-json", args !! "--model-dir" with
  | Some inputPath, Some outputPath, Some modelDir =>
      let preset := default "balanced" (args !! "--preset") in
      if negb (String.eqb preset "balanced")
      then cerr "Only preset 'balanced' is supported";; mret 1
      else
        match parsePreset args with
        | inl parseError => cerr parseError;; mret 1
        | inr presetValues =>
            emit "cli" "preset_values" (presetDetail presetValues) (Some (2 # 10));;
            try_catch
              (printProgress "Loading audio features..." (12 # 100);;
               emit "cli" "read_input_start" inputPath None;;
               match readFloat32LeFile inputPath with
               | inl ioError => cerr ioError;; mret 1
               | inr inputAudio =>
                   emit "cli" "read_input_done"
                        ("samples=" +:+ pretty (Z.of_nat (length inputAudio)))
                        (Some (12 # 100));;
                   if Tempo.isEmpty inputAudio
                   then cerr "Input audio is empty";; mret 1
                   else
                     printProgress "Running NeuralNote model..." (45 # 100);;
                     emit "cli" "transcriber_create_start" modelDir (Some (45 # 100));;
                     transcriber ← newTranscriber modelDir;
                     emit "cli" "transcriber_create_done" EmptyString (Some (45 # 100));;
                     emit "cli" "transcribe_start" EmptyString (Some (45 # 100));;
                     '(_, events) ← transcribe transcriber inputAudio presetValues;
                     emit "cli" "transcribe_done"
                          ("events=" +:+ pretty (Z.of_nat (length events)))
                          (Some (9 # 10));;
                     if Tempo.isEmpty events
                     then cerr "No notes detected in uploaded audio.";; mret 2
                     else
                       printProgress "Building MIDI events..." (92 # 100);;
                       let coreEvents := toCoreEvents events in
                       emit "cli" "write_output_start"
                            ("core_events=" +:+ pretty (Z.of_nat (length coreEvents)))
                            (Some (94 # 100));;
                       ioError ← writeCoreEventsJson outputPath coreEvents;
                       match ioError with
                       | Some ioError => cerr ioError;; mret 1
                       | None =>
                           emit "cli" "write_output_done" outputPath (Some 1%Q);;
                           printProgress "Conversion complete." 1;;
                           emit "cli" "done" EmptyString (Some 1%Q);;
                           mret 0
                       end
               end)
              (fun what =>
                 emit "cli" "exception" what None;;
                 cerr what;;
                 mret 1)
        end
  | _, _, _ => cerr usage;; mret 1
  end.

(** *** android/app/src/main/cpp/neuralnote_converter_jni.cpp *)

(** The tempo model file: the constructor throws or gives the session;
    [melEnergy] is the mel kernel of [Tempo.computeMelSpectrogram];
    [toDouble] reads a float sample as a number. *)
Variable loadTempoCnn : string -> exn + Tempo.Session.
Variable melEnergy : list Q -> Z -> Q.
Variable toDouble : F -> Q.

Definition liftTempo {A} (r : Tempo.exn + A) : M A :=
  match r with
  | inl (Tempo.runtime_error what) => throw (runtime_error what)
  | inr a => mret a
  end.

(** The status string: [None] is the null [jstring] of a successful run.  The
    arguments are the five paths after [fromJString]. *)
Definition runTranscription (pcm tempoPcm modelDir tempoModelPath outputPath : string)
  : M (option string) :=
  try_catch
    (if String.eqb pcm EmptyString || String.eqb tempoPcm EmptyString
        || String.eqb modelDir EmptyString || String.eqb tempoModelPath EmptyString
        || String.eqb outputPath EmptyString
     then mret (Some "Invalid JNI parameters for transcription.")
     else
       match readFloat32LeFile pcm with
       | inl ioError => mret (Some ioError)
       | inr nnSamples =>
       match readFloat32LeFile tempoPcm with
       | inl ioError => mret (Some ioError)
       | inr tempoSamples =>
           if Tempo.isEmpty nnSamples then mret (Some "Input NeuralNote audio is empty")
           else if Tempo.isEmpty tempoSamples
           then mret (Some "Input Tempo-CNN audio is empty")
           else
             transcriber ← newTranscriber modelDir;
             '(_, nnEvents) ← transcribe transcriber nnSamples defaultPreset;
             let coreEvents := toCoreEvents nnEvents in
             tempoEstimator ← lift (loadTempoCnn tempoModelPath);
             let tempoOptions :=
               {| Tempo.interpolate := true; Tempo.localTempo := true |} in
             tempoEstimate ← liftTempo
               (Tempo.estimate melEnergy tempoEstimator (map toDouble tempoSamples)
                  tempoOptions);
             writeJson outputPath (CombinedDoc coreEvents tempoEstimate)
       end end)
    (fun what => mret (Some what)).

(** *** The same procedures without the diagnostic channel

    These are the reference the procedures above are compared with: the same
    steps, no clock, no output. *)

Definition bindE {A B} (r : exn + A) (k : A -> exn + B) : exn + B :=
  match r with
  | inl e => inl e
  | inr a => k a
  end.

Fixpoint forLoopE {St} (idxs : list Z) (body : Z -> St -> exn + St) (st : St)
  : exn + St :=
  match idxs with
  | [] => inr st
  | i :: rest => bindE (body i st) (forLoopE rest body)
  end.

Definition computeFeaturesCore (inAudio : list F) : exn + list F * Z :=
  bindE (featuresSession inAudio)
    (fun output =>
       match shape output with
       | [d0; d1; d2; d3] =>
           if (d0 =? 1) && (d2 =? Z.of_nat NUM_FREQ_IN) && (d3 =? Z.of_nat NUM_HARMONICS)
           then inr (tdata output, d1)
           else inl (runtime_error "Unexpected ONNX features output shape")
       | _ => inl (runtime_error "Unexpected ONNX features output shape")
       end).

(** The object after [resize] and [reset], before the first frame. *)
Definition prepared (bp : BasicPitch) (numFrames : Z) : BasicPitch :=
  {| mOnsetsPG :=
       resize (Z.to_nat numFrames) (replicate NUM_FREQ_OUT zero) (mOnsetsPG bp);
     mNotesPG :=
       resize (Z.to_nat numFrames) (replicate NUM_FREQ_OUT zero) (mNotesPG bp);
     mContoursPG :=
       resize (Z.to_nat numFrames) (replicate NUM_FREQ_IN zero) (mContoursPG bp);
     mNoteEvents := mNoteEvents bp;
     mParams := mParams bp;
     mNumFrames := numFrames;
     mBasicPitchCNN := reset (mBasicPitchCNN bp) |}.

(** The four loops. *)
Definition runSchedule (stackedCqt : list F) (numFrames : Z) (bp : BasicPitch)
  : exn + BasicPitch :=
  let numLhFrames := mTotalLookahead in
  bindE (forLoopE (seqZ 0 numLhFrames)
           (fun _ bp => inferRow bp (data_ptr zeroStackedCqt) 0) bp)
    (fun bp =>
  bindE (forLoopE (seqZ 0 numLhFrames)
           (fun frameIdx bp =>
              bindE (framePtr stackedCqt numFrames frameIdx)
                (fun inData => inferRow bp inData 0)) bp)
    (fun bp =>
  bindE (forLoopE (seqZ numLhFrames (numFrames - numLhFrames))
           (fun frameIdx bp =>
              bindE (framePtr stackedCqt numFrames frameIdx)
                (fun inData => inferRow bp inData (size_sub frameIdx numLhFrames))) bp)
    (fun bp =>
  forLoopE (seqZ numFrames numLhFrames)
    (fun frameIdx bp =>
       inferRow bp (data_ptr zeroStackedCqt) (size_sub frameIdx numLhFrames)) bp))).

Definition withEvents (bp : BasicPitch) : BasicPitch :=
  {| mContoursPG := mContoursPG bp; mNotesPG := mNotesPG bp; mOnsetsPG := mOnsetsPG bp;
     mNoteEvents :=
       convert (mNotesPG bp) (mOnsetsPG bp) (mContoursPG bp) (mParams bp) true;
     mParams := mParams bp; mNumFrames := mNumFrames bp;
     mBasicPitchCNN := mBasicPitchCNN bp |}.

Definition transcribeToMIDICore (bp : BasicPitch) (inAudio : list F) : exn + BasicPitch :=
  bindE (computeFeaturesCore inAudio)
    (fun '(stackedCqt, numFrames) =>
       bindE (runSchedule stackedCqt numFrames (prepared bp numFrames))
         (fun bp => inr (withEvents bp))).

Definition transcribeCore (mBasicPitch : BasicPitch) (audio22050Mono : list F)
    (preset : NeuralNoteBalancedPreset) : exn + BasicPitch * list Notes.Event :=
  if Tempo.isEmpty audio22050Mono then inl (runtime_error "Input audio is empty")
  else
    let bp :=
      setParameters (resetBasicPitch mBasicPitch) (noteSensitivity preset)
        (splitSensitivity preset) (minNoteDurationMs preset) (presetMelodiaTrick preset)
        (minPitchHz preset) (maxPitchHz preset) (energyTolerance preset) in
    bindE (transcribeToMIDICore bp audio22050Mono) (fun bp => inr (bp, mNoteEvents bp)).

(** *** What a run may be observed to do

    [effects m r P E W]: from any world, [m] ends with [r], appends [E] to
    the error stream and [W] to the written documents, and appends to the
    output stream lines whose non-diagnostic ones are [P]; with the flag off
    it appends exactly [P]. *)
Definition notDiag (l : OutLine) : bool := negb (isDiag l).

Definition effects {A} (m : M A) (r : exn + A) (P : list OutLine) (E : list string)
    (W : list (string * JsonDoc)) : Prop :=
  forall w,
    fst (m w) = r /\
    stderr (snd (m w)) = stderr w ++ E /\
    written (snd (m w)) = written w ++ W /\
    exists ls,
      stdout (snd (m w)) = stdout w ++ ls /\
      List.filter notDiag ls = P /\
      (enabled diagEnv = false -> ls = P).

Definition quiet {A} (m : M A) (r : exn + A) : Prop := effects m r [] [] [].

(** The part of the world a caller can depend on. *)
Definition functional (w : World) : list OutLine * list string * list (string * JsonDoc) :=
  (List.filter notDiag (stdout w), stderr w, written w).

(** *** Frames run one after another from a reset *)

Definition rowsOk (out : Rows) : Prop :=
  length (outContours out) = NUM_FREQ_IN /\ length (outNotes out) = NUM_FREQ_OUT
  /\ length (outOnsets out) = NUM_FREQ_OUT.

Definition zeroRows : Rows :=
  {| outContours := replicate NUM_FREQ_IN zero;
     outNotes := replicate NUM_FREQ_OUT zero;
     outOnsets := replicate NUM_FREQ_OUT zero |}.

(** The state one [frameInference] leaves. *)
Definition stepCNN (cnn : BasicPitchCNN) (inData : Ptr) : BasicPitchCNN :=
  advanceHeads (_runModels (loadInput cnn inData)).

(** The state after [reset] and [k] frames fed with [inputs 0 .. inputs (k-1)]. *)
Fixpoint cnnAfter (inputs : nat -> Ptr) (cnn0 : BasicPitchCNN) (k : nat) : BasicPitchCNN :=
  match k with
  | O => reset cnn0
  | S k' => stepCNN (cnnAfter inputs cnn0 k') (inputs k')
  end.

(** What each sub-network put out in the last frame. *)
Definition contourOutputs (cnn : BasicPitchCNN) : list F :=
  range (getOutputs contourNet (mCNNContour cnn)) NUM_FREQ_IN.
Definition noteOutputs (cnn : BasicPitchCNN) : list F :=
  range (getOutputs noteNet (mCNNNote cnn)) NUM_FREQ_OUT.
Definition onsetInputOutputs (cnn : BasicPitchCNN) : list F :=
  range (getOutputs onsetInputNet (mCNNOnsetInput cnn)) (32 * NUM_FREQ_OUT).
Definition onsetOutputs (cnn : BasicPitchCNN) : list F :=
  range (getOutputs onsetOutputNet (mCNNOnsetOutput cnn)) NUM_FREQ_OUT.

(** A delay line of depth [depth] at frame [k]: what was written [depth - 1]
    frames earlier, or the fill of [reset] when fewer frames have run. *)
Definition delayed {V} (depth : Z) (fill : V) (written : nat -> V) (k : nat) : V :=
  if Z.of_nat k <? depth - 1 then fill else written (k - Z.to_nat (depth - 1))%nat.

(** A ring of [d] slots after [k] writes, write [j] going to slot [j mod d]. *)
Definition ringInv {V} (fill : V) (written : nat -> V) (d : nat) (buf : list V) (k : nat)
  : Prop :=
  length buf = d /\
  (forall j, (j < k)%nat -> (k <= j + d)%nat -> buf !! (j mod d)%nat = Some (written j)) /\
  (forall s, (k <= s < d)%nat -> buf !! s = Some fill).

(** The input stream of the four phases: [L] zero frames, the [N] feature
    frames, [L] zero frames. *)
Definition scheduleInput (stackedCqt : list F) (numFrames : Z) (k : nat) : Ptr :=
  let L := Z.to_nat mTotalLookahead in
  if ((L <=? k) && (k <? L + Z.to_nat numFrames))%nat
  then ptr_add (data_ptr stackedCqt) ((k - L) * NUM_HARMONICS * NUM_FREQ_IN)
  else data_ptr zeroStackedCqt.
(** The invariant of the three delay lines after [k] frames. *)
Definition cnnInv (inputs : nat -> Ptr) (cnn0 : BasicPitchCNN) (k : nat) : Prop :=
  let cnn := cnnAfter inputs cnn0 k in
  mContourIdx cnn = Z.of_nat (k mod Z.to_nat mNumContourStored) /\
  mNoteIdx cnn = Z.of_nat (k mod Z.to_nat mNumNoteStored) /\
  mConcat2Idx cnn = Z.of_nat (k mod Z.to_nat mNumConcat2Stored) /\
  ringInv (replicate NUM_FREQ_IN zero)
    (fun j => contourOutputs (cnnAfter inputs cnn0 (S j)))
    (Z.to_nat mNumContourStored) (mContoursCircularBuffer cnn) k /\
  ringInv (replicate NUM_FREQ_OUT zero)
    (fun j => noteOutputs (cnnAfter inputs cnn0 (S j)))
    (Z.to_nat mNumNoteStored) (mNotesCircularBuffer cnn) k /\
  ringInv (replicate (32 * NUM_FREQ_OUT) zero)
    (fun j => onsetInputOutputs (cnnAfter inputs cnn0 (S j)))
    (Z.to_nat mNumConcat2Stored) (mConcat2CircularBuffer cnn) k.

(** *** The four phases of the driver *)

(** Every row has its width. *)
Definition sized (n : nat) (rows : list (list F)) : Prop :=
  List.Forall (fun row => length row = n) rows.

Definition pgSized (bp : BasicPitch) : Prop :=
  sized NUM_FREQ_IN (mContoursPG bp) /\ sized NUM_FREQ_OUT (mNotesPG bp)
  /\ sized NUM_FREQ_OUT (mOnsetsPG bp).

Definition cnnSized (cnn : BasicPitchCNN) : Prop :=
  sized NUM_FREQ_IN (mContoursCircularBuffer cnn)
  /\ sized NUM_FREQ_OUT (mNotesCircularBuffer cnn).

Definition pgRows (N : nat) (bp : BasicPitch) : Prop :=
  length (mContoursPG bp) = N /\ length (mNotesPG bp) = N /\ length (mOnsetsPG bp) = N.

Definition driverInv (N : nat) (bp : BasicPitch) : Prop :=
  pgRows N bp /\ pgSized bp /\ cnnSized (mBasicPitchCNN bp).

(** The rows frame [k] of a stream puts out. *)
Definition frameRows (inputs : nat -> Ptr) (cnn0 : BasicPitchCNN) (k : nat) : Rows :=
  {| outContours :=
       delayed mNumContourStored (replicate NUM_FREQ_IN zero)
         (fun j => contourOutputs (cnnAfter inputs cnn0 (S j))) k;
     outNotes :=
       delayed mNumNoteStored (replicate NUM_FREQ_OUT zero)
         (fun j => noteOutputs (cnnAfter inputs cnn0 (S j))) k;
     outOnsets := onsetOutputs (cnnAfter inputs cnn0 (S k)) |}.

(** After [k] frames of the schedule: the network state is that of the
    stream, and every row [r] with [2 L + r < k] holds the output of frame
    [2 L + r]. *)
Definition scheduleInv (inputs : nat -> Ptr) (bp0 : BasicPitch) (N L : nat) (k : nat)
    (bp : BasicPitch) : Prop :=
  driverInv N bp /\
  mBasicPitchCNN bp = cnnAfter inputs (mBasicPitchCNN bp0) k /\
  mParams bp = mParams bp0 /\ mNoteEvents bp = mNoteEvents bp0 /\
  forall r, (2 * L + r < k)%nat ->
    mContoursPG bp !! r = Some (outContours (frameRows inputs (mBasicPitchCNN bp0) (2 * L + r)))
    /\ mNotesPG bp !! r = Some (outNotes (frameRows inputs (mBasicPitchCNN bp0) (2 * L + r)))
    /\ mOnsetsPG bp !! r = Some (outOnsets (frameRows inputs (mBasicPitchCNN bp0) (2 * L + r))).

(** The feature stage answers with [N] frames. *)
Definition yieldsFrames (inAudio : list F) (stackedCqt : list F) (N : Z) : Prop :=
  featuresSession inAudio
  = inr {| shape := [1; N; Z.of_nat NUM_FREQ_IN; Z.of_nat NUM_HARMONICS];
           tdata := stackedCqt |}.
End Pipeline.

(** [Det prog]: what [prog] returns and what it leaves for its caller does
    not depend on the clock nor on the flag. *)
Definition Det {A} (prog : (nat -> Z) -> option string -> M A) : Prop :=
  exists r P E W, forall clock diagEnv, effects diagEnv (prog clock diagEnv) r P E W.

End NeuralNote.

(** ** Specification-side definitions for the tempo pipeline *)
Module TempoSpec.
Import Tempo.
Local Open Scope Z_scope.

Definition sumQ (l : list Q) : Q := fold_right Qplus 0%Q l.

(** The sum of [values[j]] over the in-bounds indices [j] with
    [i - h <= j <= i + h]. *)
Definition inRangeSum (values : list Q) (i h : Z) : Q :=
  sumQ (map (at_ values)
          (List.filter (fun j => (i - h <=? j) && (j <=? i + h)) (seqZ 0 (size values)))).

Definition rangeSum (f : Z -> Q) (n : nat) (lo : Z) (m : nat) : Q :=
  sumQ (map f (List.filter (fun j => (lo <=? j) && (j <? lo + Z.of_nat m))
                 (seqZ 0 (Z.of_nat n)))).

(** [R] holds between every two consecutive elements. *)
Fixpoint adjacent {A} (R : A -> A -> Prop) (l : list A) : Prop :=
  match l with
  | a :: t => match t with b :: _ => R a b | [] => True end /\ adjacent R t
  | [] => True
  end.

(** A tempo point as the map stores it: bpm within [20, 300], both fields
    multiples of 10^-6. *)
Definition rounded6 (q : Q) : Prop := exists z : Z, q = (inject_Z z / 1000000)%Q.

Definition pointOk (p : TempoPoint) : Prop :=
  (20 <= bpm p <= 300)%Q /\ rounded6 (timeSeconds p) /\ rounded6 (bpm p).

Definition farApart (a b : TempoPoint) : Prop :=
  (7 # 10 <= timeSeconds b - timeSeconds a)%Q \/ (3 # 4 <= Qabs (bpm b - bpm a))%Q.

Definition earlier (a b : TempoPoint) : Prop := (timeSeconds a < timeSeconds b)%Q.

(** The loops of [padBands] and of the window copy, cut after [c] rounds. *)
Definition padLoop (src : list Q) (wf df shift : Z) (c : nat) : list Q :=
  fold_left
    (fun padded mel =>
       copy_range src (Z.to_nat (mel * wf)) (Z.to_nat wf) padded
         (Z.to_nat (mel * df + shift)))
    (seqZ 0 (Z.of_nat c))
    (replicate (Z.to_nat (kMelBands * df)) 0%Q).

Definition bandLoop (src : list Q) (wf hop W w : Z) (b : nat) (out : list Q) : list Q :=
  fold_left
    (fun out mel =>
       copy_range src (Z.to_nat (mel * wf + w * hop)) (Z.to_nat W) out
         (Z.to_nat ((w * kMelBands + mel) * W)))
    (seqZ 0 (Z.of_nat b)) out.

Definition windowLoop (src : list Q) (wf hop W N : Z) (c : nat) : list Q :=
  fold_left
    (fun out w => bandLoop src wf hop W w (Z.to_nat kMelBands) out)
    (seqZ 0 (Z.of_nat c))
    (replicate (Z.to_nat (N * kMelBands * W)) 0%Q).

(** [filled out P]: the windows and bands selected by [P] hold their frames,
    the others are still zero. *)
Definition filled (src : list Q) (wf hop W N : Z) (out : list Q) (P : Z -> Z -> bool) : Prop :=
  size out = N * kMelBands * W /\
  forall w mel k, 0 <= w < N -> 0 <= mel < kMelBands -> 0 <= k < W ->
    at_ out ((w * kMelBands + mel) * W + k)
    = if P w mel then at_ src (mel * wf + w * hop + k) else 0%Q.

(** The time axis the windows are cut from: [zeroPad] puts 128 zero frames
    before and after the [T] frames, and anything shorter than one window is
    filled with zeros on the right. *)
Definition workingLength (T : Z) (zeroPad : bool) : Z :=
  Z.max (if zeroPad then T + kWindowFrames else T) kWindowFrames.

Definition workingFrame (features : FeatureTensor) (zeroPad : bool) (mel t : Z) : Q :=
  let T := totalFrames features in
  let zerosBefore := if zeroPad then 128 else 0 in
  if (zerosBefore <=? t) && (t <? zerosBefore + T)
  then at_ (data features) (mel * T + (t - zerosBefore)) else 0%Q.

(** Sample collaborators for closed instances: a mel kernel that answers 1
    everywhere and a session whose row [r] peaks at class [90 + 10 r]. *)
Definition unitKernel : list Q -> Z -> Q := fun _ _ => 1%Q.

Definition peakSession : Session := fun _ inputShape =>
  let n := hd 0 inputShape in
  inr (Some {| shape := [n; kTempoClasses];
               values :=
                 flat_map
                   (fun r => map (fun c => if c =? 90 + 10 * r then 1%Q else 0%Q)
                               (seqZ 0 kTempoClasses))
                   (seqZ 0 n) |}).

Definition bothOptions : TempoEstimateOptions :=
  {| interpolate := true; localTempo := true |}.

(** The model answers every request with an output of the expected shape. *)
Definition answers (session : Session) : Prop :=
  forall input n, exists t,
    session input [n; kMelBands; kWindowFrames; 1] = inr (Some t)
    /\ shape t = [n; kTempoClasses].

(** A 20000-sample input: 40 mel frames, two local windows, a tempo map of
    two points. *)
Definition longInput : list Q := replicate (Z.to_nat 20000) 1%Q.

Definition sampleEstimate : TempoEstimateResult :=
  Eval vm_compute in
    match estimate unitKernel peakSession longInput bothOptions with
    | inr result => result
    | inl _ => {| tempoBpm := 0; tempoMap := [] |}
    end.

End TempoSpec.

(** ** A small instance of the note pipeline

    Samples are integers; a sub-network remembers the first value of its last
    input and puts it out everywhere; the feature stage answers with one
    frame per sample. *)
Module NeuralNoteSample.
Import NeuralNote.
Local Open Scope Z_scope.

Definition echoNet : @Net Z Z :=
  {| forward := fun _ input => input 0%nat;
     getOutputs := fun state _ => state;
     resetNet := fun _ => 0 |}.

Definition cnn0 : @BasicPitchCNN Z Z :=
  {| mContoursCircularBuffer := []; mNotesCircularBuffer := [];
     mConcat2CircularBuffer := [];
     mContourIdx := 0; mNoteIdx := 0; mConcat2Idx := 0;
     mInputArray := []; mConcatArray := [];
     mCNNContour := 0; mCNNNote := 0; mCNNOnsetInput := 0; mCNNOnsetOutput := 0 |}.

Definition params0 : Notes.ConvertParams :=
  {| Notes.frameThreshold := 3 # 10; Notes.onsetThreshold := 5 # 10;
     Notes.minNoteLength := 11; Notes.pitchBend := Notes.NoPitchBend;
     Notes.melodiaTrick := true; Notes.inferOnsets := true;
     Notes.minFrequency := 0; Notes.maxFrequency := 0;
     Notes.energyThreshold := 11 |}.

Definition bp0 : @BasicPitch Z Z :=
  {| mContoursPG := []; mNotesPG := []; mOnsetsPG := []; mNoteEvents := [];
     mParams := params0; mNumFrames := 0; mBasicPitchCNN := cnn0 |}.

Definition framePerSample (inAudio : list Z) : exn + @Tensor Z :=
  inr {| shape := [1; Z.of_nat (length inAudio); Z.of_nat NUM_FREQ_IN;
                   Z.of_nat NUM_HARMONICS];
         tdata := flat_map (replicate (NUM_HARMONICS * NUM_FREQ_IN)) inAudio |}.

Definition noNotes (notes onsets contours : list (list Z)) (params : Notes.ConvertParams)
    (newAudio : bool) : list Notes.Event := [].


Definition world0 : World :=
  {| stdout := []; stderr := []; written := []; now := 0; kStartedAt := None |}.

Definition stoppedClock : nat -> Z := fun _ => 0.
Definition tickingClock : nat -> Z := fun reading => 7 * Z.of_nat reading.

(** One existing file, with no byte in it. *)
Definition files0 (path : string) : option (list Byte.byte) :=
  if String.eqb path "in.f32" then Some [] else None.

Definition argv0 : list string :=
  ["--input-f32le"; "in.f32"; "--output-json"; "out.json"; "--model-dir"; "models"].

Definition decode0 (bytes : list Byte.byte) (i : nat) : Z := 0.
Definition always (path : string) : bool := true.
Definition noNumber {A} (text : string) : option A := None.
Definition showQ0 (q : Q) : string := "q".
Definition load0 (modelDir : string) : exn + @BasicPitch Z Z := inr bp0.
Definition loadTempo0 (path : string) : exn + Tempo.Session := inr TempoSpec.peakSession.

(** The CLI and the driver of this instance, with the constants of the
    upstream BasicPitchCNN.h: depths 8, 2 and 8, lookahead 10. *)
Definition main0 (clock : nat -> Z) (diagEnv : option string) : list string -> M Z :=
  main 0 echoNet echoNet echoNet echoNet 8 2 8 framePerSample clock diagEnv noNotes
    (256 # 1) (22050 # 1) 10 load0 files0 decode0 always always always noNumber noNumber
    showQ0.

Definition transcribeToMIDI0 (clock : nat -> Z) (diagEnv : option string)
  : @BasicPitch Z Z -> list Z -> M (@BasicPitch Z Z) :=
  transcribeToMIDI 0 echoNet echoNet echoNet echoNet 8 2 8 framePerSample clock diagEnv
    noNotes 10.


End NeuralNoteSample.


(** ** Specification-side definitions for the other functions *)
Module TempoMoreSpec.
Import Tempo TempoSpec.
Local Open Scope Z_scope.

(** The state of a scan for the first largest value after the positions
    below [k]; [get] reads position [i]. *)
Definition scanned (get : Z -> Q) (k : Z) (st : Z * Q) : Prop :=
  let '(bestIndex, bestValue) := st in
  0 <= bestIndex < k /\ bestValue = get bestIndex /\
  (forall j, 0 <= j < k -> (get j <= bestValue)%Q) /\
  (forall j, 0 <= j < bestIndex -> (get j < bestValue)%Q).

(** [best] is the first position of the largest of [get 0 .. get (n - 1)]. *)
Definition firstMaximum (get : Z -> Q) (n best : Z) : Prop :=
  0 <= best < n /\
  (forall j, 0 <= j < n -> (get j <= get best)%Q) /\
  (forall j, 0 <= j < best -> (get j < get best)%Q).

(** Two tempo points at least 0.7 s apart. *)
Definition spaced (a b : TempoPoint) : Prop :=
  (kLocalTempoMinTimeDelta <= timeSeconds b - timeSeconds a)%Q.

(** The hop between two local windows, as [estimate] computes it. *)
Definition localHopSeconds : Q := (inject_Z kLocalHopFrames * kFeatureFrameSeconds)%Q.

(** The signal [computeMelSpectrogram] frames: the samples between two runs
    of 512 zeros; and its analysis frame [frameIndex]. *)
Definition paddedSignal (monoSamples : list Q) : list Q :=
  replicate 512 0%Q ++ monoSamples ++ replicate 512 0%Q.

Definition analysisFrame (monoSamples : list Q) (frameIndex : Z) : list Q :=
  take 1024 (drop (Z.to_nat (frameIndex * 512)) (paddedSignal monoSamples)).

(** The cells of frames below [k], and of the bands below [m] of frame [k],
    hold their band energies. *)
Definition melFilled (melEnergy : list Q -> Z -> Q) (monoSamples : list Q)
    (frameCount k m : Z) (cells : list Q) : Prop :=
  size cells = kMelBands * frameCount /\
  forall mel frameIndex,
    0 <= mel < kMelBands ->
    (0 <= frameIndex < k \/ (frameIndex = k /\ mel < m)) ->
    cells !! Z.to_nat (mel * frameCount + frameIndex)
    = Some (melEnergy (analysisFrame monoSamples frameIndex) mel).

End TempoMoreSpec.

Module NeuralNoteMoreSpec.
Import NeuralNote.
Local Open Scope Z_scope.

(** The characters [escapeJsonString] lets through or escapes; the other
    control characters are dropped. *)
Definition kept (c : ascii) : bool :=
  let n := nat_of_ascii c in
  (32 <=? n)%nat || (n =? 10)%nat || (n =? 13)%nat || (n =? 9)%nat.

(** The body of a JSON string with the escapes the sources write: no raw
    quote or control character, and a backslash only before a backslash, a
    quote, [n], [r] or [t]. *)
Fixpoint wellEscaped (cs : list ascii) : bool :=
  match cs with
  | [] => true
  | c :: rest =>
      if (nat_of_ascii c =? 92)%nat then
        match rest with
        | e :: rest' =>
            ((nat_of_ascii e =? 92) || (nat_of_ascii e =? 34) || (nat_of_ascii e =? 110)
             || (nat_of_ascii e =? 114) || (nat_of_ascii e =? 116))%nat
            && wellEscaped rest'
        | [] => false
        end
      else (32 <=? nat_of_ascii c)%nat && negb (nat_of_ascii c =? 34)%nat && wellEscaped rest
  end.

(** What a JSON reader makes of such a body. *)
Fixpoint unescape (cs : list ascii) : list ascii :=
  match cs with
  | [] => []
  | c :: rest =>
      if (nat_of_ascii c =? 92)%nat then
        match rest with
        | e :: rest' =>
            (if (nat_of_ascii e =? 110)%nat then ascii_of_nat 10
             else if (nat_of_ascii e =? 114)%nat then ascii_of_nat 13
             else if (nat_of_ascii e =? 116)%nat then ascii_of_nat 9
             else e) :: unescape rest'
        | [] => []
        end
      else c :: unescape rest
  end.

(** The concat array after the rows below [n]: row [i] holds note output [i]
    and then the 32 delayed values of bin [i]. *)
Definition concatRows {F} (noteOutputs : @Ptr F) (delayed : list F) (n : nat)
    (concatArray : list F) : Prop :=
  length concatArray = (33 * NUM_FREQ_OUT)%nat /\
  forall i, (i < n)%nat ->
    concatArray !! (i * 33)%nat = Some (noteOutputs i) /\
    forall j, (j < 32)%nat -> concatArray !! (i * 33 + 1 + j)%nat = delayed !! (i * 32 + j)%nat.

(** The ranges [main] accepts for the values of the balanced preset. *)
Definition presetOk (p : NeuralNoteBalancedPreset) : Prop :=
  (0 <= noteSensitivity p <= 1)%Q /\ (0 <= splitSensitivity p <= 1)%Q /\
  (0 < minNoteDurationMs p)%Q /\ (0 <= minPitchHz p)%Q /\ (0 <= maxPitchHz p)%Q /\
  ((0 < minPitchHz p)%Q -> (0 < maxPitchHz p)%Q -> (minPitchHz p <= maxPitchHz p)%Q) /\
  1 <= energyTolerance p.

(** The options that override the balanced preset. *)
Definition presetKeys : list string :=
  ["--note-sensitivity"; "--split-sensitivity"; "--min-note-ms"; "--melodia-trick";
   "--min-pitch-hz"; "--max-pitch-hz"; "--energy-tolerance"].

(** [post diagEnv m Q]: whatever the world, [m] returns some [r], sends the
    lines [E] to the error stream, writes the documents [W] and prints the
    non-diagnostic lines [P], and [Q r P E W] holds. *)
Definition post {A} (diagEnv : option string) (m : M A)
    (Q : exn + A -> list OutLine -> list string -> list (string * JsonDoc) -> Prop) : Prop :=
  exists r P E W, effects diagEnv m r P E W /\ Q r P E W.

(** The outcomes of the transcriber CLI. *)
Definition mainContract (argv : list string) (r : exn + Z) (P : list OutLine)
    (E : list string) (W : list (string * JsonDoc)) : Prop :=
  (r = inr 0 /\ E = [] /\
   P = [ProgressLine "Loading audio features..." (12 # 100);
        ProgressLine "Running NeuralNote model..." (45 # 100);
        ProgressLine "Building MIDI events..." (92 # 100);
        ProgressLine "Conversion complete." 1] /\
   exists outputPath events,
     parseArgs argv ∅ !! "--output-json" = Some outputPath /\ events <> [] /\
     W = [(outputPath, EventsDoc (toCoreEvents events))])
  \/ (r = inr 2 /\ E = ["No notes detected in uploaded audio."] /\ W = [])
  \/ (r = inr 1 /\ (exists msg, E = [msg]) /\ (length W <= 1)%nat)
  \/ (r = inl out_of_range_access /\ E = [] /\ W = []).

(** The outcomes of the JNI entry point: [inr None] is the null status of a
    successful run. *)
Definition jniContract (outputPath : string) (r : exn + option string) (P : list OutLine)
    (E : list string) (W : list (string * JsonDoc)) : Prop :=
  P = [] /\ E = [] /\
  ((r = inr None /\
    exists events tempo, W = [(outputPath, CombinedDoc (toCoreEvents events) tempo)])
   \/ ((exists msg, r = inr (Some msg)) /\ (length W <= 1)%nat)
   \/ (r = inl out_of_range_access /\ W = [])).

End NeuralNoteMoreSpec.

(** ** The tempo CLI (tempocnn_core/cli/main.cpp and TempoIO.cpp) *)
Module TempoCli.
Import Tempo.
Local Open Scope Z_scope.

(** [--help] and [-h] stand alone; any other token that starts with two
    dashes takes the next token as its value. *)
Fixpoint parseArgs (tokens : list string) (args : gmap string string)
  : gmap string string :=
  match tokens with
  | [] => args
  | token :: rest =>
      if String.eqb token "--help" || String.eqb token "-h"
      then parseArgs rest (<[token := "1"]> args)
      else
        match rest with
        | value :: rest' =>
            if String.prefix "--" token then parseArgs rest' (<[token := value]> args)
            else parseArgs rest args
        | [] => args
        end
  end.

(** [inl] carries [outError]. *)
Definition parseBool (args : gmap string string) (key : string) (defaultValue : bool)
  : string + bool :=
  match args !! key with
  | None => inr defaultValue
  | Some text =>
      let value := NeuralNote.lowercase text in
      if String.eqb value "1" || String.eqb value "true" || String.eqb value "yes"
         || String.eqb value "on"
      then inr true
      else if String.eqb value "0" || String.eqb value "false" || String.eqb value "no"
              || String.eqb value "off"
      then inr false
      else inl ("Invalid boolean value for " +:+ key +:+ " (expected true/false or 1/0).")
  end.

(** The same loop as [NeuralNoteDiag::escapeJsonString]. *)
Definition escapeJson (text : string) : string := NeuralNote.escapeJsonString text.

Definition usage : string :=
  "Usage: tempo_cnn_cli --input-f32le <audio.f32> --model-onnx <model.onnx> [--interpolate 0|1] [--local-tempo 0|1]".

Section Program.
(** The file system, the decoding of the [i]-th little-endian float, the
    state of the stream after [read], the constructor of [TempoCnn], the
    spectral kernel of the mel stage and the printing of a [double] with
    [std::fixed] and precision 6. *)
Variable files : string -> option (list Byte.byte).
Variable decodeFloat32Le : list Byte.byte -> nat -> Q.
Variable readOk : string -> bool.
Variable loadTempoCnn : string -> exn + Session.
Variable melEnergy : list Q -> Z -> Q.
Variable showFixed6 : Q -> string.

(** TempoIO.cpp; [inl] carries [outError] of a [false] return. *)
Definition readFloat32LeFile (filePath : string) : string + list Q :=
  match files filePath with
  | None => inl ("Cannot open input file: " +:+ filePath)
  | Some content =>
      let bytes := Z.of_nat (length content) in
      if bytes <? 0 then inl ("Failed to determine input file size: " +:+ filePath)
      else if negb (Z.rem bytes 4 =? 0)
      then inl ("Input file size is not aligned to float32 samples: " +:+ filePath)
      else
        let outSamples := map (decodeFloat32Le content) (seq 0 (Z.to_nat (bytes / 4))) in
        if negb (isEmpty outSamples) && negb (readOk filePath)
        then inl ("Failed to read input file: " +:+ filePath)
        else inr outSamples
  end.

Definition dq : string := String (ascii_of_nat 34) EmptyString.

Definition showBool (b : bool) : string := if b then "true" else "false".

Definition showPoint (point : TempoPoint) : string :=
  "{" +:+ dq +:+ "time" +:+ dq +:+ ":" +:+ showFixed6 (timeSeconds point)
  +:+ "," +:+ dq +:+ "bpm" +:+ dq +:+ ":" +:+ showFixed6 (bpm point) +:+ "}".

(** The points with a comma before each one but the first. *)
Fixpoint showPoints (first : bool) (points : list TempoPoint) : string :=
  match points with
  | [] => EmptyString
  | point :: rest =>
      (if first then EmptyString else ",") +:+ showPoint point +:+ showPoints false rest
  end.

Definition showResult (result : TempoEstimateResult) (interpolate localTempo : bool)
  : string :=
  "{" +:+ dq +:+ "bpm" +:+ dq +:+ ":" +:+ showFixed6 (tempoBpm result)
  +:+ "," +:+ dq +:+ "interpolate" +:+ dq +:+ ":" +:+ showBool interpolate
  +:+ (if localTempo
       then "," +:+ dq +:+ "tempo_map" +:+ dq +:+ ":[" +:+ showPoints true (tempoMap result)
            +:+ "]"
       else EmptyString)
  +:+ "}".

(** What a run leaves: the exit code and the lines sent to [std::cout] and
    to [std::cerr]. *)
Record Run := { exitCode : Z; cout : list string; cerr : list string }.

(** [argv] holds [argv[1]] onwards. *)
Definition main (argv : list string) : Run :=
  let args := parseArgs argv ∅ in
  if bool_decide (is_Some (args !! "--help")) || bool_decide (is_Some (args !! "-h"))
  then {| exitCode := 0; cout := [usage]; cerr := [] |}
  else
    match args !! "--input-f32le", args !! "--model-onnx" with
    | Some inputPath, Some modelPath =>
        match parseBool args "--interpolate" false with
        | inl parseError => {| exitCode := 1; cout := []; cerr := [parseError] |}
        | inr interpolate =>
        match parseBool args "--local-tempo" false with
        | inl parseError => {| exitCode := 1; cout := []; cerr := [parseError] |}
        | inr localTempo =>
        match readFloat32LeFile inputPath with
        | inl ioError => {| exitCode := 1; cout := []; cerr := [ioError] |}
        | inr samples =>
            if isEmpty samples
            then {| exitCode := 1; cout := []; cerr := ["Input audio is empty."] |}
            else
              match loadTempoCnn modelPath with
              | inl (runtime_error what) =>
                  {| exitCode := 1; cout := []; cerr := [escapeJson what] |}
              | inr tempoCnn =>
                  let estimateOptions :=
                    {| interpolate := interpolate; localTempo := localTempo |} in
                  match estimate melEnergy tempoCnn samples estimateOptions with
                  | inl (runtime_error what) =>
                      {| exitCode := 1; cout := []; cerr := [escapeJson what] |}
                  | inr result =>
                      {| exitCode := 0;
                         cout := [showResult result interpolate localTempo];
                         cerr := [] |}
                  end
              end
        end end end
    | _, _ => {| exitCode := 1; cout := [usage]; cerr := [] |}
    end.
End Program.
End TempoCli.

(** ** Facts about the tempo pipeline *)
Module TempoFacts.
Import Tempo TempoSpec.
Local Open Scope Z_scope.

Ltac split_cmp :=
  repeat match goal with
  | |- context [?a <=? ?b] => destruct (Z.leb_spec a b)
  | |- context [?a <? ?b] => destruct (Z.ltb_spec a b)
  | |- context [?a >=? ?b] => rewrite (Z.geb_leb a b)
  | |- context [?a =? ?b] => destruct (Z.eqb_spec a b)
  end; simpl; try lia; try reflexivity.

Lemma Qltb_lt a b : Qltb a b = true <-> (a < b)%Q.
Proof.
  unfold Qltb. rewrite negb_true_iff. split.
  - intros H. apply Qnot_le_lt. intros Hle. apply Qle_bool_iff in Hle. congruence.
  - intros H. destruct (Qle_bool b a) eqn:E; [|reflexivity].
    apply Qle_bool_iff in E. exfalso. apply (Qlt_not_le _ _ H E).
Qed.

Lemma Qltb_ge a b : Qltb a b = false <-> (b <= a)%Q.
Proof.
  unfold Qltb. rewrite negb_false_iff. apply Qle_bool_iff.
Qed.

Lemma std_max_Qmax a b : (std_max a b == Qmax a b)%Q.
Proof.
  unfold std_max. destruct (Qltb a b) eqn:E.
  - apply Qltb_lt in E. symmetry. apply Q.max_r. lra.
  - apply Qltb_ge in E. symmetry. apply Q.max_l. lra.
Qed.

Lemma std_min_Qmin a b : (std_min a b == Qmin a b)%Q.
Proof.
  unfold std_min. destruct (Qltb b a) eqn:E.
  - apply Qltb_lt in E. symmetry. apply Q.min_r. lra.
  - apply Qltb_ge in E. symmetry. apply Q.min_l. lra.
Qed.

Lemma clampDouble_bounds v lo hi :
  (lo <= hi)%Q -> (lo <= clampDouble v lo hi <= hi)%Q.
Proof.
  intros H. unfold clampDouble, std_max, std_min.
  destruct (Qltb v hi) eqn:E1.
  - apply Qltb_lt in E1. destruct (Qltb lo v) eqn:E2.
    + apply Qltb_lt in E2. lra.
    + lra.
  - apply Qltb_ge in E1. destruct (Qltb lo hi) eqn:E2; lra.
Qed.

Lemma clampDouble_Qclamp v lo hi :
  (clampDouble v lo hi == Qmax lo (Qmin hi v))%Q.
Proof.
  unfold clampDouble. rewrite std_max_Qmax.
  apply Q.max_compat; [reflexivity|apply std_min_Qmin].
Qed.

(** *** movingAverageSame *)

Lemma sumQ_app l1 l2 : (sumQ (l1 ++ l2) == sumQ l1 + sumQ l2)%Q.
Proof.
  induction l1 as [|x l1 IH]; simpl.
  - ring.
  - rewrite IH. ring.
Qed.

Lemma rangeSum_S_n f n lo m :
  (rangeSum f (S n) lo m ==
   rangeSum f n lo m
   + (if ((lo <=? Z.of_nat n) && (Z.of_nat n <? lo + Z.of_nat m))%Z then f (Z.of_nat n) else 0))%Q.
Proof.
  unfold rangeSum. rewrite seqZ_S, List.filter_app, map_app, sumQ_app. simpl.
  rewrite Z.add_0_l.
  destruct ((lo <=? Z.of_nat n) && (Z.of_nat n <? lo + Z.of_nat m)); simpl; ring.
Qed.

Lemma rangeSum_0 f n lo : (rangeSum f n lo 0 == 0)%Q.
Proof.
  induction n as [|n IH].
  - reflexivity.
  - rewrite rangeSum_S_n, IH. split_cmp; ring.
Qed.

Lemma rangeSum_S_m f n lo m :
  (rangeSum f n lo (S m) ==
   rangeSum f n lo m
   + (if ((0 <=? lo + Z.of_nat m) && (lo + Z.of_nat m <? Z.of_nat n))%Z
      then f (lo + Z.of_nat m)%Z else 0))%Q.
Proof.
  induction n as [|n IH].
  - unfold rangeSum. simpl. split_cmp; ring.
  - rewrite !rangeSum_S_n, IH.
    destruct (Z.eq_dec (lo + Z.of_nat m) (Z.of_nat n)) as [E|E].
    + rewrite E. split_cmp; ring.
    + split_cmp; ring.
Qed.

Lemma windowLoop_rangeSum values index a m acc :
  Qeq
    (fold_left
       (fun sum offset =>
          let sampleIndex := index + offset in
          if (sampleIndex <? 0) || (sampleIndex >=? size values) then sum
          else (sum + at_ values sampleIndex)%Q)
       (seqZ a (Z.of_nat m)) acc)
    (acc + rangeSum (at_ values) (length values) (index + a) m)%Q.
Proof.
  revert acc. induction m as [|m IH]; intros acc.
  - simpl. rewrite rangeSum_0. ring.
  - rewrite seqZ_S, fold_left_app, rangeSum_S_m.
    specialize (IH acc). revert IH.
    generalize (fold_left
       (fun sum offset =>
          let sampleIndex := index + offset in
          if (sampleIndex <? 0) || (sampleIndex >=? size values) then sum
          else (sum + at_ values sampleIndex)%Q)
       (seqZ a (Z.of_nat m)) acc).
    intros acc' IH. cbn [fold_left]. cbv zeta. unfold size.
    replace (index + (a + Z.of_nat m)) with (index + a + Z.of_nat m) by lia.
    split_cmp; rewrite IH; ring.
Qed.

Lemma windowSum_inRange values index h :
  0 <= h -> (windowSum values index h == inRangeSum values index h)%Q.
Proof.
  intros Hh. unfold windowSum.
  replace (2 * h + 1) with (Z.of_nat (Z.to_nat (2 * h + 1))) by lia.
  rewrite windowLoop_rangeSum. unfold rangeSum, inRangeSum, size.
  rewrite Qplus_0_l.
  assert (E : forall l,
    List.filter (fun j => (index + - h <=? j) && (j <? index + - h + Z.of_nat (Z.to_nat (2 * h + 1)))) l
    = List.filter (fun j => (index - h <=? j) && (j <=? index + h)) l).
  { intros l. apply List.filter_ext. intros j. split_cmp. }
  rewrite E. reflexivity.
Qed.

Lemma nth_seqZ m n i d :
  (Z.of_nat i < n) -> nth i (seqZ m n) d = m + Z.of_nat i.
Proof.
  intros H. rewrite nth_lookup, lookup_seqZ_lt by lia. reflexivity.
Qed.

Lemma nth_map_seqZ {A} (f : Z -> A) n i d :
  (Z.of_nat i < n) -> nth i (map f (seqZ 0 n)) d = f (Z.of_nat i).
Proof.
  intros H. rewrite (nth_indep _ d (f 0)) by (rewrite length_map, length_seqZ; lia).
  rewrite map_nth, nth_seqZ by lia. f_equal.
Qed.


(** C7.  The width-5 smoother keeps the length of the series, and entry [i]
    is the sum of the in-bounds inputs at indices [i-2 .. i+2] divided by the
    nominal width 5, at the edges too. *)
Theorem movingAverageSame_width5 (values : list Q) :
  length (movingAverageSame values kLocalSmoothingWindow) = length values /\
  forall i, (i < length values)%nat ->
    (nth i (movingAverageSame values kLocalSmoothingWindow) 0
     == inRangeSum values (Z.of_nat i) 2 / 5)%Q.
Proof.
  unfold movingAverageSame. destruct values as [|v values]; [split; [reflexivity|simpl; lia]|].
  cbn [isEmpty]. split.
  - rewrite length_map, length_seqZ. unfold size. lia.
  - intros i Hi. rewrite nth_map_seqZ by (unfold size; lia).
    change (safeWindowOf kLocalSmoothingWindow) with 5.
    change (Z.quot 5 2) with 2.
    rewrite windowSum_inRange by lia. reflexivity.
Qed.

(** Three equal values of 10: every window holds all three, and each output
    is 30 / 5, not the mean 10. *)
Example movingAverageSame_edges :
  movingAverageSame [10; 10; 10]%Q 5 = [30 # 5; 30 # 5; 30 # 5]%Q.
Proof. vm_compute. reflexivity. Qed.

(** The first entry of the smoothed [10, 10, 10]. *)
Lemma movingAverageSame_width5_witness :
  (nth 0 (movingAverageSame [10; 10; 10]%Q kLocalSmoothingWindow) 0
   == inRangeSum [10; 10; 10]%Q 0 2 / 5)%Q.
Proof.
  destruct (movingAverageSame_width5 [10; 10; 10]%Q) as [_ H].
  apply (H 0%nat). simpl. lia.
Defined.

(** *** interpolateArgmax *)

(** C6.  At an interior index [c] the refined index is [c] when the
    denominator [l - 2m + r] is below 1e-12 in absolute value, and otherwise
    [c + (l - r) / (2 (l - 2m + r))] clamped to [c - 1, c + 1]; at a boundary
    index it is [c].  On [0.1, 1.0, 0.1] the result is the center; on
    [0.1, 0.5, 0.9] it lies in [center, center + 1). *)
Theorem interpolateArgmax_parabolic (values : list Q) (c : Z) :
  let l := at_ values (c - 1) in
  let m := at_ values c in
  let r := at_ values (c + 1) in
  let den := (l - 2 * m + r)%Q in
  let refined := (inject_Z c + (1 # 2) * (l - r) / den)%Q in
  (0 < c < size values - 1 ->
     ((Qabs den < 1 # 1000000000000)%Q -> interpolateArgmax values c = inject_Z c) /\
     ((1 # 1000000000000 <= Qabs den)%Q ->
        (interpolateArgmax values c
           == Qmax (inject_Z c - 1) (Qmin (inject_Z c + 1) refined))%Q /\
        (inject_Z c - 1 <= interpolateArgmax values c <= inject_Z c + 1)%Q)) /\
  (c <= 0 \/ size values - 1 <= c -> interpolateArgmax values c = inject_Z c) /\
  (interpolateArgmax [1 # 10; 1; 1 # 10]%Q 1 == 1)%Q /\
  (1 <= interpolateArgmax [1 # 10; 5 # 10; 9 # 10]%Q 1 < 2)%Q.
Proof.
  intros l m r den refined.
  split; [|split; [|split; [|split]]].
  - intros Hc.
    assert (forall b,
      Qltb (Qabs den) (1 # 1000000000000) = b ->
      interpolateArgmax values c
      = if b then inject_Z c
        else (inject_Z c + clampDouble ((1 # 2) * (l - r) / den) (- (1)) 1)%Q) as Hunfold.
    { intros b Hb. unfold interpolateArgmax.
      replace ((c <=? 0) || (c >=? size values - 1)) with false by lia.
      fold l m r. fold den. rewrite Hb. reflexivity. }
    split.
    + intros Hden. apply Qltb_lt in Hden. exact (Hunfold true Hden).
    + intros Hden. apply Qltb_ge in Hden. rewrite (Hunfold false Hden). split.
      * rewrite clampDouble_Qclamp. unfold refined.
        rewrite <- Q.plus_max_distr_l, <- Q.plus_min_distr_l.
        apply Q.max_compat; [ring|]. apply Q.min_compat; ring.
      * pose proof (clampDouble_bounds ((1 # 2) * (l - r) / den) (- (1)) 1) as B.
        assert (- (1) <= 1)%Q as H1 by lra. specialize (B H1). lra.
  - intros H. unfold interpolateArgmax.
    replace ((c <=? 0) || (c >=? size values - 1)) with true by lia. reflexivity.
  - vm_compute. reflexivity.
  - vm_compute. discriminate.
  - vm_compute. reflexivity.
Qed.

(** The argmax of [0.1, 0.5, 0.9] is the last index, a boundary. *)
Example interpolateArgmax_rising :
  argmax [1 # 10; 5 # 10; 9 # 10]%Q = 2 /\
  interpolateArgmax [1 # 10; 5 # 10; 9 # 10]%Q 2 = 2%Q.
Proof. vm_compute. split; reflexivity. Qed.

(** An asymmetric interior peak: [0.1, 0.5, 0.7, 0.1] is refined from 2 to
    1.75. *)
Lemma interpolateArgmax_parabolic_witness :
  (interpolateArgmax [1 # 10; 5 # 10; 7 # 10; 1 # 10]%Q 2 == 7 # 4)%Q /\
  (inject_Z 2 - 1 <= interpolateArgmax [1 # 10; 5 # 10; 7 # 10; 1 # 10]%Q 2
   <= inject_Z 2 + 1)%Q.
Proof.
  destruct (interpolateArgmax_parabolic [1 # 10; 5 # 10; 7 # 10; 1 # 10]%Q 2) as [H _].
  assert (0 < 2 < size [1 # 10; 5 # 10; 7 # 10; 1 # 10]%Q - 1) as Hc
    by (vm_compute; split; reflexivity).
  destruct (H Hc) as [_ H2].
  assert (1 # 1000000000000
          <= Qabs (at_ [1 # 10; 5 # 10; 7 # 10; 1 # 10] (2 - 1)
                   - 2 * at_ [1 # 10; 5 # 10; 7 # 10; 1 # 10] 2
                   + at_ [1 # 10; 5 # 10; 7 # 10; 1 # 10] (2 + 1)))%Q as Hden
    by (vm_compute; discriminate).
  destruct (H2 Hden) as [E B]. split; [|exact B].
  rewrite E. vm_compute. reflexivity.
Defined.

(** *** compressTempoPoints *)

Lemma Qfloor_lt_of_gap a b : (a + 1 <= b)%Q -> Qfloor a < Qfloor b.
Proof.
  intros H. destruct (Z_lt_le_dec (Qfloor a) (Qfloor b)) as [|Hle]; [assumption|exfalso].
  pose proof (Qfloor_le a) as Ha. pose proof (Qlt_floor b) as Hb.
  assert (inject_Z (Qfloor b + 1) <= inject_Z (Qfloor a + 1))%Q as Hc.
  { rewrite <- Zle_Qle. lia. }
  rewrite inject_Z_plus in Hc. rewrite inject_Z_plus in Hb, Hc.
  change (inject_Z 1) with 1%Q in *. lra.
Qed.

Lemma std_round_nonneg q : (0 <= q)%Q -> std_round q = Qfloor (q + (1 # 2)).
Proof.
  intros H. unfold std_round. apply Qle_bool_iff in H. rewrite H. reflexivity.
Qed.

Lemma std_round_lt a b : (0 <= a)%Q -> (a + 1 <= b)%Q -> std_round a < std_round b.
Proof.
  intros Ha Hab. rewrite !std_round_nonneg by lra. apply Qfloor_lt_of_gap. lra.
Qed.

Lemma std_round_le a b : (0 <= a)%Q -> (a <= b)%Q -> std_round a <= std_round b.
Proof.
  intros Ha Hab. rewrite !std_round_nonneg by lra. apply Qfloor_resp_le. lra.
Qed.


Lemma roundToDecimals_6 v :
  roundToDecimals v 6 = (inject_Z (std_round (v * 1000000)) / 1000000)%Q.
Proof. reflexivity. Qed.

Lemma roundToDecimals_bpm b :
  (20 <= b <= 300)%Q -> (20 <= roundToDecimals b 6 <= 300)%Q.
Proof.
  intros [Hlo Hhi]. rewrite roundToDecimals_6.
  rewrite std_round_nonneg by lra.
  set (x := (b * 1000000 + (1 # 2))%Q).
  assert (20000000 <= Qfloor x) as H1.
  { rewrite <- (Qfloor_Z 20000000). apply Qfloor_resp_le. unfold x.
    change (inject_Z 20000000) with 20000000%Q. lra. }
  assert (Qfloor x < 300000001) as H2.
  { rewrite Zlt_Qlt. pose proof (Qfloor_le x) as H.
    change (inject_Z 300000001) with 300000001%Q. unfold x in *. lra. }
  assert (Qfloor x <= 300000000) as H3 by lia.
  rewrite Zle_Qle in H1, H3.
  change (inject_Z 20000000) with 20000000%Q in H1.
  change (inject_Z 300000000) with 300000000%Q in H3.
  split.
  - apply Qle_shift_div_l; [reflexivity|]. lra.
  - apply Qle_shift_div_r; [reflexivity|]. lra.
Qed.

Lemma roundToDecimals_time_lt (i j : Z) (hop : Q) :
  0 <= i < j -> (1 # 1000000 <= hop)%Q ->
  (roundToDecimals (inject_Z i * hop) 6 < roundToDecimals (inject_Z j * hop) 6)%Q.
Proof.
  intros [Hi Hij] Hhop. rewrite !roundToDecimals_6.
  assert (0 <= inject_Z i)%Q as Qi by (rewrite Zle_Qle in Hi; exact Hi).
  assert (inject_Z i + 1 <= inject_Z j)%Q as Qij.
  { change 1%Q with (inject_Z 1). rewrite <- inject_Z_plus, <- Zle_Qle. lia. }
  assert (std_round (inject_Z i * hop * 1000000) < std_round (inject_Z j * hop * 1000000)) as H.
  { apply std_round_lt.
    - apply Qmult_le_0_compat; [|lra]. apply Qmult_le_0_compat; lra.
    - assert (inject_Z i * hop + hop <= inject_Z j * hop)%Q.
      { assert (E : (inject_Z i * hop + hop == (inject_Z i + 1) * hop)%Q) by ring.
        rewrite E. apply Qmult_le_compat_r; lra. }
      lra. }
  rewrite Zlt_Qlt in H.
  apply Qlt_shift_div_l; [reflexivity|].
  assert (E : (inject_Z (std_round (inject_Z i * hop * 1000000)) / 1000000 * 1000000
               == inject_Z (std_round (inject_Z i * hop * 1000000)))%Q) by field.
  rewrite E. exact H.
Qed.


Lemma roundToDecimals_rounded6 v : rounded6 (roundToDecimals v 6).
Proof. exists (std_round (v * 1000000)). apply roundToDecimals_6. Qed.

Lemma adjacent_snoc {A} (R : A -> A -> Prop) (l : list A) (d x : A) :
  l <> [] -> adjacent R l -> R (List.last l d) x -> adjacent R (l ++ [x]).
Proof.
  induction l as [|a l IH]; [congruence|]. intros _ [Ha Hl] Hlast.
  destruct l as [|b l].
  - simpl in *. auto.
  - change ((a :: b :: l) ++ [x]) with (a :: ((b :: l) ++ [x])).
    split; [exact Ha|]. apply IH; [discriminate|exact Hl|exact Hlast].
Qed.

Lemma StronglySorted_app_drop {A} (R : A -> A -> Prop) (l1 : list A) x l2 :
  StronglySorted R (l1 ++ x :: l2) -> StronglySorted R (l1 ++ l2).
Proof.
  induction l1 as [|a l1 IH]; simpl; intros H.
  - apply StronglySorted_inv in H. tauto.
  - apply StronglySorted_inv in H. destruct H as [H1 H2]. constructor; [auto|].
    rewrite List.Forall_app in *. destruct H2 as [H2 H3]. split; [exact H2|].
    inversion H3; assumption.
Qed.

Lemma compressLoop_invariant (rest acc : list TempoPoint) (front : TempoPoint) :
  acc <> [] -> adjacent farApart acc ->
  StronglySorted earlier (acc ++ rest) -> List.Forall pointOk (acc ++ rest) ->
  let out :=
    fold_left (fun compressed current =>
                 compressStep compressed (List.last compressed front) current) rest acc in
  out <> [] /\ adjacent farApart out /\ StronglySorted earlier out /\ List.Forall pointOk out.
Proof.
  revert acc. induction rest as [|current rest IH]; intros acc Hne Hadj Hs Hb; cbn zeta.
  - rewrite app_nil_r in *. simpl. auto.
  - cbn [fold_left].
    replace (compressStep acc (List.last acc front) current)
      with (if Qltb (timeSeconds current - timeSeconds (List.last acc front))
                kLocalTempoMinTimeDelta
              && Qltb (Qabs (bpm current - bpm (List.last acc front)))
                   kLocalTempoMinBpmDelta
            then acc else acc ++ [current]) by reflexivity.
    destruct (Qltb (timeSeconds current - timeSeconds (List.last acc front))
                kLocalTempoMinTimeDelta
              && Qltb (Qabs (bpm current - bpm (List.last acc front)))
                   kLocalTempoMinBpmDelta) eqn:E.
    + apply IH; auto.
      * eapply StronglySorted_app_drop; eauto.
      * rewrite List.Forall_app in *. destruct Hb as [H1 H2]. inversion H2; auto.
    + apply IH.
      * destruct acc; discriminate.
      * apply adjacent_snoc with front; auto.
        apply andb_false_iff in E. destruct E as [E|E]; apply Qltb_ge in E; [left|right]; exact E.
      * rewrite <- app_assoc. exact Hs.
      * rewrite <- app_assoc. exact Hb.
Qed.

Lemma StronglySorted_map_seqZ {A} (R : A -> A -> Prop) (f : Z -> A) (m n : Z) :
  (forall i j, m <= i < j -> j < m + n -> R (f i) (f j)) ->
  StronglySorted R (map f (seqZ m n)).
Proof.
  remember (Z.to_nat n) as k eqn:Hk. revert m n Hk.
  induction k as [|k IH]; intros m n Hk HR.
  - rewrite seqZ_nil by lia. constructor.
  - rewrite seqZ_cons by lia. simpl. constructor.
    + apply IH; [lia|]. intros i j Hi Hj. apply HR; lia.
    + rewrite List.Forall_forall. intros y Hy. apply in_map_iff in Hy.
      destruct Hy as [j [<- Hj]]. apply list_elem_of_In in Hj.
      apply elem_of_seqZ in Hj. apply HR; lia.
Qed.

Lemma compressTempoPoints_invariants (bpmSeries : list Q) (hopSeconds : Q) :
  (1 # 1000000 <= hopSeconds)%Q ->
  let out := compressTempoPoints bpmSeries hopSeconds in
  List.Forall pointOk out /\ StronglySorted earlier out /\ adjacent farApart out.
Proof.
  intros Hhop out. unfold out, compressTempoPoints.
  assert (StronglySorted earlier (rawTempoPoints bpmSeries hopSeconds)) as Hs.
  { apply StronglySorted_map_seqZ. intros i j Hi Hj. unfold earlier. cbn [timeSeconds].
    apply roundToDecimals_time_lt; [lia|exact Hhop]. }
  assert (List.Forall pointOk (rawTempoPoints bpmSeries hopSeconds)) as Hb.
  { rewrite List.Forall_forall. intros p Hp. apply in_map_iff in Hp.
    destruct Hp as [i [<- _]]. unfold pointOk. cbn [bpm timeSeconds].
    split; [|split; apply roundToDecimals_rounded6].
    apply roundToDecimals_bpm. apply clampDouble_bounds. unfold kTempoMinBpm, kTempoMaxBpm. lra. }
  destruct (rawTempoPoints bpmSeries hopSeconds) as [|front rest].
  - repeat constructor.
  - pose proof (compressLoop_invariant rest [front] front) as H.
    cbn zeta in H. destruct H as (_ & H1 & H2 & H3); try tauto.
    + discriminate.
    + simpl. auto.
Qed.

(** C3.  In every tempo map that [estimate] returns, each point has its bpm
    within [20, 300], times and bpm are multiples of 10^-6, the times are
    strictly increasing, and two consecutive points are at least 0.7 s apart
    or differ by at least 0.75 bpm. *)
Theorem estimate_tempoMap_invariants melEnergy session (samples : list Q) options result :
  estimate melEnergy session samples options = inr result ->
  List.Forall pointOk (tempoMap result) /\
  StronglySorted earlier (tempoMap result) /\
  adjacent farApart (tempoMap result).
Proof.
  unfold estimate. intros H.
  repeat match type of H with
         | (if ?c then _ else _) = _ => destruct c; try discriminate
         | match ?c with _ => _ end = _ => destruct c; try discriminate
         end;
    injection H as <-; cbn [tempoMap]; try (repeat constructor; fail).
  apply compressTempoPoints_invariants. vm_compute. discriminate.
Qed.

(** *** toSlidingWindows *)

Lemma size_copy_range src first n dst pos :
  0 <= first -> 0 <= n -> 0 <= pos ->
  first + n <= size src -> pos + n <= size dst ->
  size (copy_range src (Z.to_nat first) (Z.to_nat n) dst (Z.to_nat pos)) = size dst.
Proof.
  intros. unfold size, copy_range in *.
  rewrite !length_app, !length_take, !length_drop. lia.
Qed.

Lemma at_copy_range src first n dst pos x :
  0 <= first -> 0 <= n -> 0 <= pos -> 0 <= x ->
  first + n <= size src -> pos + n <= size dst ->
  at_ (copy_range src (Z.to_nat first) (Z.to_nat n) dst (Z.to_nat pos)) x
  = if (pos <=? x) && (x <? pos + n) then at_ src (first + (x - pos)) else at_ dst x.
Proof.
  intros. unfold size, copy_range, at_ in *.
  rewrite !nth_lookup.
  destruct (Z.leb_spec pos x); simpl.
  - rewrite lookup_app_r by (rewrite length_take; lia).
    rewrite length_take.
    destruct (Z.ltb_spec x (pos + n)).
    + rewrite lookup_app_l by (rewrite length_take, length_drop; lia).
      rewrite lookup_take_lt by lia. rewrite lookup_drop. do 2 f_equal. lia.
    + rewrite lookup_app_r by (rewrite length_take, length_drop; lia).
      rewrite length_take, length_drop, lookup_drop. do 2 f_equal. lia.
  - rewrite lookup_app_l by (rewrite length_take; lia).
    rewrite lookup_take_lt by lia. reflexivity.
Qed.

Lemma size_replicate n (x : Q) : 0 <= n -> size (replicate (Z.to_nat n) x) = n.
Proof. intros. unfold size. rewrite length_replicate. lia. Qed.

Lemma at_replicate n (x : Q) i : at_ (replicate n 0%Q) i = 0%Q.
Proof.
  unfold at_. rewrite nth_lookup.
  destruct (replicate n 0%Q !! Z.to_nat i) eqn:E; [|reflexivity].
  apply lookup_replicate in E. simpl. tauto.
Qed.

Lemma padLoop_spec src wf df shift (c : nat) :
  0 <= wf -> 0 <= shift -> shift + wf <= df -> kMelBands * wf <= size src ->
  Z.of_nat c <= kMelBands ->
  size (padLoop src wf df shift c) = kMelBands * df /\
  forall mel t, 0 <= mel < kMelBands -> 0 <= t < df ->
    at_ (padLoop src wf df shift c) (mel * df + t)
    = if (mel <? Z.of_nat c) && (shift <=? t) && (t <? shift + wf)
      then at_ src (mel * wf + (t - shift)) else 0%Q.
Proof.
  intros Hwf Hshift Hdf Hsrc. unfold padLoop, kMelBands in *.
  induction c as [|c IH]; intros Hc.
  - simpl. split; [apply size_replicate; lia|].
    intros mel t Hmel Ht. rewrite at_replicate; [|exact 0%Q]. split_cmp.
  - rewrite seqZ_S, fold_left_app. cbn [fold_left].
    destruct IH as [IHs IHa]; [lia|].
    rewrite Z.add_0_l.
    split.
    + rewrite size_copy_range; try lia; nia.
    + intros mel t Hmel Ht.
      rewrite at_copy_range; try nia.
      rewrite IHa by lia.
      destruct (Z.eq_dec mel (Z.of_nat c)) as [->|Hne].
      * split_cmp; try nia. f_equal. lia.
      * assert (mel < Z.of_nat c \/ Z.of_nat c < mel) as [Hlt|Hgt] by lia.
        -- replace ((Z.of_nat c * df + shift <=? mel * df + t)
                    && (mel * df + t <? Z.of_nat c * df + shift + wf)) with false.
           2:{ symmetry. apply andb_false_iff. left. apply Z.leb_gt. nia. }
           split_cmp.
        -- replace ((Z.of_nat c * df + shift <=? mel * df + t)
                    && (mel * df + t <? Z.of_nat c * df + shift + wf)) with false.
           2:{ symmetry. apply andb_false_iff. right. apply Z.ltb_ge. nia. }
           split_cmp.
Qed.

Lemma bandLoop_filled src wf hop W N w (b : nat) out :
  0 < W -> 0 <= hop -> 0 <= wf -> kMelBands * wf <= size src ->
  0 <= w < N -> w * hop + W <= wf -> Z.of_nat b <= kMelBands ->
  filled src wf hop W N out (fun w' _ => w' <? w) ->
  filled src wf hop W N (bandLoop src wf hop W w b out)
    (fun w' mel' => (w' <? w) || ((w' =? w) && (mel' <? Z.of_nat b))).
Proof.
  intros HW Hhop Hwf Hsrc Hw Hfit. unfold bandLoop, filled, kMelBands in *.
  induction b as [|b IH]; intros Hb [Hs Ha].
  - simpl. split; [exact Hs|]. intros w' mel k Hw' Hmel Hk. rewrite Ha by lia.
    split_cmp.
  - rewrite seqZ_S, fold_left_app. cbn [fold_left]. rewrite Z.add_0_l.
    destruct IH as [IHs IHa]; [lia|split; assumption|].
    split.
    + rewrite size_copy_range; try nia.
    + intros w' mel k Hw' Hmel Hk.
      rewrite at_copy_range; try nia.
      rewrite IHa by lia.
      set (B := w * 40 + Z.of_nat b). set (B' := w' * 40 + mel).
      destruct (Z.eq_dec B' B) as [E|E].
      * assert (w' = w /\ mel = Z.of_nat b) as [-> ->] by (unfold B, B' in E; lia).
        fold B. split_cmp; try nia. f_equal. lia.
      * assert (B' < B \/ B < B') as [Hlt|Hgt] by lia.
        -- replace ((B * W <=? B' * W + k) && (B' * W + k <? B * W + W)) with false.
           2:{ symmetry. apply andb_false_iff. left. apply Z.leb_gt. nia. }
           unfold B, B' in *. split_cmp.
        -- replace ((B * W <=? B' * W + k) && (B' * W + k <? B * W + W)) with false.
           2:{ symmetry. apply andb_false_iff. right. apply Z.ltb_ge. nia. }
           unfold B, B' in *. split_cmp.
Qed.

Lemma filled_ext src wf hop W N out P P' :
  (forall w mel, 0 <= w < N -> 0 <= mel < kMelBands -> P w mel = P' w mel) ->
  filled src wf hop W N out P -> filled src wf hop W N out P'.
Proof.
  intros HP [Hs Ha]. split; [exact Hs|]. intros w mel k Hw Hmel Hk.
  rewrite Ha by assumption. rewrite HP by assumption. reflexivity.
Qed.

Lemma windowLoop_filled src wf hop W N (c : nat) :
  0 < W -> 0 <= hop -> 0 <= wf -> kMelBands * wf <= size src ->
  0 <= N -> (forall w, 0 <= w < N -> w * hop + W <= wf) -> Z.of_nat c <= N ->
  filled src wf hop W N (windowLoop src wf hop W N c) (fun w _ => w <? Z.of_nat c).
Proof.
  intros HW Hhop Hwf Hsrc HN Hfit. unfold windowLoop.
  induction c as [|c IH]; intros Hc.
  - simpl. split.
    + apply size_replicate. unfold kMelBands. nia.
    + intros w mel k Hw Hmel Hk. rewrite at_replicate; [|exact 0%Q]. split_cmp.
  - rewrite seqZ_S, fold_left_app. cbn [fold_left]. rewrite Z.add_0_l.
    eapply filled_ext; [|apply (bandLoop_filled src wf hop W N (Z.of_nat c));
                          try assumption; try lia; [apply Hfit; lia|unfold kMelBands; lia|apply IH; lia]].
    intros w mel Hw Hmel. cbv beta. unfold kMelBands in *.
    replace (Z.of_nat (Z.to_nat 40)) with 40 by lia. split_cmp.
Qed.

Lemma padBands_spec src wf df shift :
  0 <= wf -> 0 <= shift -> shift + wf <= df -> kMelBands * wf <= size src ->
  size (padBands src wf df shift) = kMelBands * df /\
  forall mel t, 0 <= mel < kMelBands -> 0 <= t < df ->
    at_ (padBands src wf df shift) (mel * df + t)
    = if (shift <=? t) && (t <? shift + wf)
      then at_ src (mel * wf + (t - shift)) else 0%Q.
Proof.
  intros H1 H2 H3 H4.
  destruct (padLoop_spec src wf df shift (Z.to_nat kMelBands) H1 H2 H3 H4) as [Hs Ha].
  { unfold kMelBands. lia. }
  change (padLoop src wf df shift (Z.to_nat kMelBands)) with (padBands src wf df shift) in *.
  split; [exact Hs|]. intros mel t Hmel Ht. rewrite Ha by assumption.
  unfold kMelBands in *. split_cmp.
Qed.

Lemma windows_fit wf hop W w :
  0 < hop -> W <= wf -> 0 <= w < Z.quot (wf - W) hop + 1 -> w * hop + W <= wf.
Proof.
  intros Hhop HW Hw. rewrite Z.quot_div_nonneg in Hw by lia.
  pose proof (Z.mul_div_le (wf - W) hop Hhop). nia.
Qed.

Lemma quot_succ_nonneg a b : 0 <= a -> 0 < b -> 0 <= Z.quot a b + 1.
Proof.
  intros Ha Hb. rewrite Z.quot_div_nonneg by lia.
  pose proof (Z.div_pos a b Ha Hb). lia.
Qed.

(** The windows the builder returns: their number, the size of the buffer and
    the frame each cell holds. *)
Lemma toSlidingWindows_windows (features : FeatureTensor) (hopFrames : Z) (zeroPad : bool) :
  0 < totalFrames features ->
  size (data features) = kMelBands * totalFrames features ->
  let T' := workingLength (totalFrames features) zeroPad in
  let safeHop := Z.max 1 hopFrames in
  let out := toSlidingWindows features kWindowFrames hopFrames zeroPad in
  numWindows out = (T' - kWindowFrames) / safeHop + 1 /\
  size (wdata out) = numWindows out * kMelBands * kWindowFrames /\
  (forall n mel k,
      0 <= n < numWindows out -> 0 <= mel < kMelBands -> 0 <= k < kWindowFrames ->
      at_ (wdata out) ((n * kMelBands + mel) * kWindowFrames + k)
      = workingFrame features zeroPad mel (n * safeHop + k)).
Proof.
  intros HT Hsize T' safeHop out.
  destruct features as [dat T]. cbn [totalFrames data] in *.
  assert (exists wd wf,
    out = {| wdata := windowLoop wd wf safeHop kWindowFrames
                        (Z.quot (wf - kWindowFrames) safeHop + 1)
                        (Z.to_nat (Z.quot (wf - kWindowFrames) safeHop + 1));
             numWindows := Z.quot (wf - kWindowFrames) safeHop + 1 |}
    /\ wf = T' /\ kMelBands * wf <= size wd
    /\ forall mel t, 0 <= mel < kMelBands -> 0 <= t < wf ->
         at_ wd (mel * wf + t)
         = workingFrame {| data := dat; totalFrames := T |} zeroPad mel t)
    as (wd & wf & Hout & Hwf & Hwd & Hat).
  { subst out. unfold toSlidingWindows. cbn [totalFrames data].
    replace ((T <=? 0) || isEmpty dat) with false.
    2:{ symmetry. apply orb_false_iff. split; [lia|].
        destruct dat; [unfold size, kMelBands in Hsize; simpl in Hsize; lia|reflexivity]. }
    unfold T', workingLength, workingFrame, kWindowFrames in *. cbn [totalFrames data].
    destruct zeroPad.
    - change (Z.quot 256 2) with 128.
      destruct (padBands_spec dat T (T + 256) 128) as [Ps Pa]; try lia.
      replace (T + 256 <? 256) with false by lia.
      exists (padBands dat T (T + 256) 128), (T + 256).
      split; [unfold windowLoop, bandLoop; rewrite !Z2Nat.id by (first [apply quot_succ_nonneg; lia | unfold kMelBands; lia]); reflexivity|].
      split; [lia|]. split; [lia|].
      intros mel t Hmel Ht. rewrite Pa by lia. reflexivity.
    - destruct (Z.ltb_spec T 256).
      + destruct (padBands_spec dat T 256 0) as [Ps Pa]; try lia.
        exists (padBands dat T 256 0), 256.
        split; [unfold windowLoop, bandLoop; rewrite !Z2Nat.id by (first [apply quot_succ_nonneg; lia | unfold kMelBands; lia]); reflexivity|].
        split; [lia|]. split; [lia|].
        intros mel t Hmel Ht. rewrite Pa by lia. reflexivity.
      + exists dat, T.
        split; [unfold windowLoop, bandLoop; rewrite !Z2Nat.id by (first [apply quot_succ_nonneg; lia | unfold kMelBands; lia]); reflexivity|].
        split; [lia|]. split; [lia|].
        intros mel t Hmel Ht. replace ((0 <=? t) && (t <? 0 + T)) with true by lia.
        do 2 f_equal. lia. }
  assert (256 <= wf) as Hwf256 by (subst wf; unfold T', workingLength, kWindowFrames; lia).
  assert (0 < safeHop) as Hhop by (unfold safeHop; lia).
  assert (0 <= Z.quot (wf - kWindowFrames) safeHop) as HN.
  { unfold kWindowFrames. rewrite Z.quot_div_nonneg by lia. apply Z.div_pos; lia. }
  assert (filled wd wf safeHop kWindowFrames (Z.quot (wf - kWindowFrames) safeHop + 1)
            (windowLoop wd wf safeHop kWindowFrames
               (Z.quot (wf - kWindowFrames) safeHop + 1)
               (Z.to_nat (Z.quot (wf - kWindowFrames) safeHop + 1)))
            (fun w _ => w <? Z.of_nat (Z.to_nat (Z.quot (wf - kWindowFrames) safeHop + 1))))
    as [Fs Fa].
  { apply windowLoop_filled; try lia; try (unfold kWindowFrames; lia); try assumption.
    intros w Hw. apply windows_fit; [lia|unfold kWindowFrames; lia|exact Hw]. }
  rewrite Hout. cbn [numWindows wdata]. subst wf.
  assert (forall n, 0 <= n < Z.quot (T' - kWindowFrames) safeHop + 1 ->
                    n * safeHop + kWindowFrames <= T') as Hfit.
  { intros n Hn. apply windows_fit; [lia|unfold kWindowFrames; lia|exact Hn]. }
  assert (Z.quot (T' - kWindowFrames) safeHop = (T' - kWindowFrames) / safeHop) as Hq.
  { unfold kWindowFrames. apply Z.quot_div_nonneg; lia. }
  rewrite Hq in *. clear Hq Hout.
  generalize dependent ((T' - kWindowFrames) / safeHop). intros q Fa Fs HN Hfit.
  split; [reflexivity|]. split; [exact Fs|].
  intros n mel k Hn Hmel Hk. rewrite Fa by assumption.
  rewrite Z2Nat.id by lia.
  replace (n <? q + 1) with true by (symmetry; apply Z.ltb_lt; lia).
  rewrite <- Z.add_assoc. apply Hat; [assumption|].
  specialize (Hfit n Hn). unfold kWindowFrames in *. lia.
Qed.

(** C5, as the code has it.  For a tensor of [T >= 1] frames the builder cuts
    its windows from a time axis that holds, with [zeroPad], 128 zero frames,
    the [T] frames and 128 zero frames, and that is filled with zeros on the
    right up to 256 frames when shorter; it returns
    [(T' - 256) / max 1 H + 1] windows, window [n] holding the 256 frames from
    offset [n * max 1 H]; without [zeroPad] an input shorter than one window
    gives exactly one window. *)
Theorem toSlidingWindows_spec (features : FeatureTensor) (hopFrames : Z) (zeroPad : bool) :
  0 < totalFrames features ->
  size (data features) = kMelBands * totalFrames features ->
  let T' := workingLength (totalFrames features) zeroPad in
  let safeHop := Z.max 1 hopFrames in
  let out := toSlidingWindows features kWindowFrames hopFrames zeroPad in
  numWindows out = (T' - kWindowFrames) / safeHop + 1 /\
  size (wdata out) = numWindows out * kMelBands * kWindowFrames /\
  (forall n mel k,
      0 <= n < numWindows out -> 0 <= mel < kMelBands -> 0 <= k < kWindowFrames ->
      at_ (wdata out) ((n * kMelBands + mel) * kWindowFrames + k)
      = workingFrame features zeroPad mel (n * safeHop + k)) /\
  (zeroPad = false -> totalFrames features < kWindowFrames -> numWindows out = 1).
Proof.
  intros HT Hsize T' safeHop out.
  destruct (toSlidingWindows_windows features hopFrames zeroPad HT Hsize) as (HN & Hsz & Hat).
  fold out in HN, Hsz, Hat. fold T' safeHop in HN. fold safeHop in Hat.
  split; [exact HN|]. split; [exact Hsz|]. split; [exact Hat|].
  intros Hpad Hshort. rewrite HN. subst T'. rewrite Hpad.
  unfold workingLength, kWindowFrames in *.
  replace (Z.max (totalFrames features) 256 - 256) with 0 by lia. reflexivity.
Qed.


(** *** computeMelSpectrogram and the short input *)

Lemma length_fold_left_preserve {A B} (f : list A -> B -> list A) (l : list B) init :
  (forall acc x, length (f acc x) = length acc) ->
  length (fold_left f l init) = length init.
Proof.
  intros Hf. revert init. induction l as [|x l IH]; intros init; simpl; [reflexivity|].
  rewrite IH. apply Hf.
Qed.

Lemma computeMelSpectrogram_frames melEnergy (samples : list Q) :
  samples <> [] ->
  totalFrames (computeMelSpectrogram melEnergy samples) = 1 + size samples / kStftHopLength /\
  size (data (computeMelSpectrogram melEnergy samples))
  = kMelBands * totalFrames (computeMelSpectrogram melEnergy samples).
Proof.
  intros Hne. unfold computeMelSpectrogram.
  destruct samples as [|s samples]; [congruence|]. cbn [isEmpty].
  set (n := length (s :: samples)).
  assert (size (copy_range (s :: samples) 0 n
                  (replicate (n + Z.to_nat (Z.quot kNfft 2 * 2)) 0%Q)
                  (Z.to_nat (Z.quot kNfft 2))) = Z.of_nat n + 1024) as Hpad.
  { unfold size, copy_range. change (Z.to_nat (Z.quot kNfft 2 * 2)) with 1024%nat.
    change (Z.to_nat (Z.quot kNfft 2)) with 512%nat.
    rewrite !length_app, !length_take, !length_drop, length_replicate. fold n. lia. }
  rewrite Hpad. unfold kNfft, kStftHopLength, kMelBands.
  replace (Z.of_nat n + 1024 <? 1024) with false by lia.
  cbn [totalFrames data]. unfold size at 1 2. fold n.
  replace (Z.of_nat n + 1024 - 1024) with (Z.of_nat n) by lia.
  split; [reflexivity|].
  unfold size. rewrite length_fold_left_preserve.
  - rewrite length_replicate. pose proof (Z.div_pos (Z.of_nat n) 512). lia.
  - intros acc x. apply length_fold_left_preserve. intros acc' y. apply length_insert.
Qed.

Lemma windows_nonempty (features : FeatureTensor) (hopFrames : Z) (zeroPad : bool) :
  0 < totalFrames features ->
  size (data features) = kMelBands * totalFrames features ->
  (numWindows (toSlidingWindows features kWindowFrames hopFrames zeroPad) <=? 0) = false /\
  isEmpty (wdata (toSlidingWindows features kWindowFrames hopFrames zeroPad)) = false.
Proof.
  intros HT Hs.
  destruct (toSlidingWindows_windows features hopFrames zeroPad HT Hs) as (HN & Hsz & _).
  cbv zeta in HN, Hsz.
  assert (0 <= (workingLength (totalFrames features) zeroPad - kWindowFrames)
               / Z.max 1 hopFrames) as Hq.
  { apply Z.div_pos; [unfold workingLength; lia|lia]. }
  split; [lia|].
  rewrite HN in Hsz.
  destruct (wdata (toSlidingWindows features kWindowFrames hopFrames zeroPad));
    [|reflexivity].
  unfold size in Hsz. simpl in Hsz. unfold kMelBands in Hsz.
  change kWindowFrames with 256 in *. lia.
Qed.

Lemma runModel_answers session input n :
  answers session -> (n <=? 0) = false -> exists p, runModel session input n = inr p.
Proof.
  intros Hs Hn. unfold runModel. rewrite Hn.
  destruct (Hs input n) as (t & -> & Hshape).
  rewrite bool_decide_eq_true_2 by exact Hshape. eauto.
Qed.

Lemma estimate_answers melEnergy session (samples : list Q) options :
  samples <> [] -> answers session ->
  exists result, estimate melEnergy session samples options = inr result.
Proof.
  intros Hne Hs.
  destruct (computeMelSpectrogram_frames melEnergy samples Hne) as [HT Hsz].
  assert (0 < totalFrames (computeMelSpectrogram melEnergy samples)) as Hpos.
  { rewrite HT. pose proof (Z.div_pos (size samples) kStftHopLength).
    unfold size, kStftHopLength in *. lia. }
  unfold estimate.
  destruct samples as [|s samples]; [congruence|]. cbn [isEmpty].
  set (mel := computeMelSpectrogram melEnergy (s :: samples)) in *.
  replace (totalFrames mel <=? 0) with false by lia.
  replace (isEmpty (data mel)) with false.
  2:{ destruct (data mel); [|reflexivity]. unfold size, kMelBands in Hsz. simpl in Hsz. lia. }
  cbn [orb].
  destruct (windows_nonempty mel kGlobalHopFrames false Hpos Hsz) as [-> ->]. cbn [orb].
  destruct (runModel_answers session
              (normalizeByMax (wdata (toSlidingWindows mel kWindowFrames kGlobalHopFrames false)))
              (numWindows (toSlidingWindows mel kWindowFrames kGlobalHopFrames false)) Hs)
    as [p ->].
  { apply (windows_nonempty mel kGlobalHopFrames false Hpos Hsz). }
  destruct (localTempo options); [|eauto].
  destruct (windows_nonempty mel kLocalHopFrames true Hpos Hsz) as [Hn He].
  rewrite He. replace (0 <? numWindows (toSlidingWindows mel kWindowFrames kLocalHopFrames true))
    with true by lia.
  cbn [andb negb].
  destruct (runModel_answers session
              (normalizeByMax (wdata (toSlidingWindows mel kWindowFrames kLocalHopFrames true)))
              (numWindows (toSlidingWindows mel kWindowFrames kLocalHopFrames true)) Hs Hn)
    as [q ->].
  eauto.
Qed.

(** C4, as the code has it.  A non-empty input of [n < 1024] samples is padded
    by 512 zeros on each side before it is framed: the mel stage returns
    [1 + n / 512] frames (one or two) of 40 bands, and [estimate] goes on to
    the model, returning a tempo result whenever the model answers. *)
Theorem short_input_has_frames melEnergy session (samples : list Q) options :
  samples <> [] -> (length samples < 1024)%nat -> answers session ->
  totalFrames (computeMelSpectrogram melEnergy samples) = 1 + size samples / kStftHopLength /\
  1 <= totalFrames (computeMelSpectrogram melEnergy samples) <= 2 /\
  size (data (computeMelSpectrogram melEnergy samples))
  = kMelBands * totalFrames (computeMelSpectrogram melEnergy samples) /\
  exists result, estimate melEnergy session samples options = inr result.
Proof.
  intros Hne Hlen Hs.
  destruct (computeMelSpectrogram_frames melEnergy samples Hne) as [HT Hsz].
  split; [exact HT|]. split; [|split; [exact Hsz|]].
  - rewrite HT. unfold size, kStftHopLength.
    pose proof (Z.div_pos (Z.of_nat (length samples)) 512).
    assert (Z.of_nat (length samples) / 512 < 2) by (apply Z.div_lt_upper_bound; lia).
    lia.
  - apply estimate_answers; assumption.
Qed.

(** The empty input is the one that gives an empty tensor and the
    empty-input error. *)
Lemma empty_input melEnergy session options :
  computeMelSpectrogram melEnergy [] = {| data := []; totalFrames := 0 |} /\
  estimate melEnergy session [] options = inl (runtime_error "Input audio is empty.").
Proof. split; reflexivity. Qed.

Lemma peakSession_answers : answers peakSession.
Proof. intros input n. eexists. split; reflexivity. Qed.

(** One sample: one frame of 40 bands, and a tempo result. *)
Lemma short_input_has_frames_witness :
  totalFrames (computeMelSpectrogram unitKernel [1%Q]) = 1 /\
  exists result, estimate unitKernel peakSession [1%Q] bothOptions = inr result.
Proof.
  destruct (short_input_has_frames unitKernel peakSession [1%Q] bothOptions)
    as (H1 & _ & _ & H2).
  - discriminate.
  - simpl. lia.
  - exact peakSession_answers.
  - split; [exact H1|exact H2].
Defined.

(** C4 refuted as stated: a one-sample input does not give an empty mel
    tensor, and [estimate] returns a result instead of raising. *)
Lemma short_input_mel_not_empty :
  ~ (forall melEnergy session (samples : list Q) options,
       samples <> [] -> (length samples < 1024)%nat ->
       data (computeMelSpectrogram melEnergy samples) = [] /\
       estimate melEnergy session samples options
       = inl (runtime_error "Input audio is empty.")).
Proof.
  intros H.
  destruct (H unitKernel peakSession [1%Q] bothOptions) as [Hmel _].
  - discriminate.
  - simpl. lia.
  - vm_compute in Hmel. discriminate.
Qed.

(** C5 refuted as stated: with [zeroPad] a 32-frame input, shorter than one
    window, gives two windows at hop 32. *)
Lemma zeroPad_short_input_two_windows :
  totalFrames {| data := replicate 1280 1%Q; totalFrames := 32 |} < kWindowFrames /\
  numWindows (toSlidingWindows {| data := replicate 1280 1%Q; totalFrames := 32 |}
                kWindowFrames kLocalHopFrames true) <> 1.
Proof. vm_compute. split; [reflexivity|discriminate]. Qed.

(** A hop below 1 is clamped to 1: at hop 0 a 257-frame input gives two
    windows, the second one starting at frame 1, not at [1 * 0]. *)
Example clamped_hop_offset :
  let features := {| data := map inject_Z (seqZ 0 (40 * 257)); totalFrames := 257 |} in
  let out := toSlidingWindows features kWindowFrames 0 false in
  numWindows out = 2 /\ at_ (wdata out) (40 * 256) = 1%Q /\ at_ (data features) 0 = 0%Q.
Proof. vm_compute. repeat split. Qed.

Lemma toSlidingWindows_spec_witness :
  numWindows (toSlidingWindows {| data := replicate 1280 1%Q; totalFrames := 32 |}
                kWindowFrames kGlobalHopFrames false) = 1.
Proof.
  destruct (toSlidingWindows_spec {| data := replicate 1280 1%Q; totalFrames := 32 |}
              kGlobalHopFrames false) as (_ & _ & _ & H).
  - reflexivity.
  - reflexivity.
  - apply H; reflexivity.
Defined.

(** The tempo map of the 20000-sample input has two points, and they satisfy
    the invariants. *)
Lemma estimate_tempoMap_invariants_witness :
  length (tempoMap sampleEstimate) = 2%nat /\
  List.Forall pointOk (tempoMap sampleEstimate) /\
  StronglySorted earlier (tempoMap sampleEstimate) /\
  adjacent farApart (tempoMap sampleEstimate).
Proof.
  split; [reflexivity|].
  apply (estimate_tempoMap_invariants unitKernel peakSession longInput bothOptions).
  vm_compute. reflexivity.
Defined.

End TempoFacts.

(** ** Facts about the note pipeline *)
Module NeuralNoteFacts.
Import NeuralNote NeuralNoteSample.
Local Open Scope Z_scope.

(** *** Rings *)

Lemma ring_init {V} (fill : V) (written : nat -> V) (d : nat) :
  ringInv fill written d (replicate d fill) 0.
Proof.
  split; [apply length_replicate|]. split.
  - intros j Hj. lia.
  - intros s Hs. apply lookup_replicate_2. lia.
Qed.

Lemma ring_write {V} (fill : V) (written : nat -> V) (d : nat) (buf : list V) (k : nat) :
  (0 < d)%nat -> ringInv fill written d buf k ->
  ringInv fill written d (<[(k mod d)%nat := written k]> buf) (S k).
Proof.
  intros Hd (Hlen & Hold & Hfill).
  assert (k mod d < d)%nat as Hk by (apply Nat.mod_upper_bound; lia).
  split; [rewrite length_insert; exact Hlen|]. split.
  - intros j Hj Hjd. destruct (Nat.eq_dec j k) as [->|Hne].
    + apply list_lookup_insert_eq. lia.
    + rewrite list_lookup_insert_ne.
      * apply Hold; lia.
      * intros E.
        assert (j + d * (k / d) = k + d * (j / d))%nat as Hdiv.
        { rewrite (Nat.div_mod_eq k d) at 2. rewrite (Nat.div_mod_eq j d) at 1. lia. }
        assert (k / d = j / d)%nat; [|nia].
        assert (j / d <= k / d)%nat by (apply Nat.Div0.div_le_mono; lia).
        nia.
  - intros s Hs. rewrite list_lookup_insert_ne.
    + apply Hfill. lia.
    + rewrite Nat.mod_small by lia. lia.
Qed.

Lemma ring_read {V} (fill : V) (written : nat -> V) (d : nat) (buf : list V) (k : nat) :
  (0 < d)%nat -> ringInv fill written d buf (S k) ->
  buf !! ((k + 1) mod d)%nat
  = Some (delayed (Z.of_nat d) fill written k).
Proof.
  intros Hd (Hlen & Hold & Hfill). unfold delayed.
  destruct (Z.ltb_spec (Z.of_nat k) (Z.of_nat d - 1)).
  - rewrite Nat.mod_small by lia. apply Hfill. lia.
  - replace (Z.to_nat (Z.of_nat d - 1)) with (d - 1)%nat by lia.
    rewrite <- (Hold (k - (d - 1))%nat) by lia.
    f_equal. replace (k + 1)%nat with ((k - (d - 1)) + 1 * d)%nat by lia.
    apply Nat.Div0.mod_add.
Qed.

Lemma wrapIndex_mod (h d : Z) : 0 <= h -> 0 < d -> _wrapIndex h d = h mod d.
Proof.
  intros Hh Hd. unfold _wrapIndex. rewrite Z.rem_mod_nonneg by lia.
  pose proof (Z.mod_pos_bound h d Hd). replace (h mod d <? 0) with false by lia.
  reflexivity.
Qed.

Lemma advance_mod (h d : Z) : 0 <= h < d -> advance h d = (h + 1) mod d.
Proof.
  intros Hh. unfold advance. destruct (Z.eqb_spec h (d - 1)) as [->|Hne].
  - replace (d - 1 + 1) with d by lia. rewrite Z.mod_same by lia. reflexivity.
  - rewrite Z.mod_small by lia. reflexivity.
Qed.

Lemma of_nat_mod_succ (k d : nat) :
  (0 < d)%nat -> (Z.of_nat (k mod d) + 1) mod Z.of_nat d = Z.of_nat (S k mod d).
Proof.
  intros Hd. rewrite !Nat2Z.inj_mod. replace (Z.of_nat (S k)) with (Z.of_nat k + 1) by lia.
  rewrite Z.add_mod_idemp_l by lia. reflexivity.
Qed.

Section CNN.
Context {F : Type} (zero : F) {NetState : Type}.
Variables contourNet noteNet onsetInputNet onsetOutputNet : @Net F NetState.
Variables mNumContourStored mNumNoteStored mNumConcat2Stored : Z.

Local Abbreviation CNN := (@BasicPitchCNN F NetState).
Local Abbreviation reset :=
  (reset zero contourNet noteNet onsetInputNet onsetOutputNet
     mNumContourStored mNumNoteStored mNumConcat2Stored).
Local Abbreviation frameInference :=
  (frameInference zero contourNet noteNet onsetInputNet onsetOutputNet
     mNumContourStored mNumNoteStored mNumConcat2Stored).
Local Abbreviation stepCNN :=
  (stepCNN zero contourNet noteNet onsetInputNet onsetOutputNet
     mNumContourStored mNumNoteStored mNumConcat2Stored).
Local Abbreviation cnnAfter :=
  (cnnAfter zero contourNet noteNet onsetInputNet onsetOutputNet
     mNumContourStored mNumNoteStored mNumConcat2Stored).
Local Abbreviation cnnInv :=
  (cnnInv zero contourNet noteNet onsetInputNet onsetOutputNet
     mNumContourStored mNumNoteStored mNumConcat2Stored).
Local Abbreviation contourOutputs := (contourOutputs contourNet).
Local Abbreviation noteOutputs := (noteOutputs noteNet).
Local Abbreviation onsetInputOutputs := (onsetInputOutputs onsetInputNet).
Local Abbreviation onsetOutputs := (onsetOutputs onsetOutputNet).

Hypothesis contourDepth : 0 < mNumContourStored.
Hypothesis noteDepth : 0 < mNumNoteStored.
Hypothesis concat2Depth : 0 < mNumConcat2Stored.

Lemma length_range (p : @Ptr F) n : length (range p n) = n.
Proof. unfold range. rewrite length_map, length_seq. reflexivity. Qed.

Lemma copy_at_all (dst src : list F) : length src = length dst -> copy_at dst 0 src = src.
Proof.
  intros H. unfold copy_at. rewrite take_0, drop_ge by lia. apply app_nil_r.
Qed.

Lemma rowsOk_zeroRows : rowsOk (zeroRows zero).
Proof. repeat split; apply length_replicate. Qed.

(** [frameInference] on rows of the right widths: the state after does not
    depend on the rows it writes. *)
Lemma frameInference_rowsOk (cnn : CNN) (inData : @Ptr F) (out : Rows) :
  rowsOk out ->
  exists rows, frameInference cnn inData out = inr (stepCNN cnn inData, rows).
Proof.
  intros (H1 & H2 & H3). unfold NeuralNote.frameInference.
  rewrite !bool_decide_eq_true_2 by assumption.
  cbn [andb negb]. eexists. reflexivity.
Qed.

(** What one frame does to the state, field by field. *)
Lemma stepCNN_fields (cnn : CNN) (inData : @Ptr F) :
  let cnn' := stepCNN cnn inData in
  mContourIdx cnn' = advance (mContourIdx cnn) mNumContourStored /\
  mNoteIdx cnn' = advance (mNoteIdx cnn) mNumNoteStored /\
  mConcat2Idx cnn' = advance (mConcat2Idx cnn) mNumConcat2Stored /\
  mContoursCircularBuffer cnn'
  = <[Z.to_nat (mContourIdx cnn) := contourOutputs cnn']> (mContoursCircularBuffer cnn) /\
  mNotesCircularBuffer cnn'
  = <[Z.to_nat (mNoteIdx cnn) := noteOutputs cnn']> (mNotesCircularBuffer cnn) /\
  mConcat2CircularBuffer cnn'
  = <[Z.to_nat (mConcat2Idx cnn) := onsetInputOutputs cnn']> (mConcat2CircularBuffer cnn).
Proof. repeat split. Qed.

Lemma cnnInv_all (inputs : nat -> @Ptr F) (cnn0 : CNN) (k : nat) : cnnInv inputs cnn0 k.
Proof.
  induction k as [|k IH].
  - unfold NeuralNote.cnnInv. cbn [NeuralNote.cnnAfter].
    unfold NeuralNote.reset.
    cbn [mContourIdx mNoteIdx mConcat2Idx mContoursCircularBuffer mNotesCircularBuffer
         mConcat2CircularBuffer].
    rewrite !Nat.Div0.mod_0_l. repeat split; try reflexivity; try apply length_replicate;
      try (intros; lia); try (intros; apply lookup_replicate_2; lia).
  - destruct IH as (Hc & Hn & Ho & Rc & Rn & Ro).
    unfold NeuralNote.cnnInv. cbn [NeuralNote.cnnAfter].
    destruct (stepCNN_fields (cnnAfter inputs cnn0 k) (inputs k))
      as (Ec & En & Eo & Bc & Bn & Bo).
    cbv zeta in Ec, En, Eo, Bc, Bn, Bo.
    assert (forall d, 0 < d -> (0 < Z.to_nat d)%nat) as Hpos by (intros; lia).
    assert (forall d, 0 < d -> 0 <= Z.of_nat (k mod Z.to_nat d) < d) as Hbound.
    { intros d Hd. pose proof (Nat.mod_upper_bound k (Z.to_nat d)). lia. }
    assert (forall d, 0 < d ->
              advance (Z.of_nat (k mod Z.to_nat d)) d = Z.of_nat (S k mod Z.to_nat d)) as Hadv.
    { intros d Hd. rewrite advance_mod by (apply Hbound; exact Hd).
      rewrite <- of_nat_mod_succ by lia. rewrite Z2Nat.id by lia. reflexivity. }
    rewrite Ec, En, Eo, Bc, Bn, Bo, Hc, Hn, Ho, !Nat2Z.id.
    split; [apply Hadv; assumption|]. split; [apply Hadv; assumption|].
    split; [apply Hadv; assumption|].
    split; [|split].
    + apply (ring_write _ (fun j => contourOutputs (cnnAfter inputs cnn0 (S j))));
        [apply Hpos; assumption|exact Rc].
    + apply (ring_write _ (fun j => noteOutputs (cnnAfter inputs cnn0 (S j))));
        [apply Hpos; assumption|exact Rn].
    + apply (ring_write _ (fun j => onsetInputOutputs (cnnAfter inputs cnn0 (S j))));
        [apply Hpos; assumption|exact Ro].
Qed.

Lemma runModels_heads (cnn : CNN) :
  let cnn1 := _runModels zero contourNet noteNet onsetInputNet onsetOutputNet
                mNumConcat2Stored cnn in
  mContourIdx cnn1 = mContourIdx cnn /\ mNoteIdx cnn1 = mNoteIdx cnn
  /\ mConcat2Idx cnn1 = mConcat2Idx cnn.
Proof. repeat split. Qed.

Lemma frameInference_rows (cnn : CNN) (inData : @Ptr F) (out : Rows) :
  rowsOk out ->
  frameInference cnn inData out
  = inr (stepCNN cnn inData,
         {| outContours :=
              copy_at (outContours out) 0
                (slotAhead (mContoursCircularBuffer (stepCNN cnn inData))
                   (mContourIdx cnn) mNumContourStored);
            outNotes :=
              copy_at (outNotes out) 0
                (slotAhead (mNotesCircularBuffer (stepCNN cnn inData))
                   (mNoteIdx cnn) mNumNoteStored);
            outOnsets :=
              copy_at (outOnsets out) 0 (onsetOutputs (stepCNN cnn inData)) |}).
Proof.
  intros (H1 & H2 & H3). unfold NeuralNote.frameInference.
  rewrite !bool_decide_eq_true_2 by assumption.
  cbn [andb negb]. cbv zeta.
  unfold NeuralNote.stepCNN, NeuralNote.onsetOutputs, NeuralNote.advanceHeads.
  cbn [mContoursCircularBuffer mNotesCircularBuffer mCNNOnsetOutput].
  destruct (runModels_heads (loadInput cnn inData)) as (-> & -> & _).
  reflexivity.
Qed.

Lemma slotAhead_delayed {V : Type} `{Inhabited V} (fill : V) (written : nat -> V)
    (depth : Z) (buf : list V) (k : nat) :
  0 < depth ->
  ringInv fill written (Z.to_nat depth) buf (S k) ->
  buf !!! Z.to_nat (_wrapIndex (Z.of_nat (k mod Z.to_nat depth) + 1) depth)
  = delayed depth fill written k.
Proof.
  intros Hd Hring. apply list_lookup_total_correct.
  rewrite wrapIndex_mod by lia.
  replace ((Z.of_nat (k mod Z.to_nat depth) + 1) mod depth)
    with (Z.of_nat (S k mod Z.to_nat depth)).
  2:{ rewrite <- of_nat_mod_succ by lia. rewrite Z2Nat.id by lia. reflexivity. }
  rewrite Nat2Z.id. replace (S k) with (k + 1)%nat by lia.
  rewrite (ring_read fill written) by (first [lia | assumption]).
  rewrite Z2Nat.id by lia. reflexivity.
Qed.

Lemma length_delayed (depth : Z) (fill : list F) (written : nat -> list F) (k n : nat) :
  length fill = n -> (forall j, length (written j) = n) ->
  length (delayed depth fill written k) = n.
Proof. intros Hf Hw. unfold delayed. destruct (_ <? _); auto. Qed.

Lemma frameInference_stream (inputs : nat -> @Ptr F) (cnn0 : CNN) (k : nat) (out : Rows) :
  rowsOk out ->
  frameInference (cnnAfter inputs cnn0 k) (inputs k) out
  = inr (cnnAfter inputs cnn0 (S k),
         {| outContours :=
              delayed mNumContourStored (replicate NUM_FREQ_IN zero)
                (fun j => contourOutputs (cnnAfter inputs cnn0 (S j))) k;
            outNotes :=
              delayed mNumNoteStored (replicate NUM_FREQ_OUT zero)
                (fun j => noteOutputs (cnnAfter inputs cnn0 (S j))) k;
            outOnsets := onsetOutputs (cnnAfter inputs cnn0 (S k)) |}).
Proof.
  intros Hout.
  destruct (cnnInv_all inputs cnn0 k) as (Hc & Hn & _).
  destruct (cnnInv_all inputs cnn0 (S k)) as (_ & _ & _ & Rc' & Rn' & _).
  rewrite (frameInference_rows _ (inputs k) out Hout).
  change (stepCNN (cnnAfter inputs cnn0 k) (inputs k)) with (cnnAfter inputs cnn0 (S k)).
  unfold slotAhead. rewrite Hc, Hn.
  rewrite (slotAhead_delayed _ _ _ _ k contourDepth Rc').
  rewrite (slotAhead_delayed _ _ _ _ k noteDepth Rn').
  destruct Hout as (H1 & H2 & H3).
  rewrite !copy_at_all; [reflexivity| | |].
  - rewrite H3. apply length_range.
  - rewrite H2. apply length_delayed; [apply length_replicate|].
    intros j. apply length_range.
  - rewrite H1. apply length_delayed; [apply length_replicate|].
    intros j. apply length_range.
Qed.

End CNN.

(** *** The diagnostic channel is a side channel *)

Section Effects.
Variable diagEnv : option string.

Local Abbreviation effects := (effects diagEnv).
Local Abbreviation quiet := (quiet diagEnv).

Lemma effects_ret {A} (a : A) : effects (mret a) (inr a) [] [] [].
Proof.
  intros w. cbn. rewrite !app_nil_r. repeat split. exists []. rewrite app_nil_r. auto.
Qed.

Lemma effects_throw {A} (e : exn) : effects (@throw A e) (inl e) [] [] [].
Proof.
  intros w. cbn. rewrite !app_nil_r. repeat split. exists []. rewrite app_nil_r. auto.
Qed.

Lemma effects_lift {A} (r : exn + A) : effects (lift r) r [] [] [].
Proof.
  intros w. cbn. rewrite !app_nil_r. repeat split. exists []. rewrite app_nil_r. auto.
Qed.

Lemma effects_bind_ok {A B} (m : M A) (k : A -> M B) a r P1 E1 W1 P2 E2 W2 :
  effects m (inr a) P1 E1 W1 -> effects (k a) r P2 E2 W2 ->
  effects (m ≫= k) r (P1 ++ P2) (E1 ++ E2) (W1 ++ W2).
Proof.
  intros Hm Hk w. unfold mbind, M_bind.
  destruct (Hm w) as (Hr & He & Hw & ls1 & Hs & Hf & Hoff).
  destruct (m w) as [r1 w1]. cbn [fst snd] in *. subst r1.
  destruct (Hk w1) as (Hr2 & He2 & Hw2 & ls2 & Hs2 & Hf2 & Hoff2).
  split; [exact Hr2|]. split; [rewrite He2, He, app_assoc; reflexivity|].
  split; [rewrite Hw2, Hw, app_assoc; reflexivity|].
  exists (ls1 ++ ls2). split; [rewrite Hs2, Hs, app_assoc; reflexivity|].
  split; [rewrite List.filter_app, Hf, Hf2; reflexivity|].
  intros Hen. rewrite Hoff, Hoff2 by exact Hen. reflexivity.
Qed.

Lemma effects_bind_fail {A B} (m : M A) (k : A -> M B) e P E W :
  effects m (inl e) P E W -> effects (m ≫= k) (inl e) P E W.
Proof.
  intros Hm w. unfold mbind, M_bind.
  destruct (Hm w) as (Hr & He & Hw & ls1 & Hs & Hf & Hoff).
  destruct (m w) as [r1 w1]. cbn [fst snd] in *. subst r1. cbn [fst snd].
  split; [reflexivity|]. split; [exact He|]. split; [exact Hw|].
  exists ls1. auto.
Qed.

Lemma quiet_bind {A B} (m : M A) (k : A -> M B) r (f : A -> exn + B) :
  quiet m r -> (forall a, quiet (k a) (f a)) -> quiet (m ≫= k) (bindE r f).
Proof.
  intros Hm Hk. destruct r as [e|a].
  - apply effects_bind_fail. exact Hm.
  - apply (effects_bind_ok m k a (f a) [] [] [] [] [] []); [exact Hm|apply Hk].
Qed.

Lemma quiet_then {A} (m : M unit) (k : M A) r :
  quiet m (inr tt) -> quiet k r -> quiet (m ≫= fun _ => k) r.
Proof.
  intros Hm Hk. apply (effects_bind_ok m (fun _ => k) tt r [] [] [] [] [] []); assumption.
Qed.

Variable clock : nat -> Z.

Lemma quiet_clock_bind {A} (k : Z -> M A) r :
  (forall t, quiet (k t) r) -> quiet (monotonicMs clock ≫= k) r.
Proof.
  intros Hk w. unfold mbind, M_bind, monotonicMs.
  destruct (Hk (clock (now w))
              {| stdout := stdout w; stderr := stderr w; written := written w;
                 now := S (now w); kStartedAt := kStartedAt w |})
    as (Hr & He & Hw & ls & Hs & Hf & Hoff).
  cbn [stdout stderr written] in *. repeat split; try assumption. exists ls. auto.
Qed.

Lemma quiet_emit component event detail progress :
  quiet (emit clock diagEnv component event detail progress) (inr tt).
Proof.
  intros w. unfold emit. destruct (enabled diagEnv) eqn:En; cbn [negb].
  - unfold mbind, M_bind, monotonicMs, processStartMs, print.
    destruct (kStartedAt w); cbn; rewrite !app_nil_r; repeat split;
      (eexists; split; [reflexivity|split; [reflexivity|discriminate]]).
  - pose proof (effects_ret tt w) as H. rewrite En in H. exact H.
Qed.

Lemma quiet_bind_ret {A} (r : exn + A) (k : A -> M A) :
  (forall a, quiet (k a) (inr a)) -> quiet (lift r ≫= k) r.
Proof.
  intros Hk. replace r with (bindE r inr) at 2 by (destruct r; reflexivity).
  apply quiet_bind; [apply effects_lift|exact Hk].
Qed.

Lemma quiet_bind_nested {A B C} (m : M A) (k : A -> M C) r (f : A -> exn + B)
    (g : B -> exn + C) :
  quiet m r -> (forall a, quiet (k a) (bindE (f a) g)) ->
  quiet (m ≫= k) (bindE (bindE r f) g).
Proof.
  intros Hm Hk.
  replace (bindE (bindE r f) g) with (bindE r (fun a => bindE (f a) g))
    by (destruct r; reflexivity).
  apply quiet_bind; assumption.
Qed.

Lemma quiet_whenb (b : bool) (m : M unit) : quiet m (inr tt) -> quiet (whenb b m) (inr tt).
Proof. intros H. destruct b; [exact H|apply effects_ret]. Qed.

Lemma quiet_heartbeat event frameIdx totalFrames progressStart progressSpan :
  quiet (emitFrameHeartbeat clock diagEnv event frameIdx totalFrames
           progressStart progressSpan) (inr tt).
Proof.
  unfold emitFrameHeartbeat. destruct (negb (enabled diagEnv));
    [apply effects_ret|apply quiet_emit].
Qed.

Lemma quiet_forLoop {St} (idxs : list Z) (body : Z -> St -> M St)
    (bodyE : Z -> St -> exn + St) (st : St) :
  (forall i st, quiet (body i st) (bodyE i st)) ->
  quiet (forLoop idxs body st) (forLoopE idxs bodyE st).
Proof.
  intros Hbody. revert st. induction idxs as [|i idxs IH]; intros st.
  - apply effects_ret.
  - cbn [forLoop forLoopE]. apply quiet_bind; [apply Hbody|exact IH].
Qed.

Lemma quiet_computeFeatures {F} (featuresSession : list F -> exn + Tensor) inAudio :
  quiet (computeFeatures featuresSession clock diagEnv inAudio)
    (computeFeaturesCore featuresSession inAudio).
Proof.
  unfold computeFeatures, computeFeaturesCore.
  do 2 (apply quiet_then; [apply quiet_emit|]).
  apply quiet_bind; [apply effects_lift|]. intros output.
  apply quiet_then; [apply quiet_emit|].
  destruct (shape output) as [|d0 [|d1 [|d2 [|d3 [|]]]]]; try apply effects_throw.
  destruct ((d0 =? 1) && (d2 =? Z.of_nat NUM_FREQ_IN) && (d3 =? Z.of_nat NUM_HARMONICS));
    [|apply effects_throw].
  apply quiet_then; [apply quiet_emit|]. apply effects_ret.
Qed.

Section Driver.
Context {F : Type} (zero : F) {NetState : Type}.
Variables contourNet noteNet onsetInputNet onsetOutputNet : @Net F NetState.
Variables mNumContourStored mNumNoteStored mNumConcat2Stored : Z.
Variable featuresSession : list F -> exn + @Tensor F.
Variable convert :
  list (list F) -> list (list F) -> list (list F) -> Notes.ConvertParams -> bool
  -> list Notes.Event.
Variables FFT_HOP BASIC_PITCH_SAMPLE_RATE : Q.
Variable mTotalLookahead : Z.

Local Abbreviation BP := (@BasicPitch F NetState).
Local Abbreviation inferRow :=
  (inferRow zero contourNet noteNet onsetInputNet onsetOutputNet
     mNumContourStored mNumNoteStored mNumConcat2Stored).
Local Abbreviation transcribeToMIDI :=
  (transcribeToMIDI zero contourNet noteNet onsetInputNet onsetOutputNet
     mNumContourStored mNumNoteStored mNumConcat2Stored featuresSession clock diagEnv
     convert mTotalLookahead).
Local Abbreviation transcribeToMIDICore :=
  (transcribeToMIDICore zero contourNet noteNet onsetInputNet onsetOutputNet
     mNumContourStored mNumNoteStored mNumConcat2Stored featuresSession
     convert mTotalLookahead).
Local Abbreviation transcribe :=
  (transcribe zero contourNet noteNet onsetInputNet onsetOutputNet
     mNumContourStored mNumNoteStored mNumConcat2Stored featuresSession clock diagEnv
     convert FFT_HOP BASIC_PITCH_SAMPLE_RATE mTotalLookahead).
Local Abbreviation transcribeCore :=
  (transcribeCore zero contourNet noteNet onsetInputNet onsetOutputNet
     mNumContourStored mNumNoteStored mNumConcat2Stored featuresSession
     convert FFT_HOP BASIC_PITCH_SAMPLE_RATE mTotalLookahead).

Ltac quiet_emits :=
  repeat (apply quiet_then; [first [apply quiet_emit
                                   |apply quiet_whenb; apply quiet_heartbeat]|]).

Lemma quiet_frame (r : exn + BP) (b : bool) (m : M unit) :
  quiet m (inr tt) ->
  quiet (lift r ≫= fun bp => whenb b m ≫= fun _ => mret bp) r.
Proof.
  intros Hm. apply quiet_bind_ret. intros bp.
  apply quiet_then; [apply quiet_whenb; exact Hm|apply effects_ret].
Qed.

(** The transcription is the diagnostic-free procedure, whatever the flag
    and the clock. *)
Lemma quiet_transcribeToMIDI (bp : BP) (inAudio : list F) :
  quiet (transcribeToMIDI bp inAudio) (transcribeToMIDICore bp inAudio).
Proof.
  unfold NeuralNote.transcribeToMIDI, NeuralNote.transcribeToMIDICore.
  quiet_emits. apply quiet_clock_bind. intros t0. quiet_emits.
  apply quiet_bind; [apply quiet_computeFeatures|]. intros [stackedCqt numFrames].
  apply quiet_clock_bind. intros t1. quiet_emits.
  unfold runSchedule. fold (prepared zero contourNet noteNet onsetInputNet onsetOutputNet
    mNumContourStored mNumNoteStored mNumConcat2Stored bp numFrames).
  apply quiet_bind_nested.
  { apply quiet_forLoop. intros i st. quiet_emits.
    apply quiet_frame. apply quiet_heartbeat. }
  intros bp1. quiet_emits.
  apply quiet_bind_nested.
  { apply quiet_forLoop. intros i st. quiet_emits.
    apply quiet_bind; [apply effects_lift|]. intros inData.
    apply quiet_frame. apply quiet_heartbeat. }
  intros bp2. quiet_emits.
  apply quiet_bind_nested.
  { apply quiet_forLoop. intros i st. quiet_emits.
    apply quiet_bind; [apply effects_lift|]. intros inData.
    apply quiet_frame. apply quiet_heartbeat. }
  intros bp3. quiet_emits.
  apply quiet_bind.
  { apply quiet_forLoop. intros i st. quiet_emits.
    apply quiet_frame. apply quiet_heartbeat. }
  intros bp4. quiet_emits.
  apply quiet_clock_bind. intros t2. quiet_emits. apply effects_ret.
Qed.

Lemma quiet_transcribe (bp : BP) (audio : list F) (preset : NeuralNoteBalancedPreset) :
  quiet (transcribe bp audio preset) (transcribeCore bp audio preset).
Proof.
  unfold NeuralNote.transcribe, NeuralNote.transcribeCore.
  destruct (Tempo.isEmpty audio); [apply effects_throw|].
  quiet_emits.
  apply quiet_bind; [apply quiet_transcribeToMIDI|]. intros bp'.
  quiet_emits. apply effects_ret.
Qed.
End Driver.
End Effects.

Lemma Det_quiet {A} (prog : (nat -> Z) -> option string -> M A) r :
  (forall clock diagEnv, quiet diagEnv (prog clock diagEnv) r) -> Det prog.
Proof. intros H. exists r, [], [], []. exact H. Qed.

Lemma Det_ret {A} (a : A) : Det (fun _ _ => mret a).
Proof. apply (Det_quiet _ (inr a)). intros. apply effects_ret. Qed.

Lemma Det_lift {A} (r : exn + A) : Det (fun _ _ => lift r).
Proof. apply (Det_quiet _ r). intros. apply effects_lift. Qed.

Lemma Det_throw {A} (e : exn) : Det (fun _ _ => @throw A e).
Proof. apply (Det_quiet _ (inl e)). intros. apply effects_throw. Qed.

Lemma Det_emit component event detail progress :
  Det (fun clock diagEnv => emit clock diagEnv component event detail progress).
Proof. apply (Det_quiet _ (inr tt)). intros. apply quiet_emit. Qed.

Lemma Det_print (l : OutLine) : isDiag l = false -> Det (fun _ _ => print l).
Proof.
  intros Hl. exists (inr tt), [l], [], []. intros clock diagEnv w. cbn.
  rewrite !app_nil_r. repeat split. exists [l]. cbn. unfold notDiag. rewrite Hl. auto.
Qed.

Lemma Det_cerr (msg : string) : Det (fun _ _ => cerr msg).
Proof.
  exists (inr tt), [], [msg], []. intros clock diagEnv w. cbn.
  rewrite !app_nil_r. repeat split. exists []. rewrite app_nil_r. auto.
Qed.

Lemma Det_writeFile path doc : Det (fun _ _ => writeFile path doc).
Proof.
  exists (inr tt), [], [], [(path, doc)]. intros clock diagEnv w. cbn.
  rewrite !app_nil_r. repeat split. exists []. rewrite app_nil_r. auto.
Qed.

Lemma Det_bind {A B} (m : (nat -> Z) -> option string -> M A)
    (k : (nat -> Z) -> option string -> A -> M B) :
  Det m -> (forall a, Det (fun clock diagEnv => k clock diagEnv a)) ->
  Det (fun clock diagEnv => m clock diagEnv ≫= k clock diagEnv).
Proof.
  intros (r & P & E & W & Hm) Hk. destruct r as [e|a].
  - exists (inl e), P, E, W. intros clock diagEnv. apply effects_bind_fail. apply Hm.
  - destruct (Hk a) as (r2 & P2 & E2 & W2 & Hk2).
    exists r2, (P ++ P2), (E ++ E2), (W ++ W2). intros clock diagEnv.
    apply (effects_bind_ok diagEnv _ _ a); [apply Hm|apply Hk2].
Qed.

Lemma Det_try_catch {A} (body : (nat -> Z) -> option string -> M A)
    (handler : (nat -> Z) -> option string -> string -> M A) :
  Det body -> (forall what, Det (fun clock diagEnv => handler clock diagEnv what)) ->
  Det (fun clock diagEnv => try_catch (body clock diagEnv) (handler clock diagEnv)).
Proof.
  intros (r & P & E & W & Hb) Hh.
  assert (forall r', (forall what, r' <> inl (runtime_error what)) ->
            (forall clock diagEnv, effects diagEnv (body clock diagEnv) r' P E W) ->
            forall clock diagEnv,
              effects diagEnv (try_catch (body clock diagEnv) (handler clock diagEnv))
                r' P E W) as Hpass.
  { intros r' Hr' Hb' clock diagEnv w. unfold try_catch.
    destruct (Hb' clock diagEnv w) as (Hr & He & Hw & ls & Hs & Hf & Hoff).
    destruct (body clock diagEnv w) as [[[what|]|a] w1]; cbn [fst snd] in *;
      try (repeat split; try assumption; exists ls; auto; fail).
    exfalso. apply (Hr' what). symmetry. exact Hr. }
  destruct r as [[what|]|a].
  - destruct (Hh what) as (r2 & P2 & E2 & W2 & Hh2).
    exists r2, (P ++ P2), (E ++ E2), (W ++ W2). intros clock diagEnv w. unfold try_catch.
    destruct (Hb clock diagEnv w) as (Hr & He & Hw & ls & Hs & Hf & Hoff).
    destruct (body clock diagEnv w) as [r1 w1]. cbn [fst snd] in *. subst r1.
    destruct (Hh2 clock diagEnv w1) as (Hr2 & He2 & Hw2 & ls2 & Hs2 & Hf2 & Hoff2).
    split; [exact Hr2|]. split; [rewrite He2, He, app_assoc; reflexivity|].
    split; [rewrite Hw2, Hw, app_assoc; reflexivity|].
    exists (ls ++ ls2). split; [rewrite Hs2, Hs, app_assoc; reflexivity|].
    split; [rewrite List.filter_app, Hf, Hf2; reflexivity|].
    intros Hen. rewrite Hoff, Hoff2 by exact Hen. reflexivity.
  - exists (inl out_of_range_access), P, E, W. apply Hpass; [discriminate|exact Hb].
  - exists (inr a), P, E, W. apply Hpass; [discriminate|exact Hb].
Qed.

Section Programs.
Context {F : Type} (zero : F) {NetState : Type}.
Variables contourNet noteNet onsetInputNet onsetOutputNet : @Net F NetState.
Variables mNumContourStored mNumNoteStored mNumConcat2Stored : Z.
Variable featuresSession : list F -> exn + @Tensor F.
Variable convert :
  list (list F) -> list (list F) -> list (list F) -> Notes.ConvertParams -> bool
  -> list Notes.Event.
Variables FFT_HOP BASIC_PITCH_SAMPLE_RATE : Q.
Variable mTotalLookahead : Z.
Variable loadBasicPitch : string -> exn + @BasicPitch F NetState.
Variable files : string -> option (list Byte.byte).
Variable decodeFloat32Le : list Byte.byte -> nat -> F.
Variables readGood canOpenOutput writeGood : string -> bool.
Variable stod : string -> option Q.
Variable stoi : string -> option Z.
Variable showQ : Q -> string.
Variable loadTempoCnn : string -> exn + Tempo.Session.
Variable melEnergy : list Q -> Z -> Q.
Variable toDouble : F -> Q.

Local Abbreviation main clock diagEnv :=
  (NeuralNote.main zero contourNet noteNet onsetInputNet onsetOutputNet
    mNumContourStored mNumNoteStored mNumConcat2Stored featuresSession clock diagEnv
    convert FFT_HOP BASIC_PITCH_SAMPLE_RATE mTotalLookahead loadBasicPitch files
    decodeFloat32Le readGood canOpenOutput writeGood stod stoi showQ).
Local Abbreviation runTranscription clock diagEnv :=
  (NeuralNote.runTranscription zero contourNet noteNet onsetInputNet onsetOutputNet
    mNumContourStored mNumNoteStored mNumConcat2Stored featuresSession clock diagEnv
    convert FFT_HOP BASIC_PITCH_SAMPLE_RATE mTotalLookahead loadBasicPitch files
    decodeFloat32Le readGood canOpenOutput writeGood loadTempoCnn melEnergy toDouble).

Ltac det_seq tac := apply Det_bind; [tac|intros ?].

Ltac det :=
  repeat first
    [ apply Det_ret
    | apply Det_emit
    | apply Det_cerr
    | apply Det_lift
    | apply Det_throw
    | apply Det_writeFile
    | apply Det_print; reflexivity
    | apply Det_bind; [|intros ?]
    | match goal with
      | |- Det (fun _ _ => match ?x with _ => _ end) => destruct x
      | |- Det (fun _ _ => if ?x then _ else _) => destruct x
      end ].

Lemma Det_newTranscriber modelDir :
  Det (fun clock diagEnv => newTranscriber clock diagEnv loadBasicPitch modelDir).
Proof. unfold newTranscriber. det. Qed.

Lemma Det_transcribe bp audio preset :
  Det (fun clock diagEnv =>
         transcribe zero contourNet noteNet onsetInputNet onsetOutputNet
           mNumContourStored mNumNoteStored mNumConcat2Stored featuresSession clock diagEnv
           convert FFT_HOP BASIC_PITCH_SAMPLE_RATE mTotalLookahead bp audio preset).
Proof. eapply Det_quiet. intros. apply quiet_transcribe. Qed.

Lemma Det_writeJson path doc : Det (fun _ _ => writeJson canOpenOutput writeGood path doc).
Proof. unfold writeJson. det. Qed.

Lemma Det_main argv : Det (fun clock diagEnv => main clock diagEnv argv).
Proof.
  unfold NeuralNote.main. 
  apply Det_bind; [apply Det_emit|intros _].
  apply Det_bind; [apply Det_emit|intros _].
  destruct (parseArgs argv ∅ !! "--input-f32le") as [inputPath|]; [|det].
  destruct (parseArgs argv ∅ !! "--output-json") as [outputPath|]; [|det].
  destruct (parseArgs argv ∅ !! "--model-dir") as [modelDir|]; [|det].
  destruct (negb (String.eqb (default "balanced" (parseArgs argv ∅ !! "--preset")) "balanced"));
    [det|].
  destruct (parsePreset stod stoi (parseArgs argv ∅)) as [parseError|presetValues]; [det|].
  apply Det_bind; [apply Det_emit|intros _].
  apply Det_try_catch; [|intros what; det].
  apply Det_bind; [apply Det_print; reflexivity|intros _].
  apply Det_bind; [apply Det_emit|intros _].
  destruct (readFloat32LeFile files decodeFloat32Le readGood inputPath)
    as [ioError|inputAudio]; [det|].
  apply Det_bind; [apply Det_emit|intros _].
  destruct (Tempo.isEmpty inputAudio); [det|].
  apply Det_bind; [apply Det_print; reflexivity|intros _].
  apply Det_bind; [apply Det_emit|intros _].
  apply Det_bind; [apply Det_newTranscriber|intros transcriber].
  apply Det_bind; [apply Det_emit|intros _].
  apply Det_bind; [apply Det_emit|intros _].
  apply Det_bind; [apply Det_transcribe|intros [bp events]].
  apply Det_bind; [apply Det_emit|intros _].
  destruct (Tempo.isEmpty events); [det|].
  apply Det_bind; [apply Det_print; reflexivity|intros _].
  apply Det_bind; [apply Det_emit|intros _].
  apply Det_bind; [apply Det_writeJson|intros [ioError|]]; det.
Qed.

Lemma Det_runTranscription pcm tempoPcm modelDir tempoModelPath outputPath :
  Det (fun clock diagEnv =>
         runTranscription clock diagEnv pcm tempoPcm modelDir tempoModelPath outputPath).
Proof.
  unfold NeuralNote.runTranscription.
  apply Det_try_catch; [|intros what; det].
  destruct (String.eqb pcm EmptyString || String.eqb tempoPcm EmptyString
            || String.eqb modelDir EmptyString || String.eqb tempoModelPath EmptyString
            || String.eqb outputPath EmptyString); [det|].
  destruct (readFloat32LeFile files decodeFloat32Le readGood pcm) as [e|nnSamples]; [det|].
  destruct (readFloat32LeFile files decodeFloat32Le readGood tempoPcm) as [e|tempoSamples];
    [det|].
  destruct (Tempo.isEmpty nnSamples); [det|].
  destruct (Tempo.isEmpty tempoSamples); [det|].
  apply Det_bind; [apply Det_newTranscriber|intros transcriber].
  apply Det_bind; [apply Det_transcribe|intros [bp nnEvents]].
  apply Det_bind; [apply Det_lift|intros tempoEstimator].
  apply Det_bind; [|intros tempoEstimate; apply Det_writeJson].
  unfold liftTempo.
  destruct (Tempo.estimate melEnergy tempoEstimator (map toDouble tempoSamples)
              {| Tempo.interpolate := true; Tempo.localTempo := true |}) as [[what]|r]; det.
Qed.

(** Two runs of a [Det] program from worlds that look the same to the caller
    return the same and leave worlds that look the same; with the flag off
    the run prints no diagnostic line. *)
Lemma Det_noninterference {A} (prog : (nat -> Z) -> option string -> M A) :
  Det prog ->
  forall clock1 clock2 env1 env2 w1 w2,
    functional w1 = functional w2 ->
    fst (prog clock1 env1 w1) = fst (prog clock2 env2 w2) /\
    functional (snd (prog clock1 env1 w1)) = functional (snd (prog clock2 env2 w2)) /\
    (envFlagEnabled env2 = false ->
     List.filter isDiag (stdout (snd (prog clock2 env2 w2))) = List.filter isDiag (stdout w2)).
Proof.
  intros (r & P & E & W & H) clock1 clock2 env1 env2 w1 w2 Hw.
  destruct (H clock1 env1 w1) as (Hr1 & He1 & Hw1 & ls1 & Hs1 & Hf1 & _).
  destruct (H clock2 env2 w2) as (Hr2 & He2 & Hw2 & ls2 & Hs2 & Hf2 & Hoff2).
  unfold functional in *. injection Hw as Ho Herr Hwr.
  split; [congruence|]. split.
  - rewrite Hs1, Hs2, He1, He2, Hw1, Hw2, !List.filter_app, Hf1, Hf2, Ho, Herr, Hwr.
    reflexivity.
  - intros Hen. rewrite Hs2, List.filter_app, (Hoff2 Hen), <- Hf2.
    replace (List.filter isDiag (List.filter notDiag ls2)) with (@nil OutLine).
    + apply app_nil_r.
    + clear. induction ls2 as [|l ls IH]; [reflexivity|]. cbn.
      destruct l; cbn; [exact IH|exact IH].
Qed.

(** C9.  Two runs that differ in the flag (and in what the clock shows)
    return the same exit code, status string or note events, and leave the
    same error stream, the same written JSON documents and the same
    non-diagnostic output lines; a run with the flag off prints no diagnostic
    line. *)
Theorem diag_flag_side_channel (argv : list string)
    (pcm tempoPcm modelDir tempoModelPath outputPath : string)
    (bp : @BasicPitch F NetState) (audio : list F) (preset : NeuralNoteBalancedPreset)
    (clock1 clock2 : nat -> Z) (env1 env2 : option string) (w1 w2 : World) :
  functional w1 = functional w2 ->
  (fst (main clock1 env1 argv w1) = fst (main clock2 env2 argv w2) /\
   functional (snd (main clock1 env1 argv w1))
   = functional (snd (main clock2 env2 argv w2)) /\
   (envFlagEnabled env2 = false ->
    List.filter isDiag (stdout (snd (main clock2 env2 argv w2)))
    = List.filter isDiag (stdout w2))) /\
  (let run clock env := runTranscription clock env pcm tempoPcm modelDir tempoModelPath
                          outputPath in
   fst (run clock1 env1 w1) = fst (run clock2 env2 w2) /\
   functional (snd (run clock1 env1 w1)) = functional (snd (run clock2 env2 w2)) /\
   (envFlagEnabled env2 = false ->
    List.filter isDiag (stdout (snd (run clock2 env2 w2)))
    = List.filter isDiag (stdout w2))) /\
  (let run clock env :=
     transcribe zero contourNet noteNet onsetInputNet onsetOutputNet
       mNumContourStored mNumNoteStored mNumConcat2Stored featuresSession clock env
       convert FFT_HOP BASIC_PITCH_SAMPLE_RATE mTotalLookahead bp audio preset in
   fst (run clock1 env1 w1) = fst (run clock2 env2 w2) /\
   functional (snd (run clock1 env1 w1)) = functional (snd (run clock2 env2 w2))).
Proof.
  intros Hw. split; [|split].
  - apply (Det_noninterference _ (Det_main argv)). exact Hw.
  - apply (Det_noninterference _
             (Det_runTranscription pcm tempoPcm modelDir tempoModelPath outputPath)).
    exact Hw.
  - destruct (Det_noninterference _ (Det_transcribe bp audio preset)
                clock1 clock2 env1 env2 w1 w2 Hw) as (H1 & H2 & _).
    split; assumption.
Qed.

(** *** The empty PCM file *)

Lemma effects_seq {A B} diagEnv (m : M A) (k : A -> M B) a r P1 E1 W1 P2 E2 W2 P E W :
  effects diagEnv m (inr a) P1 E1 W1 -> effects diagEnv (k a) r P2 E2 W2 ->
  P = P1 ++ P2 -> E = E1 ++ E2 -> W = W1 ++ W2 ->
  effects diagEnv (m ≫= k) r P E W.
Proof. intros Hm Hk -> -> ->. eapply effects_bind_ok; eassumption. Qed.

Lemma effects_print diagEnv (l : OutLine) :
  isDiag l = false -> effects diagEnv (print l) (inr tt) [l] [] [].
Proof.
  intros Hl w. cbn. rewrite !app_nil_r. repeat split. exists [l]. cbn.
  unfold notDiag. rewrite Hl. auto.
Qed.

Lemma effects_cerr diagEnv (msg : string) : effects diagEnv (cerr msg) (inr tt) [] [msg] [].
Proof.
  intros w. cbn. rewrite !app_nil_r. repeat split. exists []. rewrite app_nil_r. auto.
Qed.

Lemma effects_try_ok {A} diagEnv (body : M A) (handler : string -> M A) a P E W :
  effects diagEnv body (inr a) P E W -> effects diagEnv (try_catch body handler) (inr a) P E W.
Proof.
  intros Hb w. unfold try_catch.
  destruct (Hb w) as (Hr & He & Hw & ls & Hs & Hf & Hoff).
  destruct (body w) as [r1 w1]. cbn [fst snd] in *. subst r1. cbn [fst snd].
  repeat split; try assumption. exists ls. auto.
Qed.

(** The reader never returns an empty sample vector: the [inputAudio.empty()]
    test of [main] cannot fire. *)
Lemma readFloat32LeFile_not_empty path samples :
  readFloat32LeFile files decodeFloat32Le readGood path = inr samples ->
  Tempo.isEmpty samples = false.
Proof.
  unfold readFloat32LeFile. destruct (files path) as [bytes|]; [|discriminate].
  destruct ((Z.of_nat (length bytes) <=? 0) || negb (Z.rem (Z.of_nat (length bytes)) 4 =? 0))
    eqn:Hsize; [discriminate|].
  destruct (negb (readGood path)); [discriminate|]. intros [= <-].
  apply orb_false_iff in Hsize. destruct Hsize as [Hpos Hrem].
  assert (1 <= Z.quot (Z.of_nat (length bytes)) 4) as Hq.
  { apply negb_false_iff, Z.eqb_eq in Hrem.
    pose proof (Z.quot_rem' (Z.of_nat (length bytes)) 4). lia. }
  destruct (Z.to_nat (Z.quot (Z.of_nat (length bytes)) 4)) as [|n] eqn:En; [lia|].
  reflexivity.
Qed.

(** C8 on the code.  With its three required arguments and a valid preset,
    the CLI run on an existing zero-byte input file returns 1, and the one
    line it sends to the error stream is ["PCM file has invalid size"], which
    does not contain ["empty"]. *)
Theorem main_zero_byte_input (argv : list string) (inputPath outputPath modelDir : string)
    (presetValues : NeuralNoteBalancedPreset) (clock : nat -> Z) (diagEnv : option string) :
  parseArgs argv ∅ !! "--input-f32le" = Some inputPath ->
  parseArgs argv ∅ !! "--output-json" = Some outputPath ->
  parseArgs argv ∅ !! "--model-dir" = Some modelDir ->
  default "balanced" (parseArgs argv ∅ !! "--preset") = "balanced" ->
  parsePreset stod stoi (parseArgs argv ∅) = inr presetValues ->
  files inputPath = Some [] ->
  effects diagEnv (main clock diagEnv argv) (inr 1)
    [ProgressLine "Loading audio features..." (12 # 100)]
    ["PCM file has invalid size"] [] /\
  String.index 0 "empty" "PCM file has invalid size" = None.
Proof.
  intros Hin Hout Hmodel Hpreset Hparse Hfile. split; [|reflexivity].
  unfold NeuralNote.main. rewrite Hin, Hout, Hmodel, Hpreset, Hparse.
  cbn [String.eqb negb Ascii.eqb Bool.eqb andb].
  unfold readFloat32LeFile. rewrite Hfile. cbn [length Z.of_nat Z.leb Z.compare orb].
  eapply effects_seq; [apply quiet_emit| |reflexivity..].
  eapply effects_seq; [apply quiet_emit| |reflexivity..].
  eapply effects_seq; [apply quiet_emit| |reflexivity..].
  apply effects_try_ok.
  eapply effects_seq; [apply effects_print; reflexivity| |reflexivity..].
  eapply effects_seq; [apply quiet_emit| |reflexivity..].
  eapply effects_seq; [apply effects_cerr| |reflexivity..].
  apply effects_ret.
Qed.
End Programs.

(** *** The four-phase schedule *)

Lemma forLoopE_app {St} (l1 l2 : list Z) (body : Z -> St -> exn + St) (st : St) :
  forLoopE (l1 ++ l2) body st = bindE (forLoopE l1 body st) (forLoopE l2 body).
Proof.
  revert st. induction l1 as [|i l1 IH]; intros st; [reflexivity|].
  cbn [app forLoopE]. destruct (body i st) as [e|st']; [reflexivity|]. cbn [bindE]. apply IH.
Qed.

(** A loop whose body keeps an invariant that depends on the round. *)
Lemma forLoopE_counted {St} (Inv : nat -> St -> Prop) (body : Z -> St -> exn + St)
    (start : Z) (n : nat) (base : nat) (st : St) :
  Inv base st ->
  (forall j st, (j < n)%nat -> Inv (base + j)%nat st ->
     exists st', body (start + Z.of_nat j) st = inr st' /\ Inv (base + S j)%nat st') ->
  exists st', forLoopE (seqZ start (Z.of_nat n)) body st = inr st' /\ Inv (base + n)%nat st'.
Proof.
  intros Hst Hbody. induction n as [|n IH].
  - exists st. rewrite Nat.add_0_r. split; [reflexivity|exact Hst].
  - destruct IH as (st1 & Hloop & Hinv); [intros j st0 Hj; apply Hbody; lia|].
    destruct (Hbody n st1) as (st2 & Hb & Hinv2); [lia|exact Hinv|].
    exists st2. rewrite seqZ_S, forLoopE_app, Hloop. cbn [bindE forLoopE].
    rewrite Hb. split; [reflexivity|exact Hinv2].
Qed.

Section Schedule.
Context {F : Type} (zero : F) {NetState : Type}.
Variables contourNet noteNet onsetInputNet onsetOutputNet : @Net F NetState.
Variables mNumContourStored mNumNoteStored mNumConcat2Stored : Z.
Variable mTotalLookahead : Z.

Local Abbreviation BP := (@BasicPitch F NetState).
Local Abbreviation CNN := (@BasicPitchCNN F NetState).
Local Abbreviation inferRow :=
  (inferRow zero contourNet noteNet onsetInputNet onsetOutputNet
     mNumContourStored mNumNoteStored mNumConcat2Stored).
Local Abbreviation stepCNN :=
  (stepCNN zero contourNet noteNet onsetInputNet onsetOutputNet
     mNumContourStored mNumNoteStored mNumConcat2Stored).
Local Abbreviation cnnAfter :=
  (cnnAfter zero contourNet noteNet onsetInputNet onsetOutputNet
     mNumContourStored mNumNoteStored mNumConcat2Stored).
Local Abbreviation reset :=
  (reset zero contourNet noteNet onsetInputNet onsetOutputNet
     mNumContourStored mNumNoteStored mNumConcat2Stored).
Local Abbreviation prepared :=
  (prepared zero contourNet noteNet onsetInputNet onsetOutputNet
     mNumContourStored mNumNoteStored mNumConcat2Stored).
Local Abbreviation runSchedule :=
  (runSchedule zero contourNet noteNet onsetInputNet onsetOutputNet
     mNumContourStored mNumNoteStored mNumConcat2Stored mTotalLookahead).

Lemma sized_insert n (rows : list (list F)) i row :
  sized n rows -> length row = n -> sized n (<[i := row]> rows).
Proof.
  intros Hs Hr. unfold sized in *. rewrite List.Forall_forall in *.
  intros x Hx. apply list_elem_of_In in Hx. apply list_elem_of_lookup in Hx.
  destruct Hx as [j Hj]. destruct (Nat.eq_dec i j) as [->|Hne].
  - destruct (Nat.lt_ge_cases j (length rows)).
    + rewrite list_lookup_insert_eq in Hj by lia. congruence.
    + rewrite list_insert_ge in Hj by lia. apply Hs.
      apply list_elem_of_In, list_elem_of_lookup. eauto.
  - rewrite list_lookup_insert_ne in Hj by exact Hne. apply Hs.
    apply list_elem_of_In, list_elem_of_lookup. eauto.
Qed.

Lemma sized_lookup n (rows : list (list F)) i row :
  sized n rows -> rows !! i = Some row -> length row = n.
Proof.
  intros Hs Hi. unfold sized in Hs. rewrite List.Forall_forall in Hs. apply Hs.
  apply list_elem_of_In, list_elem_of_lookup. eauto.
Qed.

Lemma sized_lookup_total n (rows : list (list F)) i :
  sized n rows -> (length (rows !!! i) <= n)%nat.
Proof.
  intros Hs. destruct (rows !! i) as [row|] eqn:E.
  - rewrite (list_lookup_total_correct _ _ _ E). rewrite (sized_lookup _ _ _ _ Hs E). lia.
  - rewrite list_lookup_total_alt, E. cbn. lia.
Qed.

Lemma sized_resize n N (rows : list (list F)) :
  sized n rows -> sized n (resize N (replicate n zero) rows).
Proof.
  intros Hs. unfold sized, resize in *. apply List.Forall_app. split.
  - apply Forall_take. exact Hs.
  - apply Forall_replicate. apply length_replicate.
Qed.

Lemma length_resize {A} N (fill : A) (rows : list A) : length (resize N fill rows) = N.
Proof. unfold resize. rewrite length_app, length_take, length_replicate. lia. Qed.

Lemma length_copy_at_le (dst src : list F) :
  (length src <= length dst)%nat -> length (copy_at dst 0 src) = length dst.
Proof.
  intros H. unfold copy_at. rewrite take_0. cbn [app].
  rewrite length_app, length_drop. lia.
Qed.

Lemma cnnSized_reset (cnn : CNN) : cnnSized (reset cnn).
Proof.
  split; unfold NeuralNote.reset;
    cbn [mContoursCircularBuffer mNotesCircularBuffer];
    apply Forall_replicate; apply length_replicate.
Qed.

Lemma cnnSized_step (cnn : CNN) (inData : @Ptr F) : cnnSized cnn -> cnnSized (stepCNN cnn inData).
Proof.
  intros [Hc Hn].
  destruct (stepCNN_fields zero contourNet noteNet onsetInputNet onsetOutputNet
              mNumContourStored mNumNoteStored mNumConcat2Stored cnn inData)
    as (_ & _ & _ & Bc & Bn & _).
  cbv zeta in Bc, Bn. unfold cnnSized. rewrite Bc, Bn.
  split; apply sized_insert; try assumption; unfold contourOutputs, noteOutputs, range;
    rewrite length_map, length_seq; reflexivity.
Qed.

(** One frame written into an existing row. *)
Lemma inferRow_row (N : nat) (bp : BP) (inData : @Ptr F) (row : Z) :
  pgRows N bp -> pgSized bp -> cnnSized (mBasicPitchCNN bp) -> 0 <= row < Z.of_nat N ->
  exists c n o out,
    mContoursPG bp !! Z.to_nat row = Some c /\ mNotesPG bp !! Z.to_nat row = Some n /\
    mOnsetsPG bp !! Z.to_nat row = Some o /\
    frameInference zero contourNet noteNet onsetInputNet onsetOutputNet
      mNumContourStored mNumNoteStored mNumConcat2Stored (mBasicPitchCNN bp) inData
      {| outContours := c; outNotes := n; outOnsets := o |}
    = inr (stepCNN (mBasicPitchCNN bp) inData, out) /\
    let bp' :=
      {| mContoursPG := <[Z.to_nat row := outContours out]> (mContoursPG bp);
         mNotesPG := <[Z.to_nat row := outNotes out]> (mNotesPG bp);
         mOnsetsPG := <[Z.to_nat row := outOnsets out]> (mOnsetsPG bp);
         mNoteEvents := mNoteEvents bp;
         mParams := mParams bp;
         mNumFrames := mNumFrames bp;
         mBasicPitchCNN := stepCNN (mBasicPitchCNN bp) inData |} in
    inferRow bp inData row = inr bp' /\
    pgRows N bp' /\ pgSized bp' /\ cnnSized (mBasicPitchCNN bp').
Proof.
  intros (Lc & Ln & Lo) (Sc & Sn & So) [Bc Bn] Hrow.
  unfold NeuralNote.inferRow. replace (negb (0 <=? row)) with false by lia.
  destruct (lookup_lt_is_Some_2 (mContoursPG bp) (Z.to_nat row)) as [c Hc]; [lia|].
  destruct (lookup_lt_is_Some_2 (mNotesPG bp) (Z.to_nat row)) as [n Hn]; [lia|].
  destruct (lookup_lt_is_Some_2 (mOnsetsPG bp) (Z.to_nat row)) as [o Ho]; [lia|].
  assert (rowsOk {| outContours := c; outNotes := n; outOnsets := o |}) as Hok.
  { repeat split; cbn [outContours outNotes outOnsets]; eauto using sized_lookup. }
  pose proof (frameInference_rows zero contourNet noteNet onsetInputNet onsetOutputNet
                mNumContourStored mNumNoteStored mNumConcat2Stored (mBasicPitchCNN bp) inData _ Hok)
    as Hframe.
  destruct Hok as (H1 & H2 & H3). cbn [outContours outNotes outOnsets] in *.
  pose proof (cnnSized_step (mBasicPitchCNN bp) inData (conj Bc Bn)) as [Bc' Bn'].
  eexists c, n, o, _. do 3 (split; [assumption|]). split; [exact Hframe|].
  cbv zeta. rewrite Hc, Hn, Ho, Hframe.
  cbn [mContoursPG mNotesPG mOnsetsPG mBasicPitchCNN outContours outNotes outOnsets].
  split; [reflexivity|].
  split; [unfold pgRows; cbn [mContoursPG mNotesPG mOnsetsPG]; rewrite !length_insert; auto|].
  split; [|split; assumption].
  unfold pgSized. cbn [mContoursPG mNotesPG mOnsetsPG].
  split; [|split]; apply sized_insert; try assumption.
  - rewrite length_copy_at_le; [exact H1|]. unfold slotAhead. rewrite H1.
    apply sized_lookup_total. exact Bc'.
  - rewrite length_copy_at_le; [exact H2|]. unfold slotAhead. rewrite H2.
    apply sized_lookup_total. exact Bn'.
  - rewrite length_copy_at_le; [exact H3|]. rewrite H3. unfold onsetOutputs, range.
    rewrite length_map, length_seq. lia.
Qed.

Lemma driverInv_prepared (bp : BP) (numFrames : Z) :
  pgSized bp -> driverInv (Z.to_nat numFrames) (prepared bp numFrames).
Proof.
  intros (Sc & Sn & So). unfold driverInv, pgRows, pgSized, NeuralNote.prepared.
  cbn [mContoursPG mNotesPG mOnsetsPG mBasicPitchCNN].
  rewrite !length_resize. repeat split; try apply sized_resize; try assumption;
    apply cnnSized_reset.
Qed.

Lemma inferRow_inv (N : nat) (bp : BP) (inData : @Ptr F) (row : Z) :
  driverInv N bp -> 0 <= row < Z.of_nat N ->
  exists bp', inferRow bp inData row = inr bp' /\ driverInv N bp'.
Proof.
  intros (H1 & H2 & H3) Hrow.
  destruct (inferRow_row N bp inData row H1 H2 H3 Hrow)
    as (c & n & o & out & _ & _ & _ & _ & Hrun & Hinv).
  eexists. split; [exact Hrun|exact Hinv].
Qed.

Lemma framePtr_in (stackedCqt : list F) (numFrames frameIdx : Z) :
  0 <= frameIdx < numFrames ->
  framePtr zero stackedCqt numFrames frameIdx
  = inr (ptr_add (data_ptr zero stackedCqt)
           (Z.to_nat frameIdx * NUM_HARMONICS * NUM_FREQ_IN)).
Proof.
  intros H. unfold framePtr.
  replace ((0 <=? frameIdx) && (frameIdx <? numFrames)) with true by lia. reflexivity.
Qed.

(** The driver on a clip with fewer feature frames than the lookahead: the
    zero warmup indexes row 0 of an empty posteriorgram, or the feature
    warmup reads frame [N] of an [N]-frame buffer. *)
Lemma runSchedule_short (stackedCqt : list F) (numFrames : Z) (bp : BP) :
  0 <= numFrames < mTotalLookahead -> pgSized bp ->
  runSchedule stackedCqt numFrames (prepared bp numFrames) = inl out_of_range_access.
Proof.
  intros HN Hbp. pose proof (driverInv_prepared bp numFrames Hbp) as Hinv.
  unfold NeuralNote.runSchedule.
  destruct (Z.eq_dec numFrames 0) as [->|Hpos].
  - rewrite seqZ_cons by lia. cbn [forLoopE].
    replace (inferRow (prepared bp 0) (data_ptr zero (zeroStackedCqt zero)) 0)
      with (@inl exn BP out_of_range_access); [reflexivity|].
    unfold NeuralNote.inferRow. cbn [Z.leb Z.compare negb].
    destruct Hinv as ((Lc & _) & _).
    rewrite (lookup_ge_None_2 (mContoursPG (prepared bp 0)) (Z.to_nat 0)) by lia.
    reflexivity.
  - destruct (forLoopE_counted (fun _ st => driverInv (Z.to_nat numFrames) st)
                (fun _ bp => inferRow bp (data_ptr zero (zeroStackedCqt zero)) 0)
                0 (Z.to_nat mTotalLookahead) 0 (prepared bp numFrames) Hinv)
      as (bp1 & Hloop1 & Hinv1).
    { intros j st Hj Hst. apply inferRow_inv; [exact Hst|lia]. }
    rewrite Z2Nat.id in Hloop1 by lia. rewrite Hloop1. cbn [bindE].
    replace mTotalLookahead with (numFrames + (mTotalLookahead - numFrames)) at 1 by lia.
    rewrite seqZ_app by lia. rewrite forLoopE_app.
    destruct (forLoopE_counted (fun _ st => driverInv (Z.to_nat numFrames) st)
                (fun frameIdx bp =>
                   bindE (framePtr zero stackedCqt numFrames frameIdx)
                     (fun inData => inferRow bp inData 0))
                0 (Z.to_nat numFrames) 0 bp1 Hinv1)
      as (bp2 & Hloop2 & Hinv2).
    { intros j st Hj Hst. rewrite framePtr_in by lia. cbn [bindE].
      apply inferRow_inv; [exact Hst|lia]. }
    rewrite Z2Nat.id in Hloop2 by lia. rewrite Hloop2. cbn [bindE].
    rewrite Z.add_0_l, seqZ_cons by lia. cbn [forLoopE].
    unfold framePtr at 1.
    replace ((0 <=? numFrames) && (numFrames <? numFrames)) with false by lia.
    reflexivity.
Qed.

Local Abbreviation frameRows :=
  (frameRows zero contourNet noteNet onsetInputNet onsetOutputNet
     mNumContourStored mNumNoteStored mNumConcat2Stored).
Local Abbreviation scheduleInv :=
  (scheduleInv zero contourNet noteNet onsetInputNet onsetOutputNet
     mNumContourStored mNumNoteStored mNumConcat2Stored).

Hypothesis contourDepth : 0 < mNumContourStored.
Hypothesis noteDepth : 0 < mNumNoteStored.
Hypothesis concat2Depth : 0 < mNumConcat2Stored.

Lemma scheduleInv_step (inputs : nat -> @Ptr F) (bp0 : BP) (N L k : nat) (bp : BP)
    (inData : @Ptr F) (row : Z) :
  scheduleInv inputs bp0 N L k bp ->
  inData = inputs k -> 0 <= row < Z.of_nat N ->
  ((k < 2 * L)%nat \/ Z.to_nat row = (k - 2 * L)%nat) ->
  exists bp', inferRow bp inData row = inr bp' /\ scheduleInv inputs bp0 N L (S k) bp'.
Proof.
  intros ((H1 & H2 & H3) & Hcnn & Hp & He & Hrows) -> Hrow Hk.
  destruct (inferRow_row N bp (inputs k) row H1 H2 H3 Hrow)
    as (c & n & o & out & Hc & Hn & Ho & Hframe & Hrun & Hinv).
  cbv zeta in Hrun, Hinv. eexists. split; [exact Hrun|].
  assert (rowsOk {| outContours := c; outNotes := n; outOnsets := o |}) as Hok.
  { destruct H2 as (Sc & Sn & So).
    repeat split; cbn [outContours outNotes outOnsets]; eauto using sized_lookup. }
  pose proof (frameInference_stream zero contourNet noteNet onsetInputNet onsetOutputNet
              mNumContourStored mNumNoteStored mNumConcat2Stored
              contourDepth noteDepth concat2Depth inputs (mBasicPitchCNN bp0) k _ Hok)
    as Hspec.
  rewrite Hcnn in Hframe. rewrite Hspec in Hframe.
  injection Hframe as Hout.
  split; [exact Hinv|].
  cbn [mBasicPitchCNN mParams mNumFrames mNoteEvents mContoursPG mNotesPG mOnsetsPG].
  split; [rewrite Hcnn; reflexivity|]. do 2 (split; [assumption|]).
  intros r Hr. destruct Hk as [Hk|Hk]; [lia|].
  destruct H1 as (Lc & Ln & Lo).
  destruct (Nat.eq_dec r (Z.to_nat row)) as [->|Hne].
  - rewrite !list_lookup_insert_eq by lia. rewrite <- Hout.
    replace (2 * L + Z.to_nat row)%nat with k by lia. auto.
  - rewrite !list_lookup_insert_ne by lia. apply Hrows. lia.
Qed.

Local Abbreviation scheduleInput := (scheduleInput zero mTotalLookahead).

Lemma scheduleInput_zero (stackedCqt : list F) (numFrames : Z) (k : nat) :
  (k < Z.to_nat mTotalLookahead \/ Z.to_nat mTotalLookahead + Z.to_nat numFrames <= k)%nat ->
  scheduleInput stackedCqt numFrames k = data_ptr zero (zeroStackedCqt zero).
Proof.
  intros H. unfold NeuralNote.scheduleInput.
  destruct (Nat.leb_spec (Z.to_nat mTotalLookahead) k);
    destruct (Nat.ltb_spec k (Z.to_nat mTotalLookahead + Z.to_nat numFrames));
    cbn [andb]; try reflexivity; lia.
Qed.

Lemma scheduleInput_frame (stackedCqt : list F) (numFrames frameIdx : Z) :
  0 <= mTotalLookahead -> 0 <= frameIdx < numFrames ->
  framePtr zero stackedCqt numFrames frameIdx
  = inr (scheduleInput stackedCqt numFrames (Z.to_nat mTotalLookahead + Z.to_nat frameIdx)).
Proof.
  intros HL H. rewrite framePtr_in by exact H. unfold NeuralNote.scheduleInput.
  destruct (Nat.leb_spec (Z.to_nat mTotalLookahead)
              (Z.to_nat mTotalLookahead + Z.to_nat frameIdx)); [|lia].
  destruct (Nat.ltb_spec (Z.to_nat mTotalLookahead + Z.to_nat frameIdx)
              (Z.to_nat mTotalLookahead + Z.to_nat numFrames)); [|lia].
  cbn [andb]. do 3 f_equal. lia.
Qed.

(** The rows the streaming phase and the tail flush write, in order. *)
Lemma written_rows_once (numFrames : Z) :
  0 <= mTotalLookahead <= numFrames -> numFrames < 2 ^ 64 ->
  map (fun frameIdx => size_sub frameIdx mTotalLookahead)
    (seqZ mTotalLookahead (numFrames - mTotalLookahead) ++ seqZ numFrames mTotalLookahead)
  = seqZ 0 numFrames.
Proof.
  intros HL HN.
  replace (seqZ numFrames mTotalLookahead)
    with (seqZ (mTotalLookahead + (numFrames - mTotalLookahead)) mTotalLookahead)
    by (f_equal; lia).
  rewrite <- seqZ_app by lia.
  replace (numFrames - mTotalLookahead + mTotalLookahead) with numFrames by lia.
  apply list_eq. intros i. rewrite list_lookup_fmap.
  destruct (decide (Z.of_nat i < numFrames)) as [Hi|Hi].
  - rewrite !lookup_seqZ_lt by lia. cbn [fmap option_fmap option_map]. f_equal.
    unfold size_sub. rewrite Z.mod_small by lia. lia.
  - rewrite !lookup_seqZ_ge by lia. reflexivity.
Qed.

(** The driver on a clip of at least [L] feature frames. *)
Lemma runSchedule_long (stackedCqt : list F) (numFrames : Z) (bp : BP) :
  0 <= mTotalLookahead <= numFrames -> numFrames < 2 ^ 64 -> pgSized bp ->
  exists bp',
    runSchedule stackedCqt numFrames (prepared bp numFrames) = inr bp' /\
    scheduleInv (scheduleInput stackedCqt numFrames) bp (Z.to_nat numFrames)
      (Z.to_nat mTotalLookahead) (2 * Z.to_nat mTotalLookahead + Z.to_nat numFrames) bp'.
Proof.
  intros HL HN Hbp. pose proof (driverInv_prepared bp numFrames Hbp) as Hinv.
  set (inputs := scheduleInput stackedCqt numFrames).
  set (N := Z.to_nat numFrames). set (L := Z.to_nat mTotalLookahead).
  assert (scheduleInv inputs bp N L 0 (prepared bp numFrames)) as H0.
  { split; [exact Hinv|]. repeat split; intros; lia. }
  unfold NeuralNote.runSchedule.
  destruct (forLoopE_counted (scheduleInv inputs bp N L)
              (fun _ bp => inferRow bp (data_ptr zero (zeroStackedCqt zero)) 0)
              0 L 0 (prepared bp numFrames) H0) as (bp1 & Hloop1 & H1).
  { intros j st Hj Hst. rewrite Nat.add_succ_r. apply (scheduleInv_step inputs bp N L); [exact Hst| |lia|lia].
    symmetry. apply scheduleInput_zero. fold L. lia. }
  unfold L in Hloop1 at 1. rewrite Z2Nat.id in Hloop1 by lia. rewrite Hloop1. cbn [bindE].
  destruct (forLoopE_counted (scheduleInv inputs bp N L)
              (fun frameIdx bp =>
                 bindE (framePtr zero stackedCqt numFrames frameIdx)
                   (fun inData => inferRow bp inData 0))
              0 L (0 + L) bp1 H1) as (bp2 & Hloop2 & H2).
  { intros j st Hj Hst. rewrite Nat.add_succ_r, scheduleInput_frame by lia. cbn [bindE].
    apply (scheduleInv_step inputs bp N L); [exact Hst| |lia|lia].
    unfold inputs. f_equal. fold L. lia. }
  unfold L in Hloop2 at 1. rewrite Z2Nat.id in Hloop2 by lia. rewrite Hloop2. cbn [bindE].
  destruct (forLoopE_counted (scheduleInv inputs bp N L)
              (fun frameIdx bp =>
                 bindE (framePtr zero stackedCqt numFrames frameIdx)
                   (fun inData => inferRow bp inData (size_sub frameIdx mTotalLookahead)))
              mTotalLookahead (N - L) (0 + L + L) bp2 H2) as (bp3 & Hloop3 & H3).
  { intros j st Hj Hst. rewrite Nat.add_succ_r, scheduleInput_frame by lia. cbn [bindE].
    unfold size_sub. rewrite Z.mod_small by lia.
    apply (scheduleInv_step inputs bp N L); [exact Hst| |lia|lia].
    unfold inputs. f_equal. fold L. lia. }
  replace (Z.of_nat (N - L)) with (numFrames - mTotalLookahead) in Hloop3 by lia.
  rewrite Hloop3. cbn [bindE].
  destruct (forLoopE_counted (scheduleInv inputs bp N L)
              (fun frameIdx bp =>
                 inferRow bp (data_ptr zero (zeroStackedCqt zero))
                   (size_sub frameIdx mTotalLookahead))
              numFrames L (0 + L + L + (N - L)) bp3 H3) as (bp4 & Hloop4 & H4).
  { intros j st Hj Hst. rewrite Nat.add_succ_r. unfold size_sub. rewrite Z.mod_small by lia.
    apply (scheduleInv_step inputs bp N L); [exact Hst| |lia|lia].
    symmetry. apply scheduleInput_zero. fold L. lia. }
  unfold L in Hloop4 at 1. rewrite Z2Nat.id in Hloop4 by lia.
  exists bp4. split; [exact Hloop4|].
  replace (2 * L + N)%nat with (0 + L + L + (N - L) + L)%nat by lia. exact H4.
Qed.
End Schedule.

(** *** The driver on a whole clip *)

Section Clip.
Context {F : Type} (zero : F) {NetState : Type}.
Variables contourNet noteNet onsetInputNet onsetOutputNet : @Net F NetState.
Variables mNumContourStored mNumNoteStored mNumConcat2Stored : Z.
Variable featuresSession : list F -> exn + @Tensor F.
Variable convert :
  list (list F) -> list (list F) -> list (list F) -> Notes.ConvertParams -> bool
  -> list Notes.Event.
Variable mTotalLookahead : Z.
Variable clock : nat -> Z.
Variable diagEnv : option string.

Local Abbreviation BP := (@BasicPitch F NetState).
Local Abbreviation transcribeToMIDI :=
  (transcribeToMIDI zero contourNet noteNet onsetInputNet onsetOutputNet
     mNumContourStored mNumNoteStored mNumConcat2Stored featuresSession clock diagEnv
     convert mTotalLookahead).
Local Abbreviation frameRows :=
  (frameRows zero contourNet noteNet onsetInputNet onsetOutputNet
     mNumContourStored mNumNoteStored mNumConcat2Stored).

Local Abbreviation yieldsFrames := (yieldsFrames featuresSession).

Lemma computeFeaturesCore_frames (inAudio stackedCqt : list F) (N : Z) :
  yieldsFrames inAudio stackedCqt N ->
  computeFeaturesCore featuresSession inAudio = inr (stackedCqt, N).
Proof.
  intros H. unfold computeFeaturesCore. rewrite H. cbn [bindE shape tdata].
  rewrite !Z.eqb_refl. reflexivity.
Qed.

(** C1 on the code, short clips.  When the feature stage yields [N] frames
    with [0 <= N < L], the driver does not reach its post-conditions: it
    indexes row 0 of an empty posteriorgram ([N = 0]) or reads feature frame
    [N] of an [N]-frame buffer during the feature warmup. *)
Theorem transcribeToMIDI_short_clip (bp : BP) (inAudio stackedCqt : list F) (N : Z)
    (w : World) :
  yieldsFrames inAudio stackedCqt N ->
  0 <= N < mTotalLookahead ->
  pgSized bp ->
  fst (transcribeToMIDI bp inAudio w) = inl out_of_range_access.
Proof.
  intros Hfeat HN Hbp.
  destruct (quiet_transcribeToMIDI diagEnv clock zero contourNet noteNet onsetInputNet
              onsetOutputNet mNumContourStored mNumNoteStored mNumConcat2Stored
              featuresSession convert mTotalLookahead bp inAudio w) as (-> & _).
  unfold transcribeToMIDICore.
  rewrite (computeFeaturesCore_frames _ _ _ Hfeat). cbn [bindE].
  rewrite runSchedule_short by assumption. reflexivity.
Qed.

(** X23.  The driver on a clip of [N >= L] frames: all three posteriorgrams get
    exactly [N] rows, row [r] holds what frame [2 L + r] of the stream
    [L] zero frames, the [N] feature frames, [L] zero frames puts out, and
    the rows written by the streaming phase and the tail flush are
    [0, 1, .., N - 1], each once. *)
Lemma transcribeToMIDI_long_clip (bp : BP) (inAudio stackedCqt : list F) (N : Z)
    (w : World) :
  0 < mNumContourStored -> 0 < mNumNoteStored -> 0 < mNumConcat2Stored ->
  yieldsFrames inAudio stackedCqt N ->
  0 <= mTotalLookahead <= N -> N < 2 ^ 64 ->
  pgSized bp ->
  (exists bp',
     fst (transcribeToMIDI bp inAudio w) = inr bp' /\
     length (mOnsetsPG bp') = Z.to_nat N /\ length (mNotesPG bp') = Z.to_nat N /\
     length (mContoursPG bp') = Z.to_nat N /\
     forall r, (r < Z.to_nat N)%nat ->
       let out :=
         frameRows (scheduleInput zero mTotalLookahead stackedCqt N) (mBasicPitchCNN bp)
           (2 * Z.to_nat mTotalLookahead + r) in
       mContoursPG bp' !! r = Some (outContours out) /\
       mNotesPG bp' !! r = Some (outNotes out) /\
       mOnsetsPG bp' !! r = Some (outOnsets out)) /\
  map (fun frameIdx => size_sub frameIdx mTotalLookahead)
    (seqZ mTotalLookahead (N - mTotalLookahead) ++ seqZ N mTotalLookahead)
  = seqZ 0 N.
Proof.
  intros Dc Dn Do Hfeat HL HN Hbp. split; [|apply written_rows_once; assumption].
  destruct (quiet_transcribeToMIDI diagEnv clock zero contourNet noteNet onsetInputNet
              onsetOutputNet mNumContourStored mNumNoteStored mNumConcat2Stored
              featuresSession convert mTotalLookahead bp inAudio w) as (-> & _).
  unfold transcribeToMIDICore.
  rewrite (computeFeaturesCore_frames _ _ _ Hfeat). cbn [bindE].
  destruct (runSchedule_long zero contourNet noteNet onsetInputNet onsetOutputNet
              mNumContourStored mNumNoteStored mNumConcat2Stored mTotalLookahead
              Dc Dn Do stackedCqt N bp HL HN Hbp)
    as (bp' & -> & ((Lc & Ln & Lo) & _) & _ & _ & _ & Hrows).
  cbn [bindE]. exists (withEvents convert bp'). split; [reflexivity|].
  cbn [withEvents mOnsetsPG mNotesPG mContoursPG].
  do 3 (split; [assumption|]).
  intros r Hr. apply Hrows. lia.
Qed.
End Clip.

(** *** Serialized note events *)

Lemma toCoreEvents_snoc (events : list Notes.Event) (event : Notes.Event) :
  toCoreEvents (events ++ [event])
  = toCoreEvents events
    ++ [{| startTimeSeconds := Notes.startTime event;
           durationSeconds :=
             Tempo.std_max 0 (Notes.endTime event - Notes.startTime event);
           pitchMidi := Notes.pitch event;
           amplitude := Notes.amplitude event |}].
Proof. unfold toCoreEvents. rewrite fold_left_app. reflexivity. Qed.

(** C10.  The serialized events are as many as the note events and in the
    same order: their start times, pitches and amplitudes are those of the
    note events, position by position, and each duration is
    [max 0 (endTime - startTime)], so it is never negative. *)
Theorem toCoreEvents_spec (events : list Notes.Event) :
  length (toCoreEvents events) = length events /\
  map startTimeSeconds (toCoreEvents events) = map Notes.startTime events /\
  map pitchMidi (toCoreEvents events) = map Notes.pitch events /\
  map amplitude (toCoreEvents events) = map Notes.amplitude events /\
  List.Forall2
    (fun event converted =>
       (durationSeconds converted
        == Qmax 0 (Notes.endTime event - Notes.startTime event))%Q /\
       (0 <= durationSeconds converted)%Q)
    events (toCoreEvents events).
Proof.
  induction events as [|event events IH] using rev_ind.
  - repeat split. constructor.
  - destruct IH as (Hlen & Hstart & Hpitch & Hamp & Hdur).
    rewrite toCoreEvents_snoc, !length_app, !map_app, Hlen, Hstart, Hpitch, Hamp.
    repeat split. apply Forall2_app; [exact Hdur|].
    constructor; [|constructor]. cbn [durationSeconds].
    pose proof (TempoFacts.std_max_Qmax 0 (Notes.endTime event - Notes.startTime event)) as E.
    split; [exact E|]. rewrite E. apply Q.le_max_l.
Qed.

(** *** The facts on the small instance *)

(** A clip of one frame under a lookahead of ten. *)
Lemma transcribeToMIDI_short_clip_witness :
  fst (transcribeToMIDI0 stoppedClock None bp0 [5] world0) = inl out_of_range_access.
Proof.
  apply (transcribeToMIDI_short_clip 0 echoNet echoNet echoNet echoNet 8 2 8
           framePerSample noNotes 10 stoppedClock None bp0 [5]
           (flat_map (replicate (NUM_HARMONICS * NUM_FREQ_IN)) [5]) 1 world0).
  - reflexivity.
  - lia.
  - repeat split; constructor.
Defined.


(** The CLI on the empty file [in.f32]. *)
Lemma main_zero_byte_input_witness :
  effects None (main0 stoppedClock None argv0) (inr 1)
    [ProgressLine "Loading audio features..." (12 # 100)]
    ["PCM file has invalid size"] [].
Proof.
  apply (main_zero_byte_input 0 echoNet echoNet echoNet echoNet 8 2 8 framePerSample noNotes
           (256 # 1) (22050 # 1) 10 load0 files0 decode0 always always always noNumber
           noNumber showQ0 argv0 "in.f32" "out.json" "models" defaultPreset stoppedClock
           None); vm_compute; reflexivity.
Defined.

(** Flag on with a ticking clock against flag off with a stopped clock. *)
Lemma diag_flag_side_channel_witness :
  fst (main0 tickingClock (Some "1") argv0 world0) = fst (main0 stoppedClock None argv0 world0)
  /\ functional (snd (main0 tickingClock (Some "1") argv0 world0))
     = functional (snd (main0 stoppedClock None argv0 world0)).
Proof.
  assert (functional world0 = functional world0) as Hw by reflexivity.
  destruct (diag_flag_side_channel 0 echoNet echoNet echoNet echoNet 8 2 8 framePerSample
              noNotes (256 # 1) (22050 # 1) 10 load0 files0 decode0 always always always
              noNumber noNumber showQ0 loadTempo0 TempoSpec.unitKernel inject_Z
              argv0 "in.f32" "in.f32" "models" "tempo.onnx" "out.json" bp0 [5] defaultPreset
              tickingClock stoppedClock (Some "1") None world0 world0 Hw)
    as ((H1 & H2 & _) & _).
  split; [exact H1|exact H2].
Defined.

End NeuralNoteFacts.

(** ** More facts about the tempo pipeline *)
Module TempoMore.
Import Tempo TempoSpec TempoMoreSpec.
Local Open Scope Z_scope.

(** A counted loop keeps an invariant indexed by the next index. *)
Lemma fold_seqZ_invariant {St} (Inv : Z -> St -> Prop) (f : St -> Z -> St)
    (start : Z) (n : nat) (st : St) :
  Inv start st ->
  (forall i st, start <= i < start + Z.of_nat n -> Inv i st -> Inv (i + 1) (f st i)) ->
  Inv (start + Z.of_nat n) (fold_left f (seqZ start (Z.of_nat n)) st).
Proof.
  intros H0 Hstep. induction n as [|n IH].
  - rewrite Z.add_0_r. exact H0.
  - rewrite seqZ_S, fold_left_app. cbn [fold_left].
    replace (start + Z.of_nat (S n)) with (start + Z.of_nat n + 1) by lia.
    apply Hstep; [lia|]. apply IH. intros i st' Hi. apply Hstep. lia.
Qed.

(** *** argmax *)

Lemma scan_first_maximum (get : Z -> Q) (n : nat) :
  let st :=
    fold_left
      (fun '(bestIndex, bestValue) index =>
         if Qltb bestValue (get index) then (index, get index) else (bestIndex, bestValue))
      (seqZ 1 (Z.of_nat n)) (0, get 0) in
  snd st = get (fst st) /\ firstMaximum get (1 + Z.of_nat n) (fst st).
Proof.
  pose proof (fold_seqZ_invariant (scanned get)
                (fun '(bestIndex, bestValue) index =>
                   if Qltb bestValue (get index)
                   then (index, get index) else (bestIndex, bestValue))
                1 n (0, get 0)) as H.
  cbv zeta. destruct (fold_left _ _ _) as [bestIndex bestValue]. cbn [fst snd].
  destruct H as (Hi & -> & Hmax & Hfirst).
  - split; [lia|]. split; [reflexivity|]. split.
    + intros j Hj. assert (j = 0) as -> by lia. apply Qle_refl.
    + intros j Hj. lia.
  - intros i [b v] Hi (Hb & -> & Hmax & Hfirst).
    destruct (Qltb (get b) (get i)) eqn:E.
    + apply TempoFacts.Qltb_lt in E. split; [lia|]. split; [reflexivity|]. split.
      * intros j Hj. destruct (Z.eq_dec j i) as [->|]; [apply Qle_refl|].
        apply Qlt_le_weak. eapply Qle_lt_trans; [apply Hmax; lia|exact E].
      * intros j Hj. eapply Qle_lt_trans; [apply Hmax; lia|exact E].
    + apply TempoFacts.Qltb_ge in E. split; [lia|]. split; [reflexivity|]. split.
      * intros j Hj. destruct (Z.eq_dec j i) as [->|]; [exact E|]. apply Hmax. lia.
      * exact Hfirst.
  - split; [reflexivity|]. split; [lia|]. split; [exact Hmax|exact Hfirst].
Qed.

(** X1.  [argmax] returns a position of the largest value, the first one among
    equals. *)
Theorem argmax_first_maximum (values : list Q) :
  values <> [] -> firstMaximum (at_ values) (size values) (argmax values).
Proof.
  intros Hne. destruct values as [|front rest]; [contradiction|].
  unfold argmax. set (values := front :: rest).
  replace (size values - 1) with (Z.of_nat (length rest)) by (unfold size; simpl; lia).
  replace (size values) with (1 + Z.of_nat (length rest)) by (unfold size; simpl; lia).
  change front with (at_ values 0).
  apply (scan_first_maximum (at_ values) (length rest)).
Qed.

Lemma argmax_first_maximum_witness :
  firstMaximum (at_ [1; 3; 2; 3]%Q) 4 (argmax [1; 3; 2; 3]%Q) /\ argmax [1; 3; 2; 3]%Q = 1.
Proof.
  assert ([1; 3; 2; 3]%Q <> []) as Hne by discriminate.
  split; [exact (argmax_first_maximum [1; 3; 2; 3]%Q Hne)|reflexivity].
Defined.

(** *** classIndexToBpm and predictionRowsToBpmSeries *)

(** A class index is turned into [index + 30] bpm, kept within [20, 300]. *)
Lemma classIndexToBpm_range (index : Q) :
  (kTempoMinBpm <= classIndexToBpm index <= kTempoMaxBpm)%Q /\
  ((-10 <= index <= 270)%Q -> (classIndexToBpm index == index + 30)%Q) /\
  ((index <= -10)%Q -> (classIndexToBpm index == 20)%Q) /\
  ((270 <= index)%Q -> (classIndexToBpm index == 300)%Q).
Proof.
  unfold classIndexToBpm. split.
  - apply TempoFacts.clampDouble_bounds. unfold kTempoMinBpm, kTempoMaxBpm. lra.
  - rewrite TempoFacts.clampDouble_Qclamp. unfold kTempoMinBpm, kTempoMaxBpm.
    repeat split; intros H.
    + rewrite Q.min_r by lra. rewrite Q.max_r by lra. reflexivity.
    + rewrite Q.min_r by lra. rewrite Q.max_l by lra. reflexivity.
    + rewrite Q.min_l by lra. rewrite Q.max_r by lra. reflexivity.
Qed.

Lemma classIndexToBpm_class (k : Z) :
  0 <= k < kTempoClasses -> classIndexToBpm (inject_Z k) = (inject_Z k + 30)%Q.
Proof.
  intros Hk. unfold classIndexToBpm, clampDouble, std_max, std_min, kTempoMinBpm, kTempoMaxBpm.
  unfold kTempoClasses in Hk.
  assert (0 <= inject_Z k <= 255)%Q as Hq.
  { split; [change 0%Q with (inject_Z 0)|change 255%Q with (inject_Z 255)];
      rewrite <- Zle_Qle; lia. }
  replace (Qltb (inject_Z k + 30) 300) with true
    by (symmetry; apply TempoFacts.Qltb_lt; lra).
  replace (Qltb 20 (inject_Z k + 30)) with true
    by (symmetry; apply TempoFacts.Qltb_lt; lra).
  reflexivity.
Qed.

(** X2.  The local series has one entry per window: 30 bpm plus the first
    position of the largest of the 256 class values of that window's row. *)
Theorem predictionRowsToBpmSeries_rows (predictions : list Q) (numWindows : Z) :
  length (predictionRowsToBpmSeries predictions numWindows) = Z.to_nat numWindows /\
  forall row, 0 <= row < numWindows ->
    exists best,
      firstMaximum (fun col => at_ predictions (row * kTempoClasses + col)) kTempoClasses best
      /\ at_ (predictionRowsToBpmSeries predictions numWindows) row
         = (inject_Z best + 30)%Q.
Proof.
  unfold predictionRowsToBpmSeries. split.
  - rewrite length_map, length_seqZ. lia.
  - intros row Hrow. unfold at_ at 2.
    rewrite (TempoFacts.nth_map_seqZ _ _ _ 0%Q) by lia. rewrite Z2Nat.id by lia.
    destruct (scan_first_maximum (fun col => at_ predictions (row * kTempoClasses + col)) 255)
      as [_ Hbest].
    cbv zeta in Hbest. rewrite Z.add_0_r in Hbest.
    change (kTempoClasses - 1) with (Z.of_nat 255).
    match goal with |- context [fst ?st] => set (best := fst st) in * end.
    exists best. split; [exact Hbest|].
    apply classIndexToBpm_class. destruct Hbest as [Hb _]. exact Hb.
Qed.

Lemma predictionRowsToBpmSeries_rows_witness :
  length (predictionRowsToBpmSeries (replicate 512 0%Q) 2) = 2%nat.
Proof.
  destruct (predictionRowsToBpmSeries_rows (replicate 512 0%Q) 2) as [H _]. exact H.
Defined.

(** *** normalizeByMax *)

Lemma max_element_spec (front : Q) (rest : list Q) :
  In (max_element front rest) (front :: rest) /\
  forall x, In x (front :: rest) -> (x <= max_element front rest)%Q.
Proof.
  unfold max_element. revert front. induction rest as [|y rest IH]; intros front.
  - cbn. split; [auto|]. intros x [<-|[]]. apply Qle_refl.
  - cbn [fold_left]. destruct (Qltb front y) eqn:E.
    + apply TempoFacts.Qltb_lt in E. destruct (IH y) as [Hin Hmax]. split.
      * right. exact Hin.
      * intros x [<-|Hx]; [|apply Hmax; exact Hx].
        apply Qlt_le_weak. eapply Qlt_le_trans; [exact E|]. apply Hmax. left. reflexivity.
    + apply TempoFacts.Qltb_ge in E. destruct (IH front) as [Hin Hmax]. split.
      * destruct Hin as [Hin|Hin]; [left; exact Hin|right; right; exact Hin].
      * intros x [<-|[<-|Hx]].
        -- apply Hmax. left. reflexivity.
        -- eapply Qle_trans; [exact E|]. apply Hmax. left. reflexivity.
        -- apply Hmax. right. exact Hx.
Qed.

(** X3.  A tensor with a positive value is divided by its largest value, so that
    no entry exceeds 1 and the peak is 1; a tensor without positive value is
    left as it is. *)
Theorem normalizeByMax_peak (tensor : list Q) :
  length (normalizeByMax tensor) = length tensor /\
  ((forall x, In x tensor -> (x <= 0)%Q) -> normalizeByMax tensor = tensor) /\
  ((exists x, In x tensor /\ (0 < x)%Q) ->
   exists peak,
     In peak tensor /\ (0 < peak)%Q /\ (forall x, In x tensor -> (x <= peak)%Q) /\
     normalizeByMax tensor = map (fun value => (value / peak)%Q) tensor /\
     List.Forall (fun value => (value <= 1)%Q) (normalizeByMax tensor) /\
     List.Exists (fun value => (value == 1)%Q) (normalizeByMax tensor)).
Proof.
  destruct tensor as [|front rest].
  { split; [reflexivity|]. split; [reflexivity|]. intros (x & [] & _). }
  unfold normalizeByMax.
  destruct (max_element_spec front rest) as [Hin Hmax].
  set (peak := max_element front rest) in *.
  destruct (Qle_bool peak 0) eqn:E.
  - apply Qle_bool_iff in E. split; [reflexivity|]. split; [reflexivity|].
    intros (x & Hx & Hpos). specialize (Hmax x Hx). lra.
  - assert (0 < peak)%Q as Hpos.
    { apply Qnot_le_lt. intros H. apply Qle_bool_iff in H. congruence. }
    split; [apply length_map|]. split.
    + intros Hall. specialize (Hall peak Hin). lra.
    + intros _. exists peak. do 4 (split; [first [assumption|reflexivity]|]). split.
      * apply List.Forall_forall. intros y Hy. apply in_map_iff in Hy.
        destruct Hy as (x & <- & Hx). specialize (Hmax x Hx).
        apply Qle_shift_div_r; [exact Hpos|]. lra.
      * apply List.Exists_exists. exists (peak / peak)%Q. split.
        -- apply in_map_iff. exists peak. split; [reflexivity|exact Hin].
        -- field. lra.
Qed.

Lemma normalizeByMax_peak_witness :
  normalizeByMax [-1; 0]%Q = [-1; 0]%Q.
Proof.
  destruct (normalizeByMax_peak [-1; 0]%Q) as (_ & H & _). apply H.
  intros x [<-|[<-|[]]]; discriminate.
Defined.

(** *** compressTempoPoints *)

Lemma compressLoop_sublist (rest acc : list TempoPoint) (front : TempoPoint) :
  exists kept,
    fold_left (fun compressed current =>
                 compressStep compressed (List.last compressed front) current) rest acc
    = acc ++ kept /\ sublist kept rest.
Proof.
  revert acc. induction rest as [|current rest IH]; intros acc.
  - exists []. rewrite app_nil_r. split; [reflexivity|constructor].
  - cbn [fold_left]. unfold compressStep at 2.
    destruct (_ && _).
    + destruct (IH acc) as (kept & -> & Hsub). exists kept.
      split; [reflexivity|]. apply sublist_cons. exact Hsub.
    + destruct (IH (acc ++ [current])) as (kept & -> & Hsub). exists (current :: kept).
      rewrite <- app_assoc. split; [reflexivity|]. apply sublist_skip. exact Hsub.
Qed.

(** X7.  The compressed map is taken from the rounded points in their order, and
    it always starts with the first of them. *)
Theorem compressTempoPoints_sublist (bpmSeries : list Q) (hopSeconds : Q) :
  sublist (compressTempoPoints bpmSeries hopSeconds) (rawTempoPoints bpmSeries hopSeconds) /\
  head (compressTempoPoints bpmSeries hopSeconds)
  = head (rawTempoPoints bpmSeries hopSeconds) /\
  (length (compressTempoPoints bpmSeries hopSeconds) <= length bpmSeries)%nat.
Proof.
  assert (length (rawTempoPoints bpmSeries hopSeconds) = length bpmSeries) as Hlen.
  { unfold rawTempoPoints. rewrite length_map, length_seqZ. unfold size. lia. }
  unfold compressTempoPoints.
  destruct (rawTempoPoints bpmSeries hopSeconds) as [|front rest].
  { split; [constructor|]. split; [reflexivity|]. simpl. lia. }
  destruct (compressLoop_sublist rest [front] front) as (kept & -> & Hsub).
  split; [apply sublist_skip; exact Hsub|]. split; [reflexivity|].
  rewrite <- Hlen. apply sublist_length in Hsub. simpl. lia.
Qed.

Lemma compressLoop_keeps (rest acc : list TempoPoint) (front : TempoPoint) :
  acc <> [] -> adjacent spaced (List.last acc front :: rest) ->
  fold_left (fun compressed current =>
               compressStep compressed (List.last compressed front) current) rest acc
  = acc ++ rest.
Proof.
  revert acc. induction rest as [|current rest IH]; intros acc Hne Hadj.
  - rewrite app_nil_r. reflexivity.
  - cbn [fold_left]. destruct Hadj as [Hgap Hadj]. unfold compressStep at 2.
    replace (Qltb (timeSeconds current - timeSeconds (List.last acc front))
               kLocalTempoMinTimeDelta) with false
      by (symmetry; apply TempoFacts.Qltb_ge; exact Hgap).
    cbn [andb]. rewrite IH.
    + rewrite <- app_assoc. reflexivity.
    + destruct acc; discriminate.
    + rewrite List.last_last. exact Hadj.
Qed.

Lemma adjacent_map_seqZ {A} (R : A -> A -> Prop) (f : Z -> A) (m : Z) (n : nat) :
  (forall i, m <= i -> i + 1 < m + Z.of_nat n -> R (f i) (f (i + 1))) ->
  adjacent R (map f (seqZ m (Z.of_nat n))).
Proof.
  revert m. induction n as [|n IH]; intros m HR; [exact I|].
  rewrite seqZ_cons by lia. cbn [map adjacent].
  replace (Z.pred (Z.of_nat (S n))) with (Z.of_nat n) by lia. split.
  - destruct n as [|n]; [exact I|].
    rewrite seqZ_cons by lia. cbn [map]. apply HR; lia.
  - apply IH. intros i Hi Hj. apply HR; lia.
Qed.

Lemma std_round_gap (a b : Q) (gap : Z) :
  (0 <= a)%Q -> 0 <= gap -> (a + inject_Z gap <= b)%Q -> std_round a + gap <= std_round b.
Proof.
  intros Ha Hgap Hab.
  assert (0 <= inject_Z gap)%Q as Hg by (change 0%Q with (inject_Z 0); rewrite <- Zle_Qle; lia).
  rewrite !TempoFacts.std_round_nonneg by lra.
  pose proof (Qfloor_le (a + (1 # 2))) as H1. pose proof (Qlt_floor (b + (1 # 2))) as H2.
  assert (inject_Z (Qfloor (a + (1 # 2)) + gap) < inject_Z (Qfloor (b + (1 # 2)) + 1))%Q as H.
  { rewrite inject_Z_plus. lra. }
  rewrite <- Zlt_Qlt in H. lia.
Qed.

(** With a hop of at least 0.7 s between the points nothing is dropped. *)
Lemma compressTempoPoints_keeps_all (bpmSeries : list Q) (hopSeconds : Q) :
  (kLocalTempoMinTimeDelta <= hopSeconds)%Q ->
  compressTempoPoints bpmSeries hopSeconds = rawTempoPoints bpmSeries hopSeconds /\
  length (compressTempoPoints bpmSeries hopSeconds) = length bpmSeries.
Proof.
  intros Hhop.
  assert (length (rawTempoPoints bpmSeries hopSeconds) = length bpmSeries) as Hlen.
  { unfold rawTempoPoints. rewrite length_map, length_seqZ. unfold size. lia. }
  assert (adjacent spaced (rawTempoPoints bpmSeries hopSeconds)) as Hadj.
  { unfold rawTempoPoints, size. apply adjacent_map_seqZ. intros i Hi _.
    unfold spaced, kLocalTempoMinTimeDelta in *. cbn [timeSeconds].
    rewrite !TempoFacts.roundToDecimals_6.
    assert (0 <= inject_Z i)%Q as Qi by (change 0%Q with (inject_Z 0); rewrite <- Zle_Qle; lia).
    assert (std_round (inject_Z i * hopSeconds * 1000000) + 700000
            <= std_round (inject_Z (i + 1) * hopSeconds * 1000000)) as H.
    { apply std_round_gap; [|lia|].
      - apply Qmult_le_0_compat; [|lra]. apply Qmult_le_0_compat; lra.
      - rewrite inject_Z_plus. change (inject_Z 1) with 1%Q.
        change (inject_Z 700000) with 700000%Q. lra. }
    rewrite Zle_Qle, inject_Z_plus in H. change (inject_Z 700000) with 700000%Q in H.
    set (x := inject_Z (std_round (inject_Z i * hopSeconds * 1000000))) in *.
    set (y := inject_Z (std_round (inject_Z (i + 1) * hopSeconds * 1000000))) in *.
    assert (E : (y / 1000000 - x / 1000000 == (y - x) / 1000000)%Q) by field.
    rewrite E. apply Qle_shift_div_l; [reflexivity|]. lra. }
  assert (compressTempoPoints bpmSeries hopSeconds = rawTempoPoints bpmSeries hopSeconds) as E.
  { unfold compressTempoPoints.
    destruct (rawTempoPoints bpmSeries hopSeconds) as [|front rest]; [reflexivity|].
    apply (compressLoop_keeps rest [front] front); [discriminate|exact Hadj]. }
  split; [exact E|]. rewrite E. exact Hlen.
Qed.

(** *** averagePredictions *)

Lemma column_sum_bounds (get : Z -> Q) (n : nat) (lo hi : Q) :
  (forall row, 0 <= row < Z.of_nat n -> (lo <= get row <= hi)%Q) ->
  let total := fold_left (fun acc row => (acc + get row)%Q) (seqZ 0 (Z.of_nat n)) 0%Q in
  (inject_Z (Z.of_nat n) * lo <= total <= inject_Z (Z.of_nat n) * hi)%Q.
Proof.
  intros Hget.
  apply (fold_seqZ_invariant
           (fun k acc => (inject_Z k * lo <= acc <= inject_Z k * hi)%Q)
           (fun acc row => (acc + get row)%Q) 0 n 0%Q).
  - change (inject_Z 0) with 0%Q. lra.
  - intros i acc Hi Hacc. specialize (Hget i ltac:(lia)).
    rewrite inject_Z_plus. change (inject_Z 1) with 1%Q. lra.
Qed.

Lemma averagePredictions_length (predictions : list Q) (numWindows : Z) :
  length (averagePredictions predictions numWindows) = Z.to_nat kTempoClasses.
Proof.
  unfold averagePredictions. destruct (numWindows <=? 0); [apply length_replicate|].
  rewrite length_map, length_seqZ. reflexivity.
Qed.

(** X4.  The average has always 256 entries: zeros when there is no window, and
    otherwise, for predictions that all lie between two bounds, values
    between the same bounds. *)
Theorem averagePredictions_bounds (predictions : list Q) (numWindows : Z) (lo hi : Q) :
  length (averagePredictions predictions numWindows) = Z.to_nat kTempoClasses /\
  (numWindows <= 0 ->
   averagePredictions predictions numWindows = replicate (Z.to_nat kTempoClasses) 0%Q) /\
  (0 < numWindows ->
   (forall i, 0 <= i < numWindows * kTempoClasses -> (lo <= at_ predictions i <= hi)%Q) ->
   List.Forall (fun value => (lo <= value <= hi)%Q)
     (averagePredictions predictions numWindows)).
Proof.
  unfold averagePredictions. split; [|split].
  - destruct (numWindows <=? 0); [apply length_replicate|].
    rewrite length_map, length_seqZ. reflexivity.
  - intros H. replace (numWindows <=? 0) with true by lia. reflexivity.
  - intros Hpos Hall. replace (numWindows <=? 0) with false by lia.
    apply List.Forall_forall. intros value Hin. apply in_map_iff in Hin.
    destruct Hin as (col & <- & Hcol). apply list_elem_of_In, elem_of_seqZ in Hcol.
    pose proof (column_sum_bounds (fun row => at_ predictions (row * kTempoClasses + col))
                  (Z.to_nat numWindows) lo hi) as H.
    cbv zeta in H. rewrite Z2Nat.id in H by lia.
    assert (0 < inject_Z numWindows)%Q as Hn
      by (change 0%Q with (inject_Z 0); rewrite <- Zlt_Qlt; exact Hpos).
    destruct H as [H1 H2].
    { intros row Hrow. apply Hall. unfold kTempoClasses in *. nia. }
    split.
    + apply Qle_shift_div_l; [exact Hn|]. lra.
    + apply Qle_shift_div_r; [exact Hn|]. lra.
Qed.

Lemma averagePredictions_bounds_witness :
  List.Forall (fun value => (0 <= value <= 1)%Q)
    (averagePredictions (replicate 512 (1 # 2)%Q) 2).
Proof.
  destruct (averagePredictions_bounds (replicate 512 (1 # 2)%Q) 2 0 1) as (_ & _ & H).
  apply H; [lia|]. intros i Hi. unfold at_. rewrite nth_lookup.
  rewrite lookup_replicate_2 by (unfold kTempoClasses in Hi; lia).
  split; discriminate.
Defined.

(** *** roundToDecimals *)






(** *** movingAverageSame *)

(** X6.  The window is made odd and at least 1: an even width behaves as the next
    odd one, and a width of 1 or less leaves every value as it is. *)
Theorem movingAverageSame_window (values : list Q) (windowSize : Z) :
  (2 <= windowSize -> Z.even windowSize = true ->
   movingAverageSame values windowSize = movingAverageSame values (windowSize + 1)) /\
  (windowSize <= 1 ->
   length (movingAverageSame values windowSize) = length values /\
   forall i, (i < length values)%nat ->
     (nth i (movingAverageSame values windowSize) 0 == nth i values 0)%Q).
Proof.
  split.
  - intros Hw Heven. unfold movingAverageSame.
    assert (safeWindowOf windowSize = safeWindowOf (windowSize + 1)) as ->; [|reflexivity].
    unfold safeWindowOf. rewrite !Z.max_r by lia.
    apply Z.even_spec in Heven. destruct Heven as [k ->].
    replace (Z.rem (2 * k) 2) with 0
      by (rewrite Z.rem_mod_nonneg by lia; rewrite Z.mul_comm, Z.mod_mul by lia; reflexivity).
    replace (Z.rem (2 * k + 1) 2) with 1.
    + reflexivity.
    + rewrite Z.rem_mod_nonneg by lia. rewrite Z.add_comm, Z.mul_comm, Z.mod_add by lia.
      reflexivity.
  - intros Hw. unfold movingAverageSame.
    destruct values as [|v values]; [split; [reflexivity|simpl; lia]|].
    cbn [isEmpty]. set (vs := v :: values).
    assert (safeWindowOf windowSize = 1) as ->
      by (unfold safeWindowOf; rewrite Z.max_l by lia; reflexivity).
    change (Z.quot 1 2) with 0. split.
    + rewrite length_map, length_seqZ. unfold size. lia.
    + intros i Hi. rewrite TempoFacts.nth_map_seqZ by (unfold size; lia).
      unfold windowSum. change (seqZ (- 0) (2 * 0 + 1)) with [0]. cbn [fold_left].
      rewrite Z.add_0_r.
      replace ((Z.of_nat i <? 0) || (Z.of_nat i >=? size vs)) with false
        by (unfold size; lia).
      unfold at_. rewrite Nat2Z.id. change (inject_Z 1) with 1%Q. field.
Qed.

Lemma movingAverageSame_window_witness :
  movingAverageSame [1; 2; 3]%Q 4 = movingAverageSame [1; 2; 3]%Q 5 /\
  length (movingAverageSame [1; 2; 3]%Q 0) = 3%nat.
Proof.
  destruct (movingAverageSame_window [1; 2; 3]%Q 4) as [H4 _].
  destruct (movingAverageSame_window [1; 2; 3]%Q 0) as [_ H0].
  split; [apply H4; [lia|reflexivity]|]. apply H0. lia.
Defined.

(** *** runModel and estimate *)

(** X11.  Whenever the model run returns, the session gave a tensor of shape
    [numWindows, 256] for the input shape [numWindows, 40, 256, 1], and the
    result holds its first [numWindows * 256] values. *)
Theorem runModel_output (session : Session) (inputData : list Q) (numWindows : Z)
    (output : list Q) :
  runModel session inputData numWindows = inr output ->
  0 < numWindows /\
  size output = numWindows * kTempoClasses /\
  exists t,
    session inputData [numWindows; kMelBands; kWindowFrames; 1] = inr (Some t) /\
    shape t = [numWindows; kTempoClasses] /\
    forall i, 0 <= i < numWindows * kTempoClasses -> at_ output i = at_ (values t) i.
Proof.
  unfold runModel. destruct (Z.leb_spec numWindows 0) as [|Hpos]; [discriminate|].
  destruct (session inputData _) as [e|[t|]]; try discriminate.
  destruct (bool_decide (shape t = [numWindows; kTempoClasses])) eqn:E; [|discriminate].
  apply bool_decide_eq_true_1 in E. intros [= <-].
  split; [exact Hpos|]. split.
  - unfold size. rewrite length_map, length_seqZ. unfold kTempoClasses. lia.
  - exists t. do 2 (split; [first [reflexivity|assumption]|]). intros i Hi.
    unfold at_ at 1. rewrite (TempoFacts.nth_map_seqZ _ _ _ 0%Q) by lia.
    rewrite Z2Nat.id by lia. reflexivity.
Qed.

Lemma runModel_output_witness :
  size (match runModel peakSession [] 2 with inr output => output | inl _ => [] end)
  = 2 * kTempoClasses.
Proof.
  destruct (runModel peakSession [] 2) as [e|output] eqn:E.
  - vm_compute in E. discriminate.
  - destruct (runModel_output peakSession [] 2 output E) as (_ & H & _). exact H.
Defined.

Lemma movingAverageSame_length (values : list Q) (windowSize : Z) :
  length (movingAverageSame values windowSize) = length values.
Proof.
  unfold movingAverageSame. destruct values as [|v values]; [reflexivity|].
  cbn [isEmpty]. rewrite length_map, length_seqZ. unfold size. lia.
Qed.

(** What a successful [estimate] has computed. *)
Lemma estimate_inr melEnergy session (samples : list Q) options result :
  estimate melEnergy session samples options = inr result ->
  samples <> [] /\
  let mel := computeMelSpectrogram melEnergy samples in
  let globalWindows := toSlidingWindows mel kWindowFrames kGlobalHopFrames false in
  let localWindows := toSlidingWindows mel kWindowFrames kLocalHopFrames true in
  (exists globalPrediction,
     runModel session (normalizeByMax (wdata globalWindows)) (numWindows globalWindows)
     = inr globalPrediction /\
     let averaged := averagePredictions globalPrediction (numWindows globalWindows) in
     tempoBpm result
     = classIndexToBpm (if interpolate options
                        then interpolateArgmax averaged (argmax averaged)
                        else inject_Z (argmax averaged))) /\
  (localTempo options = false -> tempoMap result = []) /\
  (localTempo options = true ->
   exists localPrediction,
     runModel session (normalizeByMax (wdata localWindows)) (numWindows localWindows)
     = inr localPrediction /\
     tempoMap result
     = compressTempoPoints
         (map (fun bpm => clampDouble bpm kTempoMinBpm kTempoMaxBpm)
            (movingAverageSame
               (predictionRowsToBpmSeries localPrediction (numWindows localWindows))
               kLocalSmoothingWindow))
         localHopSeconds).
Proof.
  intros H. assert (samples <> []) as Hne.
  { intros ->. discriminate H. }
  split; [exact Hne|].
  destruct (TempoFacts.computeMelSpectrogram_frames melEnergy samples Hne) as [HT Hsz].
  assert (0 < totalFrames (computeMelSpectrogram melEnergy samples)) as Hpos.
  { rewrite HT. pose proof (Z.div_pos (size samples) kStftHopLength).
    unfold size, kStftHopLength in *. lia. }
  cbv zeta.
  destruct (TempoFacts.windows_nonempty _ kLocalHopFrames true Hpos Hsz) as [Hn He].
  unfold estimate in H.
  destruct (isEmpty samples); [discriminate|].
  destruct (_ || _); [discriminate|]. destruct (_ || _); [discriminate|].
  destruct (runModel session _ _) as [e|globalPrediction]; [discriminate|].
  destruct (localTempo options).
  - rewrite He in H.
    replace (0 <? numWindows (toSlidingWindows (computeMelSpectrogram melEnergy samples)
                                kWindowFrames kLocalHopFrames true)) with true in H by lia.
    cbn [andb negb] in H.
    destruct (runModel session _ _) as [e|localPrediction]; [discriminate|].
    injection H as <-. cbn [tempoBpm tempoMap]. split; [eauto|].
    split; [discriminate|]. intros _. eauto.
  - injection H as <-. cbn [tempoBpm tempoMap]. split; [eauto|].
    split; [reflexivity|discriminate].
Qed.

Lemma argmax_range (values : list Q) : 0 <= argmax values <= Z.max 0 (size values - 1).
Proof.
  destruct values as [|front rest]; [simpl; lia|].
  unfold argmax. set (values := front :: rest).
  replace (size values - 1) with (Z.of_nat (length rest)) by (unfold size; simpl; lia).
  change front with (at_ values 0).
  destruct (scan_first_maximum (at_ values) (length rest)) as [_ [H _]]. lia.
Qed.

Lemma interpolateArgmax_near (values : list Q) (c : Z) :
  (inject_Z c - 1 <= interpolateArgmax values c <= inject_Z c + 1)%Q.
Proof.
  unfold interpolateArgmax.
  destruct (_ || _); [lra|]. destruct (Qltb _ _); [lra|].
  match goal with |- context [clampDouble ?d _ _] =>
    pose proof (TempoFacts.clampDouble_bounds d (- (1)) 1) as B end.
  assert (- (1) <= 1)%Q as H1 by lra. specialize (B H1). lra.
Qed.

(** X9.  The global tempo of a successful estimate is 30 bpm plus a class index,
    refined by at most one class when interpolation is on: it lies within
    [29, 286], so the clamp to [20, 300] is never reached; without
    interpolation it is a whole number of bpm from 30 to 285.  Without
    [localTempo] the tempo map is empty. *)
Theorem estimate_tempoBpm_range melEnergy session (samples : list Q) options result :
  estimate melEnergy session samples options = inr result ->
  (29 <= tempoBpm result <= 286)%Q /\
  (interpolate options = false ->
   exists class, 0 <= class < kTempoClasses /\ tempoBpm result = (inject_Z class + 30)%Q) /\
  (localTempo options = false -> tempoMap result = []).
Proof.
  intros H. destruct (estimate_inr _ _ _ _ _ H) as (_ & (gp & _ & Hbpm) & Hno & _).
  cbv zeta in Hbpm.
  set (averaged := averagePredictions gp _) in *.
  assert (0 <= argmax averaged < kTempoClasses) as Hc.
  { pose proof (argmax_range averaged) as Hr.
    pose proof (averagePredictions_length gp
                  (numWindows (toSlidingWindows (computeMelSpectrogram melEnergy samples)
                                 kWindowFrames kGlobalHopFrames false))) as Hlen.
    fold averaged in Hlen. unfold size in Hr. rewrite Hlen in Hr.
    unfold kTempoClasses in *. lia. }
  assert (0 <= inject_Z (argmax averaged) <= 255)%Q as Hq.
  { unfold kTempoClasses in Hc.
    split; [change 0%Q with (inject_Z 0)|change 255%Q with (inject_Z 255)];
      rewrite <- Zle_Qle; lia. }
  split; [|split; [|exact Hno]].
  - rewrite Hbpm.
    set (index := if interpolate options then _ else _).
    assert (-1 <= index <= 256)%Q as Hi.
    { unfold index. destruct (interpolate options); [|lra].
      pose proof (interpolateArgmax_near averaged (argmax averaged)). lra. }
    destruct (classIndexToBpm_range index) as (_ & E & _). rewrite E by lra. lra.
  - intros Hint. rewrite Hint in Hbpm. exists (argmax averaged).
    split; [exact Hc|]. rewrite Hbpm. apply classIndexToBpm_class. exact Hc.
Qed.

Lemma estimate_tempoBpm_range_witness : (29 <= tempoBpm sampleEstimate <= 286)%Q.
Proof.
  apply (estimate_tempoBpm_range unitKernel peakSession longInput bothOptions).
  vm_compute. reflexivity.
Defined.

(** X8.  With [localTempo], a successful estimate on [n] samples has one tempo
    point per local window, none dropped: [(1 + n / 512) / 32 + 1] points,
    point [k] at [k] hops of 32 * 512 / 11025 s rounded to 6 decimals. *)
Theorem estimate_tempoMap_points melEnergy session (samples : list Q) options result :
  estimate melEnergy session samples options = inr result ->
  localTempo options = true ->
  map timeSeconds (tempoMap result)
  = map (fun k => roundToDecimals (inject_Z k * localHopSeconds) 6)
      (seqZ 0 ((1 + size samples / kStftHopLength) / kLocalHopFrames + 1)).
Proof.
  intros H Hlocal.
  destruct (estimate_inr _ _ _ _ _ H) as (Hne & _ & _ & Hmap).
  destruct (Hmap Hlocal) as (lp & _ & ->). clear Hmap.
  destruct (TempoFacts.computeMelSpectrogram_frames melEnergy samples Hne) as [HT Hsz].
  assert (0 <= size samples / kStftHopLength) as Hdiv.
  { apply Z.div_pos; [unfold size; lia|reflexivity]. }
  set (mel := computeMelSpectrogram melEnergy samples) in *.
  assert (0 < totalFrames mel) as Hpos by lia.
  destruct (TempoFacts.toSlidingWindows_windows mel kLocalHopFrames true Hpos Hsz)
    as (HN & _ & _).
  cbv zeta in HN.
  assert (numWindows (toSlidingWindows mel kWindowFrames kLocalHopFrames true)
          = (1 + size samples / kStftHopLength) / kLocalHopFrames + 1) as HN'.
  { rewrite HN, HT. unfold workingLength, kWindowFrames, kLocalHopFrames.
    change (Z.max 1 32) with 32.
    rewrite (Z.max_l (1 + size samples / kStftHopLength + 256) 256) by lia.
    do 2 f_equal. lia. }
  rewrite HN'. clear HN HN'.
  set (N := (1 + size samples / kStftHopLength) / kLocalHopFrames + 1).
  destruct (compressTempoPoints_keeps_all
              (map (fun bpm => clampDouble bpm kTempoMinBpm kTempoMaxBpm)
                 (movingAverageSame (predictionRowsToBpmSeries lp N) kLocalSmoothingWindow))
              localHopSeconds) as [-> _].
  { vm_compute. discriminate. }
  unfold rawTempoPoints. rewrite map_map. cbn [timeSeconds].
  f_equal. f_equal. unfold size.
  rewrite length_map, movingAverageSame_length.
  unfold predictionRowsToBpmSeries. rewrite length_map, length_seqZ.
  assert (0 <= (1 + Z.of_nat (length samples) / kStftHopLength) / kLocalHopFrames).
  { apply Z.div_pos; [unfold size in Hdiv; lia|reflexivity]. }
  unfold N, size. lia.
Qed.

Lemma estimate_tempoMap_points_witness :
  map timeSeconds (tempoMap sampleEstimate)
  = map (fun k => roundToDecimals (inject_Z k * localHopSeconds) 6) (seqZ 0 2).
Proof.
  apply (estimate_tempoMap_points unitKernel peakSession longInput bothOptions).
  - vm_compute. reflexivity.
  - reflexivity.
Defined.

(** *** computeMelSpectrogram *)

Lemma padded_signal (monoSamples : list Q) :
  copy_range monoSamples 0 (length monoSamples)
    (replicate (length monoSamples + Z.to_nat (Z.quot kNfft 2 * 2)) 0%Q)
    (Z.to_nat (Z.quot kNfft 2))
  = paddedSignal monoSamples.
Proof.
  unfold copy_range, paddedSignal.
  change (Z.to_nat (Z.quot kNfft 2 * 2)) with 1024%nat.
  change (Z.to_nat (Z.quot kNfft 2)) with 512%nat.
  rewrite take_replicate, drop_replicate, drop_0, firstn_all.
  do 2 f_equal; f_equal; lia.
Qed.

Lemma melFilled_insert melEnergy monoSamples frameCount k m cells :
  0 <= k < frameCount -> 0 <= m < kMelBands ->
  melFilled melEnergy monoSamples frameCount k m cells ->
  melFilled melEnergy monoSamples frameCount k (m + 1)
    (<[Z.to_nat (m * frameCount + k) := melEnergy (analysisFrame monoSamples k) m]> cells).
Proof.
  intros Hk Hm [Hsize Hcells]. unfold kMelBands in *. split.
  - unfold size in *. rewrite length_insert. exact Hsize.
  - intros mel frameIndex Hmel Hf.
    destruct (decide (mel = m /\ frameIndex = k)) as [[-> ->]|Hne].
    + apply list_lookup_insert_eq. unfold size in Hsize. nia.
    + rewrite list_lookup_insert_ne; [apply Hcells; [exact Hmel|lia]|].
      intros E. apply Hne.
      assert (0 <= frameIndex < frameCount) as Hfi by lia.
      assert (0 <= m * frameCount /\ 0 <= mel * frameCount) as [H1 H2] by nia.
      assert (m * frameCount + k = mel * frameCount + frameIndex) as E' by lia.
      destruct (Z.lt_trichotomy m mel) as [Hlt|[->|Hgt]].
      * assert ((m + 1) * frameCount <= mel * frameCount) by nia. lia.
      * lia.
      * assert ((mel + 1) * frameCount <= m * frameCount) by nia. lia.
Qed.

(** X10.  The mel tensor is band-major, and cell [(mel, frameIndex)] is the band
    energy of the 1024 samples that start [512 * frameIndex - 512] samples
    into the input, the signal being continued by zeros on both sides. *)
Theorem computeMelSpectrogram_cells melEnergy (monoSamples : list Q) (mel frameIndex : Z) :
  monoSamples <> [] ->
  0 <= mel < kMelBands ->
  0 <= frameIndex < totalFrames (computeMelSpectrogram melEnergy monoSamples) ->
  at_ (data (computeMelSpectrogram melEnergy monoSamples))
    (mel * totalFrames (computeMelSpectrogram melEnergy monoSamples) + frameIndex)
  = melEnergy (analysisFrame monoSamples frameIndex) mel /\
  length (analysisFrame monoSamples frameIndex) = 1024%nat.
Proof.
  intros Hne Hmel.
  destruct (TempoFacts.computeMelSpectrogram_frames melEnergy monoSamples Hne) as [HT _].
  rewrite HT. clear HT.
  unfold computeMelSpectrogram.
  destruct monoSamples as [|s rest]; [contradiction|]. cbn [isEmpty].
  set (samples := s :: rest). rewrite padded_signal.
  assert (size (paddedSignal samples) = size samples + 1024) as Hp.
  { unfold size, paddedSignal. rewrite !length_app, !length_replicate. lia. }
  rewrite Hp. replace (size samples + 1024 <? kNfft) with false
    by (symmetry; apply Z.ltb_ge; unfold size, kNfft; lia).
  cbn [data totalFrames]. unfold kNfft, kStftHopLength.
  replace (size samples + 1024 - 1024) with (size samples) by lia.
  set (frameCount := 1 + size samples / 512).
  assert (0 <= size samples / 512) as Hdiv by (apply Z.div_pos; [unfold size; lia|lia]).
  assert (0 < frameCount) as Hfc by (unfold frameCount; lia).
  intros Hf. split.
  2:{ unfold analysisFrame. rewrite length_take, length_drop.
      pose proof (Z.mul_div_le (size samples) 512 ltac:(lia)).
      unfold size in *. lia. }
  pose proof (fold_seqZ_invariant
                (fun k cells => melFilled melEnergy samples frameCount k 0 cells)
                (fun acc frameIndex =>
                   fold_left
                     (fun acc mel =>
                        <[Z.to_nat (mel * frameCount + frameIndex) :=
                            melEnergy
                              (take (Z.to_nat 1024)
                                 (drop (Z.to_nat (frameIndex * 512)) (paddedSignal samples)))
                              mel]> acc)
                     (seqZ 0 kMelBands) acc)
                0 (Z.to_nat frameCount)
                (replicate (Z.to_nat (kMelBands * frameCount)) 0%Q)) as H.
  rewrite Z2Nat.id in H by lia. destruct H as [_ Hcells].
  - split; [unfold size; rewrite length_replicate; unfold kMelBands; lia|].
    intros mel' f Hmel' Hf'. lia.
  - intros k cells Hk Hinv.
    pose proof (fold_seqZ_invariant
                  (fun m cells => melFilled melEnergy samples frameCount k m cells)
                  (fun acc mel =>
                     <[Z.to_nat (mel * frameCount + k) :=
                         melEnergy
                           (take (Z.to_nat 1024)
                              (drop (Z.to_nat (k * 512)) (paddedSignal samples)))
                           mel]> acc)
                  0 (Z.to_nat kMelBands) cells Hinv) as H.
    rewrite Z2Nat.id in H by (unfold kMelBands; lia).
    destruct H as [Hsize Hcells].
    + intros m acc Hm Hacc. apply melFilled_insert; [lia|exact Hm|exact Hacc].
    + split; [exact Hsize|]. intros mel' f Hmel' Hf'. apply Hcells; [exact Hmel'|].
      rewrite Z.add_0_l. destruct Hf' as [Hf'|[-> Hf']]; lia.
  - unfold at_. rewrite nth_lookup, Hcells by (first [exact Hmel|lia]). reflexivity.
Qed.

Lemma computeMelSpectrogram_cells_witness :
  at_ (data (computeMelSpectrogram unitKernel [1%Q])) 39 = 1%Q.
Proof.
  destruct (computeMelSpectrogram_cells unitKernel [1%Q] 39 0) as [H _].
  - discriminate.
  - unfold kMelBands. lia.
  - vm_compute. split; [discriminate|reflexivity].
  - exact H.
Defined.
End TempoMore.

(** ** More facts about the note pipeline *)
Module NeuralNoteMore.
Import NeuralNote NeuralNoteMoreSpec.
Local Open Scope Z_scope.

(** *** escapeJsonString *)

(** What [escapeJsonString] writes for one character. *)
Lemma escape_char (c : ascii) (value : list ascii) :
  list_ascii_of_string (escapeJsonString (string_of_list_ascii (c :: value)))
  = list_ascii_of_string (escapeJsonString (String c EmptyString))
    ++ list_ascii_of_string (escapeJsonString (string_of_list_ascii value)).
Proof.
  unfold escapeJsonString. rewrite !list_ascii_of_string_of_list_ascii.
  cbn [list_ascii_of_string flat_map]. rewrite app_nil_r. reflexivity.
Qed.

Lemma escape_char_sound (c : ascii) (rest : list ascii) :
  let written := list_ascii_of_string (escapeJsonString (String c EmptyString)) in
  wellEscaped (written ++ rest) = wellEscaped rest /\
  unescape (written ++ rest) = (if kept c then [c] else []) ++ unescape rest.
Proof.
  destruct c as [[] [] [] [] [] [] [] []]; split; reflexivity.
Qed.

(** X12.  The escaped text is the body of a JSON string, and reading it back gives
    the input without its control characters other than newline, carriage
    return and tab. *)
Theorem escapeJsonString_sound (value : string) :
  wellEscaped (list_ascii_of_string (escapeJsonString value)) = true /\
  unescape (list_ascii_of_string (escapeJsonString value))
  = List.filter kept (list_ascii_of_string value).
Proof.
  rewrite <- (string_of_list_ascii_of_string value) at 1 2.
  induction (list_ascii_of_string value) as [|c cs [IH1 IH2]]; [split; reflexivity|].
  rewrite escape_char.
  destruct (escape_char_sound c
              (list_ascii_of_string (escapeJsonString (string_of_list_ascii cs))))
    as [-> ->].
  split; [exact IH1|]. rewrite IH2. cbn [List.filter]. destruct (kept c); reflexivity.
Qed.

(** *** _wrapIndex *)

(** X13.  For a positive size and any index, negative ones included, the wrapped
    index is the index modulo the size: it lies within [0, size). *)
Theorem wrapIndex_modulo (inIndex inSize : Z) :
  0 < inSize ->
  _wrapIndex inIndex inSize = inIndex mod inSize /\ 0 <= _wrapIndex inIndex inSize < inSize.
Proof.
  intros Hsize.
  assert (_wrapIndex inIndex inSize = inIndex mod inSize) as E.
  { unfold _wrapIndex. cbv zeta.
    pose proof (Z.quot_rem' inIndex inSize) as Hqr.
    pose proof (Z.rem_bound_abs inIndex inSize ltac:(lia)) as Hb.
    destruct (Z.ltb_spec (Z.rem inIndex inSize) 0).
    - apply (Z.mod_unique_pos _ _ (Z.quot inIndex inSize - 1)); lia.
    - apply (Z.mod_unique_pos _ _ (Z.quot inIndex inSize)); lia. }
  split; [exact E|]. rewrite E. apply Z.mod_pos_bound. exact Hsize.
Qed.

Lemma wrapIndex_modulo_witness : _wrapIndex (-1) 8 = 7.
Proof.
  destruct (wrapIndex_modulo (-1) 8) as [H _]; [lia|]. rewrite H. reflexivity.
Defined.

(** *** _concat *)

Lemma lookup_copy_at {F} (dst src : list F) (pos x : nat) :
  (pos + length src <= length dst)%nat ->
  copy_at dst pos src !! x
  = if (x <? pos)%nat then dst !! x
    else if (x <? pos + length src)%nat then src !! (x - pos)%nat else dst !! x.
Proof.
  intros Hfit. unfold copy_at.
  destruct (Nat.ltb_spec x pos) as [Hx|Hx].
  - rewrite lookup_app_l by (rewrite length_take; lia). apply lookup_take_lt. exact Hx.
  - rewrite lookup_app_r by (rewrite length_take; lia).
    rewrite length_take, Nat.min_l by lia.
    destruct (Nat.ltb_spec x (pos + length src)) as [Hy|Hy].
    + rewrite lookup_app_l by lia. reflexivity.
    + rewrite lookup_app_r by lia. rewrite lookup_drop. f_equal. lia.
Qed.

Lemma length_copy_at {F} (dst src : list F) (pos : nat) :
  (pos + length src <= length dst)%nat -> length (copy_at dst pos src) = length dst.
Proof.
  intros Hfit. unfold copy_at. rewrite !length_app, length_take, length_drop. lia.
Qed.

(** X14.  The concatenation rule: for each of the 88 note bins [i], cell [33 i] of
    the concat array gets note output [i] and the next 32 cells get cells
    [32 i ..] of the concat2 slot one position ahead of the head. *)
Theorem concat_layout {F} (mNumConcat2Stored : Z) (noteOutputs : @Ptr F)
    (concat2Buffer : list (list F)) (concat2Idx : Z) (concatArray : list F) :
  length concatArray = (33 * NUM_FREQ_OUT)%nat ->
  length (slotAhead concat2Buffer concat2Idx mNumConcat2Stored) = (32 * NUM_FREQ_OUT)%nat ->
  concatRows noteOutputs (slotAhead concat2Buffer concat2Idx mNumConcat2Stored) NUM_FREQ_OUT
    (_concat mNumConcat2Stored noteOutputs concat2Buffer concat2Idx concatArray).
Proof.
  intros Harr Hslot. unfold _concat. cbv zeta.
  set (delayed := slotAhead concat2Buffer concat2Idx mNumConcat2Stored) in *.
  assert (forall n, (n <= NUM_FREQ_OUT)%nat ->
            concatRows noteOutputs delayed n
              (fold_left
                 (fun arr i =>
                    copy_at (<[(i * 33)%nat := noteOutputs i]> arr) (i * 33 + 1)%nat
                      (take 32 (drop (i * 32)%nat delayed)))
                 (seq 0 n) concatArray)) as H.
  2:{ apply H. lia. }
  unfold NUM_FREQ_OUT in *.
  induction n as [|n IH]; intros Hn.
  - split; [exact Harr|]. intros i Hi. lia.
  - rewrite seq_S, fold_left_app. cbn [fold_left Nat.add].
    destruct (IH ltac:(lia)) as [Hlen Hrows]. change NUM_FREQ_OUT with 88%nat in Hlen.
    set (arr := fold_left _ (seq 0 n) concatArray) in *.
    assert (length (take 32 (drop (n * 32) delayed)) = 32%nat) as Hsrc.
    { rewrite length_take, length_drop. lia. }
    assert (forall x,
              copy_at (<[(n * 33)%nat := noteOutputs n]> arr) (n * 33 + 1)
                (take 32 (drop (n * 32) delayed)) !! x
              = if (x =? n * 33)%nat then Some (noteOutputs n)
                else if ((n * 33 + 1 <=? x) && (x <? n * 33 + 33))%nat
                     then delayed !! (n * 32 + (x - (n * 33 + 1)))%nat
                     else arr !! x) as Hlook.
    { intros x. rewrite lookup_copy_at by (rewrite length_insert, Hsrc; lia).
      rewrite Hsrc.
      destruct (Nat.eqb_spec x (n * 33)) as [->|Hne].
      - replace (n * 33 <? n * 33 + 1)%nat with true by (symmetry; apply Nat.ltb_lt; lia).
        apply list_lookup_insert_eq. lia.
      - destruct (Nat.ltb_spec x (n * 33 + 1)) as [Hx|Hx].
        + replace (n * 33 + 1 <=? x)%nat with false by (symmetry; apply Nat.leb_gt; lia).
          cbn [andb]. apply list_lookup_insert_ne. lia.
        + replace (n * 33 + 1 <=? x)%nat with true by (symmetry; apply Nat.leb_le; lia).
          cbn [andb]. replace (n * 33 + 1 + 32)%nat with (n * 33 + 33)%nat by lia.
          destruct (Nat.ltb_spec x (n * 33 + 33)) as [Hy|Hy].
          * rewrite lookup_take_lt by lia. rewrite lookup_drop. reflexivity.
          * apply list_lookup_insert_ne. lia. }
    split.
    + rewrite length_copy_at by (rewrite length_insert, Hsrc; lia).
      rewrite length_insert. exact Hlen.
    + intros i Hi. destruct (Nat.eq_dec i n) as [->|Hne].
      * split.
        -- rewrite Hlook. rewrite Nat.eqb_refl. reflexivity.
        -- intros j Hj. rewrite Hlook.
           replace (n * 33 + 1 + j =? n * 33)%nat with false
             by (symmetry; apply Nat.eqb_neq; lia).
           replace ((n * 33 + 1 <=? n * 33 + 1 + j) && (n * 33 + 1 + j <? n * 33 + 33))%nat
             with true by (symmetry; apply andb_true_iff; split;
                           [apply Nat.leb_le|apply Nat.ltb_lt]; lia).
           f_equal. lia.
      * destruct (Hrows i ltac:(lia)) as [Hnote Hdelayed]. split.
        -- rewrite Hlook.
           replace (i * 33 =? n * 33)%nat with false by (symmetry; apply Nat.eqb_neq; lia).
           replace (n * 33 + 1 <=? i * 33)%nat with false
             by (symmetry; apply Nat.leb_gt; lia).
           exact Hnote.
        -- intros j Hj. rewrite Hlook.
           replace (i * 33 + 1 + j =? n * 33)%nat with false
             by (symmetry; apply Nat.eqb_neq; lia).
           replace (n * 33 + 1 <=? i * 33 + 1 + j)%nat with false
             by (symmetry; apply Nat.leb_gt; lia).
           apply Hdelayed. exact Hj.
Qed.

Lemma concat_layout_witness :
  concatRows (fun i => Z.of_nat i)
    (slotAhead (replicate 8 (replicate (32 * NUM_FREQ_OUT) 5)) 0 8) NUM_FREQ_OUT
    (_concat 8 (fun i => Z.of_nat i) (replicate 8 (replicate (32 * NUM_FREQ_OUT) 5)) 0
       (replicate (33 * NUM_FREQ_OUT) 0)).
Proof.
  apply concat_layout.
  - apply length_replicate.
  - vm_compute. reflexivity.
Defined.

(** *** The command line *)

Lemma parseArgs_cons (token value : string) (rest : list string) (args : gmap string string) :
  parseArgs (token :: value :: rest) args
  = if String.prefix "--" token then parseArgs rest (<[token := value]> args)
    else parseArgs (value :: rest) args.
Proof. reflexivity. Qed.

Lemma parseArgs_lookup (n : nat) :
  forall (tokens : list string) (args : gmap string string) (key value : string),
    (length tokens <= n)%nat ->
    parseArgs tokens args !! key = Some value ->
    args !! key = Some value \/
    (String.prefix "--" key = true /\
     exists before after, tokens = before ++ key :: value :: after).
Proof.
  induction n as [|n IH]; intros tokens args key value Hlen Hlook.
  - destruct tokens; [left; exact Hlook|simpl in Hlen; lia].
  - destruct tokens as [|token [|next rest]]; [left; exact Hlook..|].
    rewrite parseArgs_cons in Hlook. cbn [length] in Hlen.
    destruct (String.prefix "--" token) eqn:Hflag.
    + apply IH in Hlook; [|lia]. destruct Hlook as [Hlook|(Hp & before & after & ->)].
      * destruct (decide (token = key)) as [->|Hne].
        -- rewrite lookup_insert_eq in Hlook. injection Hlook as ->.
           right. split; [exact Hflag|]. exists [], rest. reflexivity.
        -- rewrite lookup_insert_ne in Hlook by exact Hne. left. exact Hlook.
      * right. split; [exact Hp|]. exists (token :: next :: before), after. reflexivity.
    + apply IH in Hlook; [|cbn [length]; lia].
      destruct Hlook as [Hlook|(Hp & before & after & E)]; [left; exact Hlook|].
      right. split; [exact Hp|]. exists (token :: before), after. rewrite E. reflexivity.
Qed.

(** X15.  Every option the parser returns is a token that starts with two dashes,
    followed in the command line by its value. *)
Theorem parseArgs_flags (argv : list string) (key value : string) :
  parseArgs argv ∅ !! key = Some value ->
  String.prefix "--" key = true /\
  exists before after, argv = before ++ key :: value :: after.
Proof.
  intros H. apply (parseArgs_lookup (length argv)) in H; [|lia].
  destruct H as [H|H]; [|exact H]. rewrite lookup_empty in H. discriminate.
Qed.

Lemma parseArgs_flags_witness :
  String.prefix "--" "--model-dir" = true /\
  exists before after,
    NeuralNoteSample.argv0 = before ++ "--model-dir" :: "models" :: after.
Proof.
  apply (parseArgs_flags NeuralNoteSample.argv0 "--model-dir" "models").
  vm_compute. reflexivity.
Defined.

Section Preset.
Variable stod : string -> option Q.
Variable stoi : string -> option Z.

Local Abbreviation parsePreset := (parsePreset stod stoi).

(** X16.  A preset that [main] accepts has its values within the ranges of the
    checks, and without any of the overriding options it is the balanced
    preset. *)
Theorem parsePreset_valid (args : gmap string string) :
  (forall p, parsePreset args = inr p -> presetOk p) /\
  ((forall key, In key presetKeys -> args !! key = None) ->
   parsePreset args = inr defaultPreset).
Proof.
  split.
  - intros p. unfold NeuralNote.parsePreset.
    destruct (parseDoubleArg stod args "--note-sensitivity" _) as [|ns]; [discriminate|].
    destruct (parseDoubleArg stod args "--split-sensitivity" _) as [|ss]; [discriminate|].
    destruct (parseDoubleArg stod args "--min-note-ms" _) as [|ms]; [discriminate|].
    destruct (parseBoolArg args "--melodia-trick" _) as [|mt]; [discriminate|].
    destruct (parseDoubleArg stod args "--min-pitch-hz" _) as [|lo]; [discriminate|].
    destruct (parseDoubleArg stod args "--max-pitch-hz" _) as [|hi]; [discriminate|].
    destruct (parseIntArg stoi args "--energy-tolerance" _) as [|tol]; [discriminate|].
    destruct (Tempo.Qltb ns 0 || Tempo.Qltb 1 ns) eqn:E1; [discriminate|].
    destruct (Tempo.Qltb ss 0 || Tempo.Qltb 1 ss) eqn:E2; [discriminate|].
    destruct (Qle_bool ms 0) eqn:E3; [discriminate|].
    destruct (Tempo.Qltb lo 0) eqn:E4; [discriminate|].
    destruct (Tempo.Qltb hi 0) eqn:E5; [discriminate|].
    destruct (Tempo.Qltb 0 hi && Tempo.Qltb 0 lo && Tempo.Qltb hi lo) eqn:E6; [discriminate|].
    destruct (Z.ltb_spec tol 1) as [|E7]; [discriminate|].
    intros [= <-]. unfold presetOk.
    cbn [noteSensitivity splitSensitivity minNoteDurationMs minPitchHz maxPitchHz
         energyTolerance].
    apply orb_false_iff in E1, E2. destruct E1 as [E1 E1'], E2 as [E2 E2'].
    apply TempoFacts.Qltb_ge in E1, E1', E2, E2', E4, E5.
    assert (0 < ms)%Q as Hms.
    { apply Qnot_le_lt. intros H. apply Qle_bool_iff in H. congruence. }
    repeat split; try assumption.
    intros Hlo Hhi. apply TempoFacts.Qltb_lt in Hlo, Hhi. rewrite Hlo, Hhi in E6.
    cbn [andb] in E6. apply TempoFacts.Qltb_ge in E6. exact E6.
  - intros Hnone. unfold NeuralNote.parsePreset, parseDoubleArg, parseBoolArg, parseIntArg.
    rewrite !Hnone by (unfold presetKeys; cbn [In]; tauto). reflexivity.
Qed.

End Preset.

Lemma parsePreset_valid_witness :
  parsePreset (@NeuralNoteSample.noNumber Q) (@NeuralNoteSample.noNumber Z) ∅
  = inr defaultPreset.
Proof.
  destruct (parsePreset_valid (@NeuralNoteSample.noNumber Q) (@NeuralNoteSample.noNumber Z) ∅)
    as [_ H].
  apply H. intros key _. apply lookup_empty.
Defined.


(** *** readFloat32LeFile *)

Section Reader.
Context {F : Type}.
Variable files : string -> option (list Byte.byte).
Variable decodeFloat32Le : list Byte.byte -> nat -> F.
Variable readGood : string -> bool.

Local Abbreviation readFloat32LeFile := (readFloat32LeFile files decodeFloat32Le readGood).

(** X18.  The reader succeeds exactly on an existing file whose size is a positive
    multiple of 4 and whose read went well; it then returns one sample per 4
    bytes, sample [i] being the [i]-th float of the file. *)
Theorem readFloat32LeFile_samples (path : string) :
  (forall samples, readFloat32LeFile path = inr samples ->
     exists bytes,
       files path = Some bytes /\ readGood path = true /\
       (4 * length samples = length bytes)%nat /\ samples <> [] /\
       forall i, (i < length samples)%nat -> samples !! i = Some (decodeFloat32Le bytes i)) /\
  (forall bytes,
     files path = Some bytes -> (0 < length bytes)%nat -> (length bytes mod 4 = 0)%nat ->
     readGood path = true ->
     exists samples, readFloat32LeFile path = inr samples).
Proof.
  unfold NeuralNote.readFloat32LeFile. split.
  - intros samples. destruct (files path) as [bytes|]; [|discriminate].
    destruct ((Z.of_nat (length bytes) <=? 0)
              || negb (Z.rem (Z.of_nat (length bytes)) 4 =? 0)) eqn:Hsize; [discriminate|].
    destruct (readGood path); [|discriminate]. cbn [negb]. intros [= <-].
    apply orb_false_iff in Hsize. destruct Hsize as [Hpos Hrem].
    apply negb_false_iff, Z.eqb_eq in Hrem.
    pose proof (Z.quot_rem' (Z.of_nat (length bytes)) 4) as Hq.
    assert (0 < Z.quot (Z.of_nat (length bytes)) 4) as Hq' by lia.
    exists bytes. do 2 (split; [reflexivity|]).
    unfold range. rewrite length_map, length_seq.
    split; [lia|]. split.
    + destruct (Z.to_nat (Z.quot (Z.of_nat (length bytes)) 4)) eqn:E; [lia|discriminate].
    + intros i Hi. rewrite list_lookup_fmap, lookup_seq_lt by exact Hi. reflexivity.
  - intros bytes -> Hpos Hmod Hgood. rewrite Hgood. cbn [negb].
    replace ((Z.of_nat (length bytes) <=? 0)
             || negb (Z.rem (Z.of_nat (length bytes)) 4 =? 0)) with false; [eauto|].
    symmetry. apply orb_false_iff. split; [lia|].
    apply negb_false_iff, Z.eqb_eq. rewrite Z.rem_mod_nonneg by lia.
    change 4 with (Z.of_nat 4). rewrite <- Nat2Z.inj_mod. lia.
Qed.
End Reader.

Lemma readFloat32LeFile_samples_witness :
  exists samples,
    readFloat32LeFile (fun _ => Some (replicate 8 Byte.x00)) NeuralNoteSample.decode0
      NeuralNoteSample.always "a.f32" = inr samples.
Proof.
  destruct (readFloat32LeFile_samples (fun _ => Some (replicate 8 Byte.x00))
              NeuralNoteSample.decode0 NeuralNoteSample.always "a.f32") as [_ H].
  apply (H (replicate 8 Byte.x00)); [reflexivity|simpl; lia|reflexivity|reflexivity].
Defined.

(** *** Outcomes of the programs *)

Section Outcomes.
Variable diagEnv : option string.
Variable clock : nat -> Z.

Local Abbreviation post := (post diagEnv).
Local Abbreviation emit := (emit clock diagEnv).

Lemma post_ret {A} (a : A) Q : Q (inr a) [] [] [] -> post (mret a) Q.
Proof.
  intros H. exists (inr a), [], [], [].
  split; [apply NeuralNoteFacts.effects_ret|exact H].
Qed.

Lemma post_lift {A} (r : exn + A) Q : Q r [] [] [] -> post (lift r) Q.
Proof. intros H. exists r, [], [], []. split; [apply NeuralNoteFacts.effects_lift|exact H]. Qed.

Lemma post_quiet {A} (m : M A) (r : exn + A) Q :
  quiet diagEnv m r -> Q r [] [] [] -> post m Q.
Proof. intros Hm H. exists r, [], [], []. split; [exact Hm|exact H]. Qed.

Lemma post_emit component event detail progress Q :
  Q (inr tt) [] [] [] -> post (emit component event detail progress) Q.
Proof. apply post_quiet. apply NeuralNoteFacts.quiet_emit. Qed.

Lemma post_print (l : OutLine) Q :
  isDiag l = false -> Q (inr tt) [l] [] [] -> post (print l) Q.
Proof.
  intros Hl H. exists (inr tt), [l], [], [].
  split; [apply NeuralNoteFacts.effects_print; exact Hl|exact H].
Qed.

Lemma post_cerr (msg : string) Q : Q (inr tt) [] [msg] [] -> post (cerr msg) Q.
Proof.
  intros H. exists (inr tt), [], [msg], [].
  split; [apply NeuralNoteFacts.effects_cerr|exact H].
Qed.

Lemma post_writeFile (path : string) (doc : JsonDoc) Q :
  Q (inr tt) [] [] [(path, doc)] -> post (writeFile path doc) Q.
Proof.
  intros H. exists (inr tt), [], [], [(path, doc)]. split; [|exact H].
  intros w. cbn. rewrite !app_nil_r. repeat split. exists []. rewrite app_nil_r. auto.
Qed.

Lemma post_bind {A B} (m : M A) (k : A -> M B) Q :
  post m (fun r P E W =>
            match r with
            | inl e => Q (inl e) P E W
            | inr a => post (k a) (fun r' P' E' W' => Q r' (P ++ P') (E ++ E') (W ++ W'))
            end) ->
  post (m ≫= k) Q.
Proof.
  intros (r & P & E & W & Hm & H). destruct r as [e|a].
  - exists (inl e), P, E, W. split; [apply NeuralNoteFacts.effects_bind_fail; exact Hm|exact H].
  - destruct H as (r' & P' & E' & W' & Hk & H).
    exists r', (P ++ P'), (E ++ E'), (W ++ W').
    split; [eapply NeuralNoteFacts.effects_bind_ok; eassumption|exact H].
Qed.

Lemma effects_try_pass {A} (body : M A) (handler : string -> M A) r P E W :
  (forall what, r <> inl (runtime_error what)) ->
  effects diagEnv body r P E W -> effects diagEnv (try_catch body handler) r P E W.
Proof.
  intros Hr Hb w. unfold try_catch.
  destruct (Hb w) as (H1 & He & Hw & ls & Hs & Hf & Hoff).
  destruct (body w) as [r1 w1]. cbn [fst snd] in *. subst r1.
  destruct r as [[what|]|a]; [destruct (Hr what); reflexivity| |];
    cbn [fst snd]; repeat split; try assumption; exists ls; auto.
Qed.

Lemma effects_try_caught {A} (body : M A) (handler : string -> M A) what r P E W P' E' W' :
  effects diagEnv body (inl (runtime_error what)) P E W ->
  effects diagEnv (handler what) r P' E' W' ->
  effects diagEnv (try_catch body handler) r (P ++ P') (E ++ E') (W ++ W').
Proof.
  intros Hb Hh w. unfold try_catch.
  destruct (Hb w) as (H1 & He & Hw & ls & Hs & Hf & Hoff).
  destruct (body w) as [r1 w1]. cbn [fst snd] in *. subst r1.
  destruct (Hh w1) as (H2 & He2 & Hw2 & ls2 & Hs2 & Hf2 & Hoff2).
  split; [exact H2|]. split; [rewrite He2, He, app_assoc; reflexivity|].
  split; [rewrite Hw2, Hw, app_assoc; reflexivity|].
  exists (ls ++ ls2). split; [rewrite Hs2, Hs, app_assoc; reflexivity|].
  split; [rewrite List.filter_app, Hf, Hf2; reflexivity|].
  intros Hen. rewrite Hoff, Hoff2 by exact Hen. reflexivity.
Qed.

Lemma post_try_catch {A} (body : M A) (handler : string -> M A) Q :
  post body (fun r P E W =>
               match r with
               | inl (runtime_error what) =>
                   post (handler what)
                     (fun r' P' E' W' => Q r' (P ++ P') (E ++ E') (W ++ W'))
               | _ => Q r P E W
               end) ->
  post (try_catch body handler) Q.
Proof.
  intros (r & P & E & W & Hb & H). destruct r as [[what|]|a].
  - destruct H as (r' & P' & E' & W' & Hh & H).
    exists r', (P ++ P'), (E ++ E'), (W ++ W').
    split; [eapply effects_try_caught; eassumption|exact H].
  - exists (inl out_of_range_access), P, E, W.
    split; [apply effects_try_pass; [discriminate|exact Hb]|exact H].
  - exists (inr a), P, E, W.
    split; [apply effects_try_pass; [discriminate|exact Hb]|exact H].
Qed.

Section Contracts.
Context {F : Type} (zero : F) {NetState : Type}.
Variables contourNet noteNet onsetInputNet onsetOutputNet : @Net F NetState.
Variables mNumContourStored mNumNoteStored mNumConcat2Stored : Z.
Variable featuresSession : list F -> exn + @Tensor F.
Variable convert :
  list (list F) -> list (list F) -> list (list F) -> Notes.ConvertParams -> bool
  -> list Notes.Event.
Variables FFT_HOP BASIC_PITCH_SAMPLE_RATE : Q.
Variable mTotalLookahead : Z.
Variable loadBasicPitch : string -> exn + @BasicPitch F NetState.
Variable files : string -> option (list Byte.byte).
Variable decodeFloat32Le : list Byte.byte -> nat -> F.
Variables readGood canOpenOutput writeGood : string -> bool.
Variable stod : string -> option Q.
Variable stoi : string -> option Z.
Variable showQ : Q -> string.
Variable loadTempoCnn : string -> exn + Tempo.Session.
Variable melEnergy : list Q -> Z -> Q.
Variable toDouble : F -> Q.

Local Abbreviation main :=
  (NeuralNote.main zero contourNet noteNet onsetInputNet onsetOutputNet
    mNumContourStored mNumNoteStored mNumConcat2Stored featuresSession clock diagEnv
    convert FFT_HOP BASIC_PITCH_SAMPLE_RATE mTotalLookahead loadBasicPitch files
    decodeFloat32Le readGood canOpenOutput writeGood stod stoi showQ).
Local Abbreviation runTranscription :=
  (NeuralNote.runTranscription zero contourNet noteNet onsetInputNet onsetOutputNet
    mNumContourStored mNumNoteStored mNumConcat2Stored featuresSession clock diagEnv
    convert FFT_HOP BASIC_PITCH_SAMPLE_RATE mTotalLookahead loadBasicPitch files
    decodeFloat32Le readGood canOpenOutput writeGood loadTempoCnn melEnergy toDouble).
Local Abbreviation transcribe :=
  (NeuralNote.transcribe zero contourNet noteNet onsetInputNet onsetOutputNet
    mNumContourStored mNumNoteStored mNumConcat2Stored featuresSession clock diagEnv
    convert FFT_HOP BASIC_PITCH_SAMPLE_RATE mTotalLookahead).

Ltac wp_step :=
  first
    [ apply post_ret
    | apply post_emit
    | apply post_cerr
    | apply post_lift
    | apply post_writeFile
    | apply post_print; [reflexivity|]
    | apply post_bind ];
  cbv beta iota.

Ltac wp := repeat wp_step.

Lemma post_transcribe bp audio preset Q :
  Q (transcribeCore zero contourNet noteNet onsetInputNet onsetOutputNet
       mNumContourStored mNumNoteStored mNumConcat2Stored featuresSession
       convert FFT_HOP BASIC_PITCH_SAMPLE_RATE mTotalLookahead bp audio preset) [] [] [] ->
  post (transcribe bp audio preset) Q.
Proof. apply post_quiet. apply NeuralNoteFacts.quiet_transcribe. Qed.

Lemma post_writeJson (path : string) (doc : JsonDoc) Q :
  (canOpenOutput path = false ->
   Q (inr (Some ("Could not open output JSON path: " +:+ path))) [] [] []) ->
  (canOpenOutput path = true -> writeGood path = false ->
   Q (inr (Some "Failed writing JSON output")) [] [] [(path, doc)]) ->
  (canOpenOutput path = true -> writeGood path = true -> Q (inr None) [] [] [(path, doc)]) ->
  post (writeJson canOpenOutput writeGood path doc) Q.
Proof.
  intros H1 H2 H3. unfold writeJson.
  destruct (canOpenOutput path); cbn [negb]; [|wp; auto].
  wp. destruct (writeGood path); cbn [negb]; wp; auto.
Qed.

Ltac exit_one :=
  right; right; left; cbn [app length];
  split; [reflexivity|split; [eexists; reflexivity|lia]].

(** X19.  The outcomes of the transcriber CLI.  No runtime error escapes it: it
    returns 0, 1 or 2, or it runs into the out-of-range access of the driver,
    having then written nothing and sent nothing to the error stream.  With 0
    it has printed its four progress lines, sent nothing to the error stream
    and written one document, to the path of [--output-json], with at least
    one event; with 2 it has written nothing and reported that no notes were
    detected; with 1 it has sent exactly one line to the error stream and
    written at most one document. *)
Theorem main_exit_contract (argv : list string) :
  post (main argv) (mainContract argv).
Proof.
  unfold NeuralNote.main. wp.
  destruct (parseArgs argv ∅ !! "--input-f32le") as [inputPath|]; [|wp; exit_one].
  destruct (parseArgs argv ∅ !! "--output-json") as [outputPath|] eqn:Hout;
    [|wp; exit_one].
  destruct (parseArgs argv ∅ !! "--model-dir") as [modelDir|]; [|wp; exit_one].
  destruct (negb (String.eqb (default "balanced" (parseArgs argv ∅ !! "--preset")) "balanced"));
    [wp; exit_one|].
  destruct (parsePreset stod stoi (parseArgs argv ∅)) as [parseError|presetValues];
    [wp; exit_one|].
  wp. apply post_try_catch. wp.
  destruct (readFloat32LeFile files decodeFloat32Le readGood inputPath)
    as [ioError|inputAudio]; [wp; exit_one|].
  wp. destruct (Tempo.isEmpty inputAudio); [wp; exit_one|].
  wp. destruct (loadBasicPitch modelDir) as [[what|]|transcriber].
  { wp. exit_one. }
  { do 3 right. repeat split. }
  wp. apply post_transcribe.
  destruct (transcribeCore _ _ _ _ _ _ _ _ _ _ _ _ _ _ _ _) as [[what|]|[bp events]].
  { wp. exit_one. }
  { do 3 right. repeat split. }
  wp. destruct (Tempo.isEmpty events) eqn:Hevents.
  { wp. right. left. repeat split. }
  wp. apply post_writeJson; intros; wp; try exit_one.
  left. cbn [app]. do 3 (split; [reflexivity|]).
  exists outputPath, events. split; [exact Hout|]. split; [|reflexivity].
  intros ->. discriminate Hevents.
Qed.

Ltac status_error :=
  split; [reflexivity|]; split; [reflexivity|]; right; left; cbn [app length];
  split; [eexists; reflexivity|lia].

(** X20.  The JNI entry point never lets a runtime error escape and never prints
    a progress line or an error line: it returns the null status after
    writing exactly one combined document to the output path, or an error
    text after writing at most one document, or it runs into the out-of-range
    access of the driver, having written nothing. *)
Theorem runTranscription_contract (pcm tempoPcm modelDir tempoModelPath outputPath : string) :
  post (runTranscription pcm tempoPcm modelDir tempoModelPath outputPath)
    (jniContract outputPath).
Proof.
  unfold NeuralNote.runTranscription. apply post_try_catch.
  destruct (String.eqb pcm EmptyString || String.eqb tempoPcm EmptyString
            || String.eqb modelDir EmptyString || String.eqb tempoModelPath EmptyString
            || String.eqb outputPath EmptyString); [wp; status_error|].
  destruct (readFloat32LeFile files decodeFloat32Le readGood pcm) as [e|nnSamples];
    [wp; status_error|].
  destruct (readFloat32LeFile files decodeFloat32Le readGood tempoPcm) as [e|tempoSamples];
    [wp; status_error|].
  destruct (Tempo.isEmpty nnSamples); [wp; status_error|].
  destruct (Tempo.isEmpty tempoSamples); [wp; status_error|].
  wp. destruct (loadBasicPitch modelDir) as [[what|]|transcriber].
  { wp. status_error. }
  { repeat split. do 2 right. repeat split. }
  wp. apply post_transcribe.
  destruct (transcribeCore _ _ _ _ _ _ _ _ _ _ _ _ _ _ _ _) as [[what|]|[bp nnEvents]].
  { wp. status_error. }
  { repeat split. do 2 right. repeat split. }
  wp. destruct (loadTempoCnn tempoModelPath) as [[what|]|tempoEstimator].
  { wp. status_error. }
  { repeat split. do 2 right. repeat split. }
  wp. unfold liftTempo.
  destruct (Tempo.estimate melEnergy tempoEstimator (map toDouble tempoSamples)
              {| Tempo.interpolate := true; Tempo.localTempo := true |})
    as [[what]|tempoEstimate].
  { apply post_lift. wp. status_error. }
  wp. apply post_writeJson; intros; try status_error.
  split; [reflexivity|]. split; [reflexivity|]. left. split; [reflexivity|].
  exists nnEvents, tempoEstimate. reflexivity.
Qed.

Local Abbreviation transcribeToMIDI :=
  (NeuralNote.transcribeToMIDI zero contourNet noteNet onsetInputNet onsetOutputNet
    mNumContourStored mNumNoteStored mNumConcat2Stored featuresSession clock diagEnv
    convert mTotalLookahead).

(** X21.  A transcription starts from a reset object: what it returns depends on
    the transcriber only through its network object, not on the
    posteriorgrams, events, parameters or frame count a previous run left. *)
Theorem transcribe_ignores_leftovers (bp1 bp2 : @BasicPitch F NetState) (audio : list F)
    (preset : NeuralNoteBalancedPreset) (w1 w2 : World) :
  mBasicPitchCNN bp1 = mBasicPitchCNN bp2 ->
  fst (transcribe bp1 audio preset w1) = fst (transcribe bp2 audio preset w2).
Proof.
  intros Hcnn.
  destruct (NeuralNoteFacts.quiet_transcribe diagEnv clock zero contourNet noteNet
              onsetInputNet onsetOutputNet mNumContourStored mNumNoteStored
              mNumConcat2Stored featuresSession convert FFT_HOP BASIC_PITCH_SAMPLE_RATE
              mTotalLookahead bp1 audio preset w1) as [-> _].
  destruct (NeuralNoteFacts.quiet_transcribe diagEnv clock zero contourNet noteNet
              onsetInputNet onsetOutputNet mNumContourStored mNumNoteStored
              mNumConcat2Stored featuresSession convert FFT_HOP BASIC_PITCH_SAMPLE_RATE
              mTotalLookahead bp2 audio preset w2) as [-> _].
  unfold transcribeCore, setParameters, resetBasicPitch.
  cbn [mContoursPG mNotesPG mOnsetsPG mNoteEvents mNumFrames mBasicPitchCNN].
  rewrite Hcnn. reflexivity.
Qed.

(** X22.  A feature tensor that is not of shape [1, N, 264, 8] stops the driver
    with the shape error, whatever the tensor holds. *)
Theorem transcribeToMIDI_shape_error (bp : @BasicPitch F NetState) (inAudio : list F)
    (output : @Tensor F) (w : World) :
  featuresSession inAudio = inr output ->
  (forall N, shape output <> [1; N; Z.of_nat NUM_FREQ_IN; Z.of_nat NUM_HARMONICS]) ->
  fst (transcribeToMIDI bp inAudio w)
  = inl (runtime_error "Unexpected ONNX features output shape").
Proof.
  intros Hfeat Hshape.
  destruct (NeuralNoteFacts.quiet_transcribeToMIDI diagEnv clock zero contourNet noteNet
              onsetInputNet onsetOutputNet mNumContourStored mNumNoteStored
              mNumConcat2Stored featuresSession convert mTotalLookahead bp inAudio w)
    as [-> _].
  unfold transcribeToMIDICore, computeFeaturesCore. rewrite Hfeat. cbn [bindE].
  destruct (shape output) as [|d0 [|d1 [|d2 [|d3 [|d4 rest]]]]] eqn:E; try reflexivity.
  destruct ((d0 =? 1) && (d2 =? Z.of_nat NUM_FREQ_IN) && (d3 =? Z.of_nat NUM_HARMONICS))
    eqn:Hdims; [|reflexivity].
  apply andb_true_iff in Hdims. destruct Hdims as [Hdims H3].
  apply andb_true_iff in Hdims. destruct Hdims as [H0 H2].
  apply Z.eqb_eq in H0, H2, H3. subst. destruct (Hshape d1). reflexivity.
Qed.
End Contracts.
End Outcomes.

Lemma transcribe_ignores_leftovers_witness :
  fst (transcribe 0 NeuralNoteSample.echoNet NeuralNoteSample.echoNet
         NeuralNoteSample.echoNet NeuralNoteSample.echoNet 8 2 8
         NeuralNoteSample.framePerSample NeuralNoteSample.stoppedClock None
         NeuralNoteSample.noNotes (256 # 1) (22050 # 1) 10
         {| mContoursPG := [[1]]; mNotesPG := []; mOnsetsPG := [];
            mNoteEvents := []; mParams := NeuralNoteSample.params0; mNumFrames := 9;
            mBasicPitchCNN := NeuralNoteSample.cnn0 |}
         [5] defaultPreset NeuralNoteSample.world0)
  = fst (transcribe 0 NeuralNoteSample.echoNet NeuralNoteSample.echoNet
           NeuralNoteSample.echoNet NeuralNoteSample.echoNet 8 2 8
           NeuralNoteSample.framePerSample NeuralNoteSample.stoppedClock None
           NeuralNoteSample.noNotes (256 # 1) (22050 # 1) 10
           NeuralNoteSample.bp0 [5] defaultPreset NeuralNoteSample.world0).
Proof. apply transcribe_ignores_leftovers. reflexivity. Defined.

Lemma transcribeToMIDI_shape_error_witness :
  fst (transcribeToMIDI 0 NeuralNoteSample.echoNet NeuralNoteSample.echoNet
         NeuralNoteSample.echoNet NeuralNoteSample.echoNet 8 2 8
         (fun _ => inr {| shape := [1; 3; 264]; tdata := [] |})
         NeuralNoteSample.stoppedClock None NeuralNoteSample.noNotes 10
         NeuralNoteSample.bp0 [5] NeuralNoteSample.world0)
  = inl (runtime_error "Unexpected ONNX features output shape").
Proof.
  apply (transcribeToMIDI_shape_error None NeuralNoteSample.stoppedClock 0
           NeuralNoteSample.echoNet NeuralNoteSample.echoNet NeuralNoteSample.echoNet
           NeuralNoteSample.echoNet 8 2 8
           (fun _ => inr {| shape := [1; 3; 264]; tdata := [] |})
           NeuralNoteSample.noNotes 10 NeuralNoteSample.bp0 [5]
           {| shape := [1; 3; 264]; tdata := [] |}).
  - reflexivity.
  - intros N. discriminate.
Defined.

(** Twelve frames under a lookahead of ten. *)
Lemma transcribeToMIDI_long_clip_witness :
  exists bp',
    fst (NeuralNoteSample.transcribeToMIDI0 NeuralNoteSample.stoppedClock None
           NeuralNoteSample.bp0 (replicate 12 5) NeuralNoteSample.world0) = inr bp' /\
    length (mOnsetsPG bp') = 12%nat /\ length (mNotesPG bp') = 12%nat /\
    length (mContoursPG bp') = 12%nat.
Proof.
  destruct (NeuralNoteFacts.transcribeToMIDI_long_clip 0 NeuralNoteSample.echoNet
              NeuralNoteSample.echoNet NeuralNoteSample.echoNet NeuralNoteSample.echoNet
              8 2 8 NeuralNoteSample.framePerSample NeuralNoteSample.noNotes 10
              NeuralNoteSample.stoppedClock None NeuralNoteSample.bp0 (replicate 12 5)
              (flat_map (replicate (NUM_HARMONICS * NUM_FREQ_IN)) (replicate 12 5)) 12
              NeuralNoteSample.world0)
    as [(bp' & Hrun & Ho & Hn & Hc & _) _]; try reflexivity; try lia.
  - repeat split; constructor.
  - exists bp'. split; [exact Hrun|]. split; [exact Ho|]. split; [exact Hn|exact Hc].
Defined.
End NeuralNoteMore.

(** ** Facts about the tempo CLI *)
Module TempoCliFacts.
Import Tempo TempoCli.
Local Open Scope Z_scope.

Section Program.
Variable files : string -> option (list Byte.byte).
Variable decodeFloat32Le : list Byte.byte -> nat -> Q.
Variable readOk : string -> bool.
Variable loadTempoCnn : string -> exn + Session.
Variable melEnergy : list Q -> Z -> Q.
Variable showFixed6 : Q -> string.

Local Abbreviation readFloat32LeFile := (readFloat32LeFile files decodeFloat32Le readOk).
Local Abbreviation main :=
  (main files decodeFloat32Le readOk loadTempoCnn melEnergy showFixed6).


Lemma tempo_readFloat32LeFile_samples_empty (filePath : string) :
  files filePath = Some [] -> readFloat32LeFile filePath = inr [].
Proof. unfold TempoCli.readFloat32LeFile. intros ->. reflexivity. Qed.

(** X25.  With its two required options, no help option and valid boolean
    options, the tempo CLI run on an existing file of no byte returns 1,
    prints nothing and sends [Input audio is empty.] to the error stream. *)
Theorem tempo_main_empty_input (argv : list string) (inputPath modelPath : string)
    (interpolate localTempo : bool) :
  parseArgs argv ∅ !! "--help" = None -> parseArgs argv ∅ !! "-h" = None ->
  parseArgs argv ∅ !! "--input-f32le" = Some inputPath ->
  parseArgs argv ∅ !! "--model-onnx" = Some modelPath ->
  parseBool (parseArgs argv ∅) "--interpolate" false = inr interpolate ->
  parseBool (parseArgs argv ∅) "--local-tempo" false = inr localTempo ->
  files inputPath = Some [] ->
  main argv = {| exitCode := 1; cout := []; cerr := ["Input audio is empty."] |}.
Proof.
  intros Hhelp Hh Hin Hmodel Hi Hl Hfile. unfold TempoCli.main. cbv zeta.
  rewrite Hhelp, Hh, Hin, Hmodel, Hi, Hl.
  rewrite !bool_decide_eq_false_2 by (intros [x Hx]; discriminate Hx). cbn [orb].
  rewrite (tempo_readFloat32LeFile_samples_empty inputPath Hfile). reflexivity.
Qed.

(** X26.  The tempo CLI returns 0 or 1.  With 0 it has printed exactly one line,
    the usage text or the result, and sent nothing to the error stream; with
    1 it has either printed the usage text alone or sent exactly one line to
    the error stream and printed nothing.  The result is printed only when
    [estimate] has returned it for the samples of the input file. *)
Theorem tempo_main_contract (argv : list string) :
  let run := main argv in
  (exitCode run = 0 /\ cerr run = [] /\
   (cout run = [usage] \/
    exists inputPath samples session options result,
      parseArgs argv ∅ !! "--input-f32le" = Some inputPath /\
      readFloat32LeFile inputPath = inr samples /\
      estimate melEnergy session samples options = inr result /\
      cout run = [showResult showFixed6 result (interpolate options) (localTempo options)]))
  \/ (exitCode run = 1 /\
      ((cout run = [usage] /\ cerr run = []) \/
       (cout run = [] /\ exists msg, cerr run = [msg]))).
Proof.
  unfold TempoCli.main. cbv zeta.
  destruct (_ || _); [left; cbn; auto|].
  destruct (parseArgs argv ∅ !! "--input-f32le") as [inputPath|]; [|right; cbn; auto].
  destruct (parseArgs argv ∅ !! "--model-onnx") as [modelPath|]; [|right; cbn; auto].
  destruct (parseBool _ "--interpolate" false) as [e|interpolate]; [right; cbn; eauto|].
  destruct (parseBool _ "--local-tempo" false) as [e|localTempo]; [right; cbn; eauto|].
  destruct (readFloat32LeFile inputPath) as [e|samples] eqn:Hread; [right; cbn; eauto|].
  destruct (isEmpty samples); [right; cbn; eauto|].
  destruct (loadTempoCnn modelPath) as [[what]|session]; [right; cbn; eauto|].
  destruct (estimate melEnergy session samples _) as [[what]|result] eqn:Hest;
    [right; cbn; eauto|].
  left. cbn [exitCode cerr cout]. do 2 (split; [reflexivity|]). right.
  exists inputPath, samples, session,
    {| interpolate := interpolate; localTempo := localTempo |}, result.
  auto.
Qed.
End Program.

Lemma tempo_main_empty_input_witness :
  main NeuralNoteSample.files0 (fun _ _ => 1%Q) NeuralNoteSample.always
    (fun _ => inr TempoSpec.peakSession) TempoSpec.unitKernel NeuralNoteSample.showQ0
    ["--input-f32le"; "in.f32"; "--model-onnx"; "tempo.onnx"]
  = {| exitCode := 1; cout := []; cerr := ["Input audio is empty."] |}.
Proof.
  apply (tempo_main_empty_input NeuralNoteSample.files0 (fun _ _ => 1%Q)
           NeuralNoteSample.always (fun _ => inr TempoSpec.peakSession) TempoSpec.unitKernel
           NeuralNoteSample.showQ0
           ["--input-f32le"; "in.f32"; "--model-onnx"; "tempo.onnx"]
           "in.f32" "tempo.onnx" false false); vm_compute; reflexivity.
Defined.

End TempoCliFacts.
